(** * Cross-repository dependency map: a model of scripts/build_cross_repo_map.py

    The development embeds the matching and aggregation engine of the script:
    the reference parser, the relation classifier, the Go module alias
    collector, the extractor builder, the match resolver and the edge
    aggregator of [main].

    Conventions.
    - A Python [str] is a [string]; characters are classified the way Python
      classifies the code points below 128 (the remaining characters of
      [ascii] are neither whitespace, digits nor word characters and have no
      case).
    - A Python [int] is a [Z].
    - A [dict] or [defaultdict] is a [gmap], a [set] is a [gset].
    - A compiled [re.Pattern] is an object with a [finditer] method; the
      patterns of the script are written as regular expression syntax trees
      and run by a backtracking matcher with the priorities of Python's [re]. *)

From Stdlib Require Import ZArith Ascii String List Sorted Permutation Lia Bool.
From stdpp Require Import base option list gmap sets strings sorting.

Local Open Scope Z_scope.

(* The solvers of stdpp clear hypotheses that may be absent. *)
Set Warnings "-clear-no-such-hyp".

(** ** Python string built-ins *)

Module Py.

(** [str.isspace] on one character (code points below 128). *)
Definition isspace (c : ascii) : bool :=
  match c with
  | "009" | "010" | "011" | "012" | "013"
  | "028" | "029" | "030" | "031" | " " => true
  | _ => false
  end%char.

(** Line boundaries of [str.splitlines] (code points below 128). *)
Definition islinebreak (c : ascii) : bool :=
  match c with
  | "010" | "011" | "012" | "013" | "028" | "029" | "030" => true
  | _ => false
  end%char.

Definition isdigit (c : ascii) : bool :=
  let n := nat_of_ascii c in (48 <=? n)%nat && (n <=? 57)%nat.

Definition isupper (c : ascii) : bool :=
  let n := nat_of_ascii c in (65 <=? n)%nat && (n <=? 90)%nat.

Definition islower (c : ascii) : bool :=
  let n := nat_of_ascii c in (97 <=? n)%nat && (n <=? 122)%nat.

(** The class [\w]: letters, digits and the underscore. *)
Definition isword (c : ascii) : bool :=
  isupper c || islower c || isdigit c || Ascii.eqb c "_".

Definition lower_char (c : ascii) : ascii :=
  if isupper c then ascii_of_nat (nat_of_ascii c + 32) else c.

Definition upper_char (c : ascii) : ascii :=
  if islower c then ascii_of_nat (nat_of_ascii c - 32) else c.

(** [s.lower()] *)
Fixpoint lower (s : string) : string :=
  match s with
  | EmptyString => EmptyString
  | String c s' => String (lower_char c) (lower s')
  end.

Fixpoint lstrip (s : string) : string :=
  match s with
  | EmptyString => EmptyString
  | String c s' => if isspace c then lstrip s' else s
  end.

Fixpoint rstrip (s : string) : string :=
  match s with
  | EmptyString => EmptyString
  | String c s' =>
      match rstrip s' with
      | EmptyString => if isspace c then EmptyString else String c EmptyString
      | r => String c r
      end
  end.

(** [s.strip()] *)
Definition strip (s : string) : string := rstrip (lstrip s).

(** [s.startswith(p)] *)
Definition startswith (p s : string) : bool := String.prefix p s.

(** [s.endswith(suf)] *)
Fixpoint endswith (suf s : string) : bool :=
  String.eqb s suf ||
  match s with
  | EmptyString => false
  | String _ s' => endswith suf s'
  end.

(** [s.removesuffix(suf)] *)
Definition removesuffix (suf s : string) : string :=
  if endswith suf s
  then String.substring 0 (String.length s - String.length suf) s
  else s.

(** [s.split(sep)] for a one-character separator; the result is never
    empty. *)
Fixpoint split (sep : ascii) (s : string) : list string :=
  match s with
  | EmptyString => [EmptyString]
  | String c s' =>
      if Ascii.eqb c sep then EmptyString :: split sep s'
      else match split sep s' with
           | p :: ps => String c p :: ps
           | [] => [String c EmptyString]
           end
  end.

(** [s.replace(a, b)] for one-character [a] and [b]. *)
Fixpoint replace (a b : ascii) (s : string) : string :=
  match s with
  | EmptyString => EmptyString
  | String c s' => String (if Ascii.eqb c a then b else c) (replace a b s')
  end.

(** [s.splitlines()]: a carriage return followed by a line feed is one
    boundary; no empty last line is produced after a final boundary. *)
Fixpoint splitlines (s : string) : list string :=
  match s with
  | EmptyString => []
  | String c s' =>
      if islinebreak c then
        match c, s' with
        | "013"%char, String "010"%char s'' => EmptyString :: splitlines s''
        | _, _ => EmptyString :: splitlines s'
        end
      else match splitlines s' with
           | [] => [String c EmptyString]
           | l :: ls => String c l :: ls
           end
  end.

(** [xs[-1]] on a non-empty list ([None] stands for the [IndexError]). *)
Definition last_item {A} (xs : list A) : option A := last xs.

(** Stable sort, as [sorted]: [before x y] says that [x] may stay in front
    of [y]. *)
Fixpoint insert_sorted {A} (before : A -> A -> bool) (x : A) (l : list A) : list A :=
  match l with
  | [] => [x]
  | y :: l' => if before x y then x :: l else y :: insert_sorted before x l'
  end.

Definition sorted {A} (before : A -> A -> bool) (l : list A) : list A :=
  foldr (insert_sorted before) [] l.

End Py.

(** ** Relation classifier *)

Definition classify_relation_type (relative_path : string) : string :=
  let rel := Py.replace "\"%char "/"%char relative_path in
  let base := default EmptyString (Py.last_item (Py.split "/"%char rel)) in
  if bool_decide (base = "go.mod") then "go_module"
  else if bool_decide (base ∈ ["package.json"; "package-lock.json"; "pnpm-lock.yaml"; "yarn.lock"])
  then "node_dependency"
  else if bool_decide (base ∈ ["requirements.txt"; "pyproject.toml"; "poetry.lock"; "Pipfile"; "Pipfile.lock"])
  then "python_dependency"
  else if bool_decide (base = ".gitmodules") then "git_submodule"
  else if Py.startswith ".github/workflows/" rel then "github_action"
  else if bool_decide (base ∈ ["Dockerfile"; "docker-compose.yaml"; "docker-compose.yml"])
  then "container_reference"
  else "reference".

(** ** Regular expressions

    The syntax trees cover what the patterns of the script use: literal text
    (what [re.escape] protects), character classes, sequencing, alternation,
    the greedy option, repetition of a character class (greedy star and plus,
    lazy plus), capture groups, and the anchors [^], [$] and [\b].  The
    matcher is the backtracking matcher of [re]: alternatives are tried from
    left to right, a greedy repetition tries the longest run first and a lazy
    one the shortest, and the first success is the result. *)

Module Re.

Definition charset := ascii -> bool.

Inductive regex : Type :=
| Lit (s : string)
| Cls (cs : charset)
| Seq (r1 r2 : regex)
| Alt (r1 r2 : regex)
| Opt (r : regex)
| Star (cs : charset)
| Plus (cs : charset)
| PlusLazy (cs : charset)
| Group (name : string) (r : regex)
| Bol
| Eol
| WordB.

(** Concatenation and alternation of a list of expressions. *)
Fixpoint cat (rs : list regex) : regex :=
  match rs with
  | [] => Lit EmptyString
  | [r] => r
  | r :: rs' => Seq r (cat rs')
  end.

Fixpoint alts (rs : list regex) : regex :=
  match rs with
  | [] => Lit EmptyString
  | [r] => r
  | r :: rs' => Alt r (alts rs')
  end.

(** A matcher state: the character before the current position ([None] at
    the start of the text), the text that remains, and the groups captured
    so far (most recent first). *)
Record mstate : Type := MState {
  prev : option ascii;
  rest : string;
  caps : list (string * string)
}.

(** The text consumed between two positions of the same input. *)
Definition consumed_len (s s' : string) : nat :=
  (String.length s - String.length s')%nat.

Definition consumed (s s' : string) : string :=
  String.substring 0 (consumed_len s s') s.

Definition at_end (s : string) : bool :=
  match s with
  | EmptyString => true
  | String "010"%char EmptyString => true
  | _ => false
  end.

Definition word_opt (c : option ascii) : bool :=
  match c with Some a => Py.isword a | None => false end.

Definition next_char (s : string) : option ascii :=
  match s with String c _ => Some c | EmptyString => None end.

Section Matcher.
(** [re.IGNORECASE] *)
Variable icase : bool.

Definition char_eq (a b : ascii) : bool :=
  if icase then Ascii.eqb (Py.lower_char a) (Py.lower_char b) else Ascii.eqb a b.

Definition in_set (cs : charset) (c : ascii) : bool :=
  if icase then cs c || cs (Py.lower_char c) || cs (Py.upper_char c) else cs c.

(** Literal text at the head of the input: the remaining input and the
    last character read. *)
Fixpoint lit (l : string) (pv : option ascii) (s : string) : option (option ascii * string) :=
  match l with
  | EmptyString => Some (pv, s)
  | String a l' =>
      match s with
      | String c t => if char_eq a c then lit l' (Some c) t else None
      | EmptyString => None
      end
  end.

Fixpoint star_greedy (cs : charset) (s : string) (pv : option ascii)
    (cp : list (string * string)) (k : mstate -> option mstate) : option mstate :=
  match s with
  | String c t =>
      if in_set cs c then
        match star_greedy cs t (Some c) cp k with
        | Some x => Some x
        | None => k (MState pv s cp)
        end
      else k (MState pv s cp)
  | EmptyString => k (MState pv s cp)
  end.

Fixpoint star_lazy (cs : charset) (s : string) (pv : option ascii)
    (cp : list (string * string)) (k : mstate -> option mstate) : option mstate :=
  match k (MState pv s cp) with
  | Some x => Some x
  | None =>
      match s with
      | String c t => if in_set cs c then star_lazy cs t (Some c) cp k else None
      | EmptyString => None
      end
  end.

(** [run r st k]: match [r] at [st] and continue with [k]; [None] makes
    the matcher backtrack. *)
Fixpoint run (r : regex) (st : mstate) (k : mstate -> option mstate) : option mstate :=
  match r with
  | Lit l =>
      match lit l (prev st) (rest st) with
      | Some (pv, s) => k (MState pv s (caps st))
      | None => None
      end
  | Cls cs =>
      match rest st with
      | String c t => if in_set cs c then k (MState (Some c) t (caps st)) else None
      | EmptyString => None
      end
  | Seq r1 r2 => run r1 st (fun st' => run r2 st' k)
  | Alt r1 r2 =>
      match run r1 st k with
      | Some x => Some x
      | None => run r2 st k
      end
  | Opt r1 =>
      match run r1 st k with
      | Some x => Some x
      | None => k st
      end
  | Star cs => star_greedy cs (rest st) (prev st) (caps st) k
  | Plus cs =>
      match rest st with
      | String c t => if in_set cs c then star_greedy cs t (Some c) (caps st) k else None
      | EmptyString => None
      end
  | PlusLazy cs =>
      match rest st with
      | String c t => if in_set cs c then star_lazy cs t (Some c) (caps st) k else None
      | EmptyString => None
      end
  | Group name r1 =>
      run r1 st (fun st' =>
        k (MState (prev st') (rest st')
             ((name, consumed (rest st) (rest st')) :: caps st')))
  | Bol => match prev st with None => k st | Some _ => None end
  | Eol => if at_end (rest st) then k st else None
  | WordB =>
      if xorb (word_opt (prev st)) (word_opt (next_char (rest st)))
      then k st else None
  end.
End Matcher.

(** A match object: the matched text and the groups that took part. *)
Record Match : Type := MkMatch {
  group0 : string;
  groups : list (string * string)
}.

Fixpoint assoc (name : string) (l : list (string * string)) : option string :=
  match l with
  | [] => None
  | (n, v) :: l' => if String.eqb n name then Some v else assoc name l'
  end.

(** [m.group(name)] and [m.groupdict().get(name)]: [None] for a group that
    did not take part in the match. *)
Definition group (name : string) (m : Match) : option string := assoc name (groups m).

Definition mk_match (s : string) (st' : mstate) : Match :=
  MkMatch (consumed s (rest st')) (caps st').

(** [re.match]: a match at the start of the text. *)
Definition match_ (icase : bool) (r : regex) (s : string) : option Match :=
  match run icase r (MState None s []) Some with
  | Some st' => Some (mk_match s st')
  | None => None
  end.

(** [re.fullmatch]: the match has to end at the end of the text. *)
Definition fullmatch (icase : bool) (r : regex) (s : string) : option Match :=
  match run icase r (MState None s [])
          (fun st' => match rest st' with EmptyString => Some st' | _ => None end) with
  | Some st' => Some (mk_match s st')
  | None => None
  end.

Definition nonempty_end (s : string) (st' : mstate) : option mstate :=
  match consumed_len s (rest st') with
  | O => None
  | S _ => Some st'
  end.

(** The scan of [finditer]: matches are searched from left to right and do
    not overlap; [skip] counts the characters of the previous match that
    are still to be passed.  After an empty match the same position is
    tried once more for a match that is not empty. *)
Fixpoint scan (icase : bool) (r : regex) (pv : option ascii) (s : string)
    (skip : nat) {struct s} : list Match :=
  let next (n : nat) :=
    match s with
    | String c t => scan icase r (Some c) t n
    | EmptyString => []
    end in
  match skip with
  | S n => next n
  | O =>
      match run icase r (MState pv s []) Some with
      | None => next O
      | Some st' =>
          match consumed_len s (rest st') with
          | S n => mk_match s st' :: next n
          | O =>
              mk_match s st' ::
              match run icase r (MState pv s []) (nonempty_end s) with
              | Some st'' => mk_match s st'' :: next (pred (consumed_len s (rest st'')))
              | None => next O
              end
          end
      end
  end.

(** A compiled pattern, seen through its [finditer] method. *)
Record Pattern : Type := MkPattern {
  finditer : string -> list Match
}.

Definition compile (r : regex) (icase : bool) : Pattern :=
  MkPattern (fun s => scan icase r None s O).

End Re.


(** The text of a group that took part in the match. *)
Definition group_text (name : string) (m : Re.Match) : string :=
  default EmptyString (Re.group name m).

(** ** Reference parser *)

Definition not_slash : Re.charset := fun c => negb (Ascii.eqb c "/").

Definition not_slash_space : Re.charset :=
  fun c => negb (Ascii.eqb c "/" || Py.isspace c).

Definition not_space : Re.charset := fun c => negb (Py.isspace c).

(** [^https?://github\.com/([^/]+)/([^/]+?)(?:\.git)?/?$] *)
Definition http_re : Re.regex :=
  Re.cat [Re.Bol; Re.Lit "http"; Re.Opt (Re.Lit "s"); Re.Lit "://github.com/";
          Re.Group "1" (Re.Plus not_slash); Re.Lit "/";
          Re.Group "2" (Re.PlusLazy not_slash);
          Re.Opt (Re.Lit ".git"); Re.Opt (Re.Lit "/"); Re.Eol].

(** [^git@github\.com:([^/]+)/([^/]+?)(?:\.git)?$] *)
Definition ssh_re : Re.regex :=
  Re.cat [Re.Bol; Re.Lit "git@github.com:";
          Re.Group "1" (Re.Plus not_slash); Re.Lit "/";
          Re.Group "2" (Re.PlusLazy not_slash);
          Re.Opt (Re.Lit ".git"); Re.Eol].

(** [^([^/\s]+)/([^/\s]+)$] *)
Definition bare_re : Re.regex :=
  Re.cat [Re.Bol; Re.Group "1" (Re.Plus not_slash_space); Re.Lit "/";
          Re.Group "2" (Re.Plus not_slash_space); Re.Eol].

Definition parse_repo_ref (value : string) : option (string * string) :=
  let raw := Py.strip value in
  if String.eqb raw EmptyString || Py.startswith "#" raw then None
  else
    match Re.match_ false http_re raw with
    | Some http_match => Some (group_text "1" http_match, group_text "2" http_match)
    | None =>
        match Re.match_ false ssh_re raw with
        | Some ssh_match => Some (group_text "1" ssh_match, group_text "2" ssh_match)
        | None =>
            match Re.match_ false bare_re raw with
            | Some bare_match =>
                Some (group_text "1" bare_match,
                      Py.removesuffix ".git" (group_text "2" bare_match))
            | None => None
            end
        end
    end.

(** ** Alias collector *)

(** A repository directory: its name and, for every [go.mod] found under it,
    the text of the file ([None] when reading it raises [OSError]). *)
Record RepoDir : Type := MkRepoDir {
  dir_name : string;
  go_mod_files : list (option string)
}.

(** [^\s*module\s+([^\s]+)\s*$] *)
Definition module_line_re : Re.regex :=
  Re.cat [Re.Bol; Re.Star Py.isspace; Re.Lit "module"; Re.Plus Py.isspace;
          Re.Group "1" (Re.Plus not_space); Re.Star Py.isspace; Re.Eol].

(** [^v\d+$] *)
Definition semver_suffix_re : Re.regex :=
  Re.cat [Re.Bol; Re.Lit "v"; Re.Plus Py.isdigit; Re.Eol].

(** The module path of the first line that declares one. *)
Fixpoint first_module_path (lines : list string) : option string :=
  match lines with
  | [] => None
  | line :: lines' =>
      match Re.match_ false module_line_re line with
      | Some m => Some (Py.strip (group_text "1" m))
      | None => first_module_path lines'
      end
  end.

Definition nonempty (s : string) : bool := negb (String.eqb s EmptyString).

(** [[part for part in module_path.split("/") if part]] *)
Definition path_parts (module_path : string) : list string :=
  List.filter nonempty (Py.split "/" module_path).

(** The repository a module path is an alias of (the [repo_name] of the
    loop body). *)
Definition module_repo_name (known_repo_names : gset string) (module_path : string)
    : option string :=
  let parts := path_parts module_path in
  match last parts with
  | None => None
  | Some last_part =>
      if bool_decide (last_part ∈ known_repo_names) then Some last_part
      else
        match parts !! (length parts - 2)%nat with
        | Some before_last =>
            if (2 <=? length parts)%nat
               && bool_decide (is_Some (Re.fullmatch false semver_suffix_re last_part))
               && bool_decide (before_last ∈ known_repo_names)
            then Some before_last
            else None
        | None => None
        end
  end.

(** [aliases[repo_name].add(module_path)] on a [defaultdict(set)] *)
Definition add_alias (aliases : gmap string (gset string)) (repo_name module_path : string)
    : gmap string (gset string) :=
  <[repo_name := default ∅ (aliases !! repo_name) ∪ {[module_path]}]> aliases.

(** The body of the loop over the [go.mod] files. *)
Definition collect_go_mod (known_repo_names : gset string)
    (aliases : gmap string (gset string)) (content : option string)
    : gmap string (gset string) :=
  match content with
  | None => aliases
  | Some text =>
      match first_module_path (Py.splitlines text) with
      | None => aliases
      | Some module_path =>
          if nonempty module_path then
            match module_repo_name known_repo_names module_path with
            | Some repo_name =>
                if nonempty repo_name then add_alias aliases repo_name module_path
                else aliases
            | None => aliases
            end
          else aliases
      end
  end.

Definition collect_go_module_aliases (repo_dirs : list RepoDir)
    (known_repo_names : gset string) : gmap string (gset string) :=
  foldl (fun aliases repo_dir =>
           foldl (collect_go_mod known_repo_names) aliases (go_mod_files repo_dir))
        ∅ repo_dirs.

(** ** Extractor builder *)

(** [sorted(names, key=len, reverse=True)] *)
Definition longer_first (x y : string) : bool :=
  (String.length y <=? String.length x)%nat.

(** [sorted(strings)] *)
Definition str_le (x y : string) : bool := String.leb x y.

(** Whether ["|".join(escaped)] is the empty string. *)
Definition alt_is_empty (escaped : list string) : bool :=
  match escaped with
  | [] => true
  | [name] => String.eqb name EmptyString
  | _ => false
  end.

(** The alternation of literals [a|b|...]. *)
Definition alt_of (escaped : list string) : Re.regex := Re.alts (Re.Lit <$> escaped).

(** [[A-Za-z0-9_.-]] *)
Definition owner_char : Re.charset :=
  fun c => Py.isupper c || Py.islower c || Py.isdigit c
           || Ascii.eqb c "_" || Ascii.eqb c "." || Ascii.eqb c "-".

(** [[\w.\-]] *)
Definition tag_char : Re.charset :=
  fun c => Py.isword c || Ascii.eqb c "." || Ascii.eqb c "-".

(** [[:/]] *)
Definition colon_or_slash : Re.charset :=
  fun c => Ascii.eqb c ":" || Ascii.eqb c "/".

(** [github\.com[:/](?P<owner>[A-Za-z0-9_.-]+)/(?P<repo>{alt})(?:\.git)?] *)
Definition github_url_re (escaped : list string) : Re.regex :=
  Re.cat [Re.Lit "github.com"; Re.Cls colon_or_slash;
          Re.Group "owner" (Re.Plus owner_char); Re.Lit "/";
          Re.Group "repo" (alt_of escaped); Re.Opt (Re.Lit ".git")].

(** [(?:@[\w.\-]+)?] *)
Definition version_tag_re : Re.regex :=
  Re.Opt (Re.Seq (Re.Lit "@") (Re.Plus tag_char)).

(** [\b{org_escaped}/(?P<repo>{alt})(?:@[\w.\-]+)?\b] *)
Definition org_re (org : string) (escaped : list string) : Re.regex :=
  Re.cat [Re.WordB; Re.Lit org; Re.Lit "/"; Re.Group "repo" (alt_of escaped);
          version_tag_re; Re.WordB].

(** [\b(?P<alias>{alias_alt})(?:@[\w.\-]+)?\b] *)
Definition alias_re (aliases : list string) : Re.regex :=
  Re.cat [Re.WordB; Re.Group "alias" (alt_of aliases); version_tag_re; Re.WordB].

(** [module_aliases.get(repo, set())], sorted *)
Definition aliases_of (module_aliases : option (gmap string (gset string))) (repo : string)
    : list string :=
  match module_aliases with
  | Some al => Py.sorted str_le (elements (default ∅ (al !! repo)))
  | None => []
  end.

(** The loop that fills [alias_values] and [alias_to_repo]. *)
Definition alias_table (repo_names : list string)
    (module_aliases : option (gmap string (gset string)))
    : list string * gmap string string :=
  foldl (fun acc repo =>
           foldl (fun '(alias_values, alias_to_repo) alias =>
                    (alias_values ++ [alias], <[Py.lower alias := repo]> alias_to_repo))
                 acc (aliases_of module_aliases repo))
        ([], ∅) repo_names.

(** An extractor: a compiled pattern and, for the alias pattern, the table
    from lower-cased alias to repository name. *)
Definition Extractor : Type := Re.Pattern * option (gmap string string).

(** [sorted(set(alias_values), key=len, reverse=True)]: the order in which a
    set of strings is iterated is not specified; it only decides the order
    of aliases of the same length. *)
Definition alias_alternatives (alias_values : list string) : list string :=
  Py.sorted longer_first (elements (list_to_set alias_values : gset string)).

Definition build_extractors (repo_names : list string) (org : option string)
    (module_aliases : option (gmap string (gset string))) : list Extractor :=
  let escaped := Py.sorted longer_first repo_names in
  if alt_is_empty escaped then []
  else
    let extractors := [(Re.compile (github_url_re escaped) true, None)] in
    let extractors :=
      match org with
      | Some o =>
          if nonempty o
          then extractors ++ [(Re.compile (org_re o escaped) true, None)]
          else extractors
      | None => extractors
      end in
    let '(alias_values, alias_to_repo) := alias_table repo_names module_aliases in
    match alias_values with
    | [] => extractors
    | _ :: _ =>
        extractors ++
          [(Re.compile (alias_re (alias_alternatives alias_values)) true,
            Some alias_to_repo)]
    end.

(** ** Match resolver *)

(** The [(repo, owner)] pair read from one match. *)
Definition resolve_match (alias_to_repo : option (gmap string string)) (m : Re.Match)
    : option string * option string :=
  match alias_to_repo with
  | None => (Re.group "repo" m, Re.group "owner" m)
  | Some table =>
      (match Re.group "alias" m with
       | Some alias => if nonempty alias then table !! Py.lower alias else None
       | None => None
       end, None)
  end.

(** The body of the inner loop: the update of [owners_by_repo]. *)
Definition record_owner (known_repo_names : gset string)
    (owners_by_repo : gmap string (option string))
    (resolved : option string * option string) : gmap string (option string) :=
  match resolved.1 with
  | None => owners_by_repo
  | Some repo =>
      if nonempty repo then
        if bool_decide (repo ∈ known_repo_names) then
          let existing_owner := mjoin (owners_by_repo !! repo) in
          match existing_owner, resolved.2 with
          | None, Some owner => <[repo := Some owner]> owners_by_repo
          | _, _ =>
              match owners_by_repo !! repo with
              | None => <[repo := resolved.2]> owners_by_repo
              | Some _ => owners_by_repo
              end
          end
        else owners_by_repo
      else owners_by_repo
  end.

(** The resolved pairs of a line, in the order in which the loops visit the
    matches. *)
Definition resolved_matches (line : string) (extractors : list Extractor)
    : list (option string * option string) :=
  flat_map (fun e : Extractor =>
              resolve_match e.2 <$> Re.finditer e.1 line) extractors.

Definition owners_of_line (line : string) (extractors : list Extractor)
    (known_repo_names : gset string) : gmap string (option string) :=
  foldl (fun owners_by_repo (e : Extractor) =>
           foldl (fun owners_by_repo m =>
                    record_owner known_repo_names owners_by_repo (resolve_match e.2 m))
                 owners_by_repo (Re.finditer e.1 line))
        ∅ extractors.

Definition item_le (x y : string * option string) : bool := str_le x.1 y.1.

Definition extract_targets (line : string) (extractors : list Extractor)
    (known_repo_names : gset string) : list (string * option string) :=
  Py.sorted item_le (map_to_list (owners_of_line line extractors known_repo_names)).

(** ** Edge aggregator *)

Record Evidence : Type := MkEvidence {
  ev_file : string;
  ev_line : Z;
  ev_relation_type : string;
  ev_snippet : string
}.

(** The aggregate kept per [(source, target)] key. *)
Record Edge : Type := MkEdge {
  source : string;
  target : string;
  occurrences : Z;
  relation_type_counts : gmap string Z;
  owners_observed : gset string;
  evidence : list Evidence
}.

(** A resolved hit: one [(target, owner)] pair of one matched line of the
    repository [hit_source]. *)
Record Hit : Type := MkHit {
  hit_source : string;
  hit_target : string;
  hit_owner : option string;
  hit_file : string;
  hit_line : Z;
  hit_relation_type : string;
  hit_snippet : string
}.

Definition new_edge (src tgt : string) : Edge :=
  MkEdge src tgt 0 ∅ ∅ [].

(** [rtc[relation_type] += 1] on a [defaultdict(int)] *)
Definition bump (relation_type : string) (rtc : gmap string Z) : gmap string Z :=
  <[relation_type := default 0 (rtc !! relation_type) + 1]> rtc.

(** [if owner: owners_observed.add(owner)] *)
Definition observe_owner (owner : option string) (owners : gset string) : gset string :=
  match owner with
  | Some o => if nonempty o then owners ∪ {[o]} else owners
  | None => owners
  end.

(** The updates made to the edge of a hit. *)
Definition update_edge (max_evidence_per_edge : Z) (h : Hit) (edge : Edge) : Edge :=
  MkEdge (source edge) (target edge)
    (occurrences edge + 1)
    (bump (hit_relation_type h) (relation_type_counts edge))
    (observe_owner (hit_owner h) (owners_observed edge))
    (if bool_decide (Z.of_nat (length (evidence edge)) < max_evidence_per_edge)
     then evidence edge ++
          [MkEvidence (hit_file h) (hit_line h) (hit_relation_type h) (hit_snippet h)]
     else evidence edge).

(** The body of the loop over the matches of a line: the edge is looked up
    or created, updated, and is the value stored under the key. *)
Definition fold_hit (max_evidence_per_edge : Z)
    (edges : gmap (string * string) Edge) (h : Hit) : gmap (string * string) Edge :=
  if bool_decide (hit_target h = hit_source h) then edges
  else
    let key := (hit_source h, hit_target h) in
    let edge := default (new_edge (hit_source h) (hit_target h)) (edges !! key) in
    <[key := update_edge max_evidence_per_edge h edge]> edges.

Definition aggregate (max_evidence_per_edge : Z) (hits : list Hit)
    : gmap (string * string) Edge :=
  foldl (fold_hit max_evidence_per_edge) ∅ hits.

(** The snippet kept as evidence of a line. *)
Definition snippet_of (line : string) : string :=
  let snippet := Py.strip line in
  if (220 <? String.length snippet)%nat
  then String.substring 0 217 snippet +:+ "..."
  else snippet.

(** The resolved hits of one line reported by the search tool. *)
Definition hits_of_line (src : string) (extractors : list Extractor)
    (known_repo_names : gset string) (found : string * Z * string) : list Hit :=
  let '(file_path, line_no, line) := found in
  let matches := extract_targets line extractors known_repo_names in
  let relation_type := classify_relation_type file_path in
  let snippet := snippet_of line in
  (fun '(tgt, owner) =>
     MkHit src tgt owner file_path line_no relation_type snippet) <$> matches.

(** [chunked(items, chunk_size)] *)
Fixpoint chunked_go (fuel : nat) (items : list string) (chunk_size : nat)
    : list (list string) :=
  match fuel, items with
  | _, [] => []
  | O, _ => []
  | S fuel', _ => take chunk_size items :: chunked_go fuel' (drop chunk_size items) chunk_size
  end.

Definition chunked (items : list string) (chunk_size : nat) : list (list string) :=
  chunked_go (length items) items chunk_size.

Section Scan.
(** The text search tool, an external collaborator: the lines it reports
    for a repository and a batch of names. *)
Variable rg_matches : string -> list string -> list (string * Z * string).
Variable org : option string.
Variable max_evidence_per_edge : Z.

(** The body of the loop over the lines reported by the search tool. *)
Definition fold_line (src : string) (extractors : list Extractor)
    (known_repo_names : gset string) (edges : gmap (string * string) Edge)
    (found : string * Z * string) : gmap (string * string) Edge :=
  foldl (fold_hit max_evidence_per_edge) edges
        (hits_of_line src extractors known_repo_names found).

(** The scanning loops of [main]: every repository, every batch of names,
    every reported line. *)
Definition scan_edges (repo_dirs : list RepoDir) : gmap (string * string) Edge :=
  let known_repo_names : gset string := list_to_set (dir_name <$> repo_dirs) in
  let go_module_aliases := collect_go_module_aliases repo_dirs known_repo_names in
  foldl (fun edges source_dir =>
    let src := dir_name source_dir in
    foldl (fun edges name_chunk =>
      let extractors := build_extractors name_chunk org (Some go_module_aliases) in
      match extractors with
      | [] => edges
      | _ => foldl (fold_line src extractors known_repo_names) edges
                   (rg_matches src name_chunk)
      end)
      edges (chunked (Py.sorted str_le (elements known_repo_names)) 120))
    ∅ repo_dirs.

(** The resolved hits of the scanning loops, in the order of the loops. *)
Definition scan_hits (repo_dirs : list RepoDir) : list Hit :=
  let known_repo_names : gset string := list_to_set (dir_name <$> repo_dirs) in
  let go_module_aliases := collect_go_module_aliases repo_dirs known_repo_names in
  flat_map (fun source_dir =>
    let src := dir_name source_dir in
    flat_map (fun name_chunk =>
      let extractors := build_extractors name_chunk org (Some go_module_aliases) in
      match extractors with
      | [] => []
      | _ => flat_map (hits_of_line src extractors known_repo_names)
                      (rg_matches src name_chunk)
      end)
      (chunked (Py.sorted str_le (elements known_repo_names)) 120))
    repo_dirs.
End Scan.

(** ** The edge list of the report *)

Definition DEPENDENCY_REL_TYPES : list string :=
  ["go_module"; "node_dependency"; "python_dependency"; "git_submodule"].

(** An entry of [edge_list]. *)
Record ReportEdge : Type := MkReportEdge {
  r_source : string;
  r_target : string;
  r_occurrences : Z;
  r_dependency_occurrences : Z;
  r_relation_type_counts : list (string * Z);
  r_owners_observed : list string;
  r_evidence : list Evidence
}.

(** The order of the tuples [(relation type, count)] and of the keys
    [(source, target)]. *)
Definition count_item_le (x y : string * Z) : bool :=
  match String.compare x.1 y.1 with
  | Lt => true
  | Eq => x.2 <=? y.2
  | Gt => false
  end.

Definition edge_key_le (x y : (string * string) * Edge) : bool :=
  match String.compare x.1.1 y.1.1 with
  | Lt => true
  | Eq => str_le x.1.2 y.1.2
  | Gt => false
  end.

(** The sum of the counts of a list of items. *)
Definition sum_counts (items : list (string * Z)) : Z :=
  foldr (fun item acc => item.2 + acc) 0 items.

(** The body of the loop that builds [edge_list]. *)
Definition report_edge (edge : Edge) : ReportEdge :=
  let relation_type_counts :=
    Py.sorted count_item_le (map_to_list (relation_type_counts edge)) in
  let dependency_occurrences :=
    sum_counts (List.filter
                  (fun item => bool_decide (item.1 ∈ DEPENDENCY_REL_TYPES))
                  relation_type_counts) in
  MkReportEdge (source edge) (target edge) (occurrences edge)
    dependency_occurrences relation_type_counts
    (Py.sorted str_le (elements (owners_observed edge)))
    (evidence edge).

Definition edge_list (edges : gmap (string * string) Edge) : list ReportEdge :=
  (fun kv : (string * string) * Edge => report_edge kv.2)
    <$> Py.sorted edge_key_le (map_to_list edges).

(** [sum(rtc.values())] *)
Definition count_total (rtc : gmap string Z) : Z :=
  map_fold (fun _ v acc => v + acc) 0 rtc.

(** The number of hits of a stream that belong to the key [(src, tgt)]. *)
Definition hits_for (src tgt : string) (hits : list Hit) : list Hit :=
  List.filter (fun h => bool_decide (hit_source h = src ∧ hit_target h = tgt
                                    ∧ hit_target h ≠ hit_source h)) hits.

(** The occurrence count and the count of a relation type of the edge
    stored under a key; an edge that does not exist yet counts 0, the values
    with which it is created. *)
Definition occurrences_at (edges : gmap (string * string) Edge) (key : string * string) : Z :=
  from_option occurrences 0 (edges !! key).

Definition count_at (edges : gmap (string * string) Edge) (key : string * string)
    (relation_type : string) : Z :=
  from_option (fun e => default 0 (relation_type_counts e !! relation_type)) 0 (edges !! key).

(** The owners supplied for a repository by the resolved matches of a line,
    in processing order, and the first of them that is not null. *)
Definition owners_supplied (repo : string) (ms : list (option string * option string))
    : list (option string) :=
  snd <$> List.filter (fun m => bool_decide (m.1 = Some repo)) ms.

Fixpoint first_non_null (owners : list (option string)) : option string :=
  match owners with
  | [] => None
  | Some o :: _ => Some o
  | None :: owners' => first_non_null owners'
  end.

(** A pattern with a fixed list of matches, whatever the line. *)
Definition fixed_pattern (ms : list Re.Match) : Re.Pattern :=
  Re.MkPattern (fun _ => ms).

(** ** Invariants used in the proofs *)

(** The facts that hold of every edge of a reachable map. *)
Definition edge_ok (cap : Z) (hits : list Hit) (key : string * string) (e : Edge) : Prop :=
  key.1 ≠ key.2
  ∧ source e = key.1 ∧ target e = key.2
  ∧ occurrences e = Z.of_nat (length (hits_for key.1 key.2 hits))
  ∧ occurrences e = count_total (relation_type_counts e)
  ∧ 1 <= occurrences e
  ∧ Z.of_nat (length (evidence e)) <= Z.max 0 cap
  ∧ Z.of_nat (length (evidence e)) = Z.min (occurrences e) (Z.max 0 cap).

Definition edges_ok (cap : Z) (edges : gmap (string * string) Edge) (hits : list Hit) : Prop :=
  forall key,
    match edges !! key with
    | Some e => edge_ok cap hits key e
    | None => hits_for key.1 key.2 hits = []
    end.

(** A name the resolver accepts. *)
Definition valid_repo (known : gset string) (repo : string) : Prop :=
  repo ≠ EmptyString ∧ repo ∈ known.

(** The owner stored for a repository after a run of resolved matches. *)
Definition merged (owners : gmap string (option string)) (repo : string)
    (ms : list (option string * option string)) : option (option string) :=
  match owners !! repo with
  | Some (Some o) => Some (Some o)
  | Some None => Some (first_non_null (owners_supplied repo ms))
  | None =>
      match owners_supplied repo ms with
      | [] => None
      | os => Some (first_non_null os)
      end
  end.

(** ** Vocabulary of the statements about patterns *)

(** The last character of [pv] followed by [a]. *)
Fixpoint last_char (pv : option ascii) (a : string) : option ascii :=
  match a with
  | EmptyString => pv
  | String c a' => last_char (Some c) a'
  end.

(** Every character of [s] satisfies [p]. *)
Fixpoint all_chars (p : ascii -> bool) (s : string) : bool :=
  match s with
  | EmptyString => true
  | String c s' => p c && all_chars p s'
  end.

(** The text [a] is the literal [l], up to case when [icase] is set. *)
Fixpoint lit_eq (icase : bool) (l a : string) : bool :=
  match l, a with
  | EmptyString, EmptyString => true
  | String x l', String y a' => Re.char_eq icase x y && lit_eq icase l' a'
  | _, _ => false
  end.

(** The text [s] is empty or begins with a character outside the class. *)
Definition stops (p : ascii -> bool) (s : string) : bool :=
  match s with
  | EmptyString => true
  | String c _ => negb (p c)
  end.

(** A bare [v] followed by digits. *)
Definition is_semver_suffix (s : string) : Prop :=
  exists ds, s = String "v" ds ∧ ds ≠ EmptyString ∧ all_chars Py.isdigit ds = true.

(** The condition under which a module path is recorded as an alias of the
    repository [r]. *)
Definition alias_condition (known_repo_names : gset string) (r module_path : string) : Prop :=
  r ∈ known_repo_names
  ∧ (last (path_parts module_path) = Some r
     ∨ exists front v,
         path_parts module_path = front ++ [r; v] ∧ is_semver_suffix v).

(** Every recorded alias meets the alias condition. *)
Definition aliases_ok (known : gset string) (aliases : gmap string (gset string)) : Prop :=
  forall r S p, aliases !! r = Some S -> p ∈ S -> alias_condition known r p.

(** ** The reference forms of the parser, as texts *)

(** A path segment: not empty, no slash. *)
Definition segment (s : string) : Prop :=
  s ≠ EmptyString ∧ all_chars not_slash s = true.

(** A segment of the shorthand: not empty, no slash, no whitespace. *)
Definition word_segment (s : string) : Prop :=
  s ≠ EmptyString ∧ all_chars not_slash_space s = true.

(** [r] is [body] without its optional [.git] suffix; the suffix is taken
    off whenever a name is left. *)
Definition without_git (body r : string) : Prop :=
  (body = r +:+ ".git" ∧ r ≠ EmptyString)
  ∨ (body = r ∧ ¬ exists x, x ≠ EmptyString ∧ body = x +:+ ".git").

(** [<scheme>://github.com/<owner>/<repo>[.git][/]] *)
Definition url_form (schemes : list string) (raw o r : string) : Prop :=
  exists scheme body slash,
    scheme ∈ schemes ∧ slash ∈ [EmptyString; "/"]
    ∧ raw = scheme +:+ "://github.com/" +:+ o +:+ "/" +:+ body +:+ slash
    ∧ segment o ∧ segment body ∧ without_git body r.

(** [git@github.com:<owner>/<repo>[.git]] *)
Definition ssh_form (raw o r : string) : Prop :=
  exists body,
    raw = "git@github.com:" +:+ o +:+ "/" +:+ body
    ∧ segment o ∧ segment body ∧ without_git body r.

(** [<owner>/<repo>], a trailing [.git] stripped from the repo segment *)
Definition bare_form (raw o r : string) : Prop :=
  exists body,
    raw = o +:+ "/" +:+ body
    ∧ word_segment o ∧ word_segment body ∧ r = Py.removesuffix ".git" body.

(** The text does not end with a whitespace character. *)
Definition no_trailing_space (s : string) : Prop :=
  match last_char None s with
  | Some c => Py.isspace c = false
  | None => True
  end.

(** All the ways of cutting a text in two. *)
Fixpoint splits (w : string) : list (string * string) :=
  (EmptyString, w) ::
  match w with
  | EmptyString => []
  | String c w' => (fun ab : string * string => (String c ab.1, ab.2)) <$> splits w'
  end.

(** The part shared by the URL and SSH patterns:
    [([^/]+)/([^/]+?)] followed by a tail. *)
Definition owner_repo_re (tail : Re.regex) : Re.regex :=
  Re.Seq (Re.Group "1" (Re.Plus not_slash))
    (Re.Seq (Re.Lit "/") (Re.Seq (Re.Group "2" (Re.PlusLazy not_slash)) tail)).

(** [(?:\.git)?/?$] and [(?:\.git)?$] *)
Definition http_tail_re : Re.regex :=
  Re.Seq (Re.Opt (Re.Lit ".git")) (Re.Seq (Re.Opt (Re.Lit "/")) Re.Eol).

Definition ssh_tail_re : Re.regex :=
  Re.Seq (Re.Opt (Re.Lit ".git")) Re.Eol.




(** A search tool that reports one line, in one repository. *)
Definition reports_line (repo file : string) (n : Z) (line : string)
    : string -> list string -> list (string * Z * string) :=
  fun src _ => if String.eqb src repo then [(file, n, line)] else [].

(** * Further functions of the script *)

(** ** Search patterns *)

(** [alias_values] after the loops over the names of the batch and their
    sorted aliases. *)
Definition alias_values_of (repo_names : list string)
    (module_aliases : option (gmap string (gset string))) : list string :=
  foldl (fun alias_values repo =>
           foldl (fun alias_values alias => alias_values ++ [alias])
                 alias_values (aliases_of module_aliases repo))
        [] repo_names.

(** [github\.com[:/][A-Za-z0-9_.-]+/({alt})(?:\.git)?] *)
Definition github_url_pattern (escaped : list string) : Re.regex :=
  Re.cat [Re.Lit "github.com"; Re.Cls colon_or_slash; Re.Plus owner_char;
          Re.Lit "/"; Re.Group "1" (alt_of escaped); Re.Opt (Re.Lit ".git")].

(** [\b{org_escaped}/({alt})(?:@[\w.\-]+)?\b] *)
Definition org_pattern (org : string) (escaped : list string) : Re.regex :=
  Re.cat [Re.WordB; Re.Lit org; Re.Lit "/"; Re.Group "1" (alt_of escaped);
          version_tag_re; Re.WordB].

(** [\b(?:{alias_alt})(?:@[\w.\-]+)?\b] *)
Definition alias_pattern (aliases : list string) : Re.regex :=
  Re.cat [Re.WordB; alt_of aliases; version_tag_re; Re.WordB].

(** The patterns handed to the search tool, as syntax trees. *)
Definition build_patterns (repo_names : list string) (org : option string)
    (module_aliases : option (gmap string (gset string))) : list Re.regex :=
  let escaped := Py.sorted longer_first repo_names in
  if alt_is_empty escaped then []
  else
    let patterns := [github_url_pattern escaped] in
    let patterns :=
      match org with
      | Some o =>
          if nonempty o then patterns ++ [org_pattern o escaped] else patterns
      | None => patterns
      end in
    match alias_values_of repo_names module_aliases with
    | [] => patterns
    | alias_values => patterns ++ [alias_pattern (alias_alternatives alias_values)]
    end.

(** A pattern without its capture groups. *)
Fixpoint erase_groups (r : Re.regex) : Re.regex :=
  match r with
  | Re.Seq r1 r2 => Re.Seq (erase_groups r1) (erase_groups r2)
  | Re.Alt r1 r2 => Re.Alt (erase_groups r1) (erase_groups r2)
  | Re.Opt r1 => Re.Opt (erase_groups r1)
  | Re.Group _ r1 => erase_groups r1
  | _ => r
  end.

(** Two matcher states at the same place of the text, and two results that
    agree on whether and where the match ends. *)
Definition same_place (st st' : Re.mstate) : Prop :=
  Re.prev st = Re.prev st' ∧ Re.rest st = Re.rest st'.

Definition same_end (o o' : option Re.mstate) : Prop :=
  match o, o' with
  | Some x, Some y => same_place x y
  | None, None => True
  | _, _ => False
  end.

(** ** Node identifiers of the diagram *)

(** [[A-Za-z0-9_]] *)
Definition id_char (c : ascii) : bool :=
  Py.isupper c || Py.islower c || Py.isdigit c || Ascii.eqb c "_".

(** [re.sub(r"[^A-Za-z0-9_]", "_", name)]: every character outside the
    class is replaced by an underscore. *)
Fixpoint sub_non_id (name : string) : string :=
  match name with
  | EmptyString => EmptyString
  | String c s => String (if id_char c then c else "_"%char) (sub_non_id s)
  end.

Definition sanitize_mermaid_id (name : string) : string :=
  let cleaned := sub_non_id name in
  match cleaned with
  | EmptyString => "r_" +:+ cleaned
  | String c _ => if Py.isdigit c then "r_" +:+ cleaned else cleaned
  end.

(** A text that can stand as an identifier: not empty, made of letters,
    digits and underscores, not beginning with a digit. *)
Definition is_identifier (s : string) : Prop :=
  all_chars id_char s = true
  ∧ match s with
    | EmptyString => False
    | String c _ => Py.isdigit c = false
    end.

(** ** Repository set-up of [main] *)

(** The outcome of [git remote get-url origin]; [None] stands for the
    [FileNotFoundError] raised when [git] is missing. *)
Record ProcResult : Type := MkProcResult {
  returncode : Z;
  stdout : string
}.

Definition parse_origin_full_name (proc : option ProcResult) : option string :=
  match proc with
  | None => None
  | Some p =>
      if bool_decide (returncode p ≠ 0) then None
      else
        let url := Py.strip (stdout p) in
        match parse_repo_ref url with
        | None => None
        | Some (owner, repo) => Some (owner +:+ "/" +:+ repo)
        end
  end.

(** ["/" in s] *)
Fixpoint contains_char (c : ascii) (s : string) : bool :=
  match s with
  | EmptyString => false
  | String x s' => Ascii.eqb x c || contains_char c s'
  end.

Record RepoNode : Type := MkRepoNode {
  node_name : string;
  node_path : string;
  node_full_name : option string;
  node_owner : option string
}.

(** The owner of a node:
    [full_name.split("/")[0] if full_name and "/" in full_name else None]. *)
Definition owner_of_full_name (full_name : option string) : option string :=
  match full_name with
  | Some fn =>
      if nonempty fn && contains_char "/" fn
      then head (Py.split "/" fn)
      else None
  | None => None
  end.

(** The node built for a repository directory. *)
Definition make_node (name path : string) (proc : option ProcResult) : RepoNode :=
  let full_name := parse_origin_full_name proc in
  MkRepoNode name path full_name (owner_of_full_name full_name).

Definition load_allowed_repo_names (text : string) : gset string :=
  foldl (fun allowed line =>
           match parse_repo_ref line with
           | Some parsed => allowed ∪ {[parsed.2]}
           | None => allowed
           end)
        ∅ (Py.splitlines text).

(** [sorted(..., key=lambda p: p.name.lower())] *)
Definition lower_name_le (x y : RepoDir) : bool :=
  str_le (Py.lower (dir_name x)) (Py.lower (dir_name y)).

(** The entries of the root directory come with the answer to
    [p.is_dir() and (p / ".git").is_dir()]. *)
Definition discover_repo_dirs (entries : list (RepoDir * bool)) : list RepoDir :=
  Py.sorted lower_name_le (fst <$> List.filter snd entries).

(** The ways in which [main] gives up before scanning. *)
Inductive SetupError : Type :=
| ReposRootNotFound
| NoGitRepos
| RepoListFileNotFound
| RepoListNoMatch.

(** The repository directories that [main] scans: [repo_list_file] is
    [None] without the option, [Some None] when the file is missing, and
    the text of the file otherwise. *)
Definition select_repo_dirs (entries : list (RepoDir * bool))
    (repo_list_file : option (option string)) : SetupError + list RepoDir :=
  let repo_dirs := discover_repo_dirs entries in
  match repo_dirs with
  | [] => inl NoGitRepos
  | _ :: _ =>
      match repo_list_file with
      | None => inr repo_dirs
      | Some None => inl RepoListFileNotFound
      | Some (Some text) =>
          let allowed := load_allowed_repo_names text in
          let repo_dirs :=
            if bool_decide (allowed ≠ ∅)
            then List.filter (fun d => bool_decide (dir_name d ∈ allowed)) repo_dirs
            else repo_dirs in
          match repo_dirs with
          | [] => inl RepoListNoMatch
          | _ :: _ => inr repo_dirs
          end
      end
  end.

(** ** The report of [main] *)

(** What [main] writes to [edges.json], without the root path. *)
Record Report : Type := MkReport {
  report_org : option string;
  report_node_count : nat;
  report_edge_count : nat;
  report_nodes : list RepoNode;
  report_edges : list ReportEdge
}.

Section Main.
(** The external collaborators: the search tool, [git remote get-url
    origin] in a repository, and the text of the path of a repository
    directory. *)
Variable rg_matches : string -> list string -> list (string * Z * string).
Variable origin : string -> option ProcResult.
Variable path_str : string -> string.
(** The arguments [--org] and [--max-evidence-per-edge]. *)
Variable org : option string.
Variable max_evidence_per_edge : Z.

(** [main] up to the report: [root] is [None] when the root is not a
    directory, and the entries of the root directory otherwise. *)
Definition main_report (root : option (list (RepoDir * bool)))
    (repo_list_file : option (option string)) : SetupError + Report :=
  match root with
  | None => inl ReposRootNotFound
  | Some entries =>
      match select_repo_dirs entries repo_list_file with
      | inl err => inl err
      | inr repo_dirs =>
          let nodes :=
            (fun repo_dir =>
               make_node (dir_name repo_dir) (path_str (dir_name repo_dir))
                 (origin (dir_name repo_dir))) <$> repo_dirs in
          let edge_list :=
            edge_list (scan_edges rg_matches org max_evidence_per_edge repo_dirs) in
          inr (MkReport org (length nodes) (length edge_list) nodes edge_list)
      end
  end.
End Main.

(** ** Vocabulary of the further statements *)

(** The evidence record of a hit. *)
Definition evidence_of (h : Hit) : Evidence :=
  MkEvidence (hit_file h) (hit_line h) (hit_relation_type h) (hit_snippet h).

(** The owners, not empty, of a list of hits. *)
Definition owners_of_hits (hits : list Hit) : gset string :=
  foldl (fun owners h => observe_owner (hit_owner h) owners) ∅ hits.

(** The number of hits of a list with a relation type. *)
Definition count_type (relation_type : string) (hits : list Hit) : Z :=
  Z.of_nat (length (List.filter
                      (fun h => bool_decide (hit_relation_type h = relation_type))
                      hits)).

(** What an edge of the aggregate is, in terms of the hits of its key. *)
Definition edge_is (cap : Z) (own : list Hit) (e : Edge) : Prop :=
  occurrences e = Z.of_nat (length own)
  ∧ evidence e = take (Z.to_nat cap) (evidence_of <$> own)
  ∧ owners_observed e = owners_of_hits own
  ∧ forall rt,
      relation_type_counts e !! rt
      = if bool_decide (count_type rt own = 0) then None else Some (count_type rt own).

Definition edges_are (cap : Z) (edges : gmap (string * string) Edge)
    (hits : list Hit) : Prop :=
  forall key,
    match edges !! key with
    | Some e => edge_is cap (hits_for key.1 key.2 hits) e
    | None => hits_for key.1 key.2 hits = []
    end.

(** The manifest files that the classifier knows by their base name,
    with their relation types. *)
Definition manifest_types : list (string * string) :=
  [("go.mod", "go_module");
   ("package.json", "node_dependency"); ("package-lock.json", "node_dependency");
   ("pnpm-lock.yaml", "node_dependency"); ("yarn.lock", "node_dependency");
   ("requirements.txt", "python_dependency"); ("pyproject.toml", "python_dependency");
   ("poetry.lock", "python_dependency"); ("Pipfile", "python_dependency");
   ("Pipfile.lock", "python_dependency");
   (".gitmodules", "git_submodule")].

(** The container files of the classifier. *)
Definition container_files : list string :=
  ["Dockerfile"; "docker-compose.yaml"; "docker-compose.yml"].

(** The two path separators, as texts. *)
Definition separators : list string := ["/"; "\"].

(** No slash and no backslash. *)
Definition plain_char (c : ascii) : bool :=
  negb (Ascii.eqb c "/") && negb (Ascii.eqb c "\").

(** A hit found in a dependency manifest. *)
Definition dependency_hit (h : Hit) : bool :=
  bool_decide (hit_relation_type h ∈ DEPENDENCY_REL_TYPES).

(** An edge without its evidence. *)
Definition edge_summary (e : Edge)
    : string * string * Z * gmap string Z * gset string :=
  (source e, target e, occurrences e, relation_type_counts e, owners_observed e).

(** The comparison of tuples: first on a string, then with [le]. *)
Definition lex_le {A B} (k1 : A -> string) (k2 : A -> B) (le : B -> B -> bool)
    (x y : A) : bool :=
  match String.compare (k1 x) (k1 y) with
  | Lt => true
  | Eq => le (k2 x) (k2 y)
  | Gt => false
  end.

(** The order of the keys [(source, target)], strict. *)
Definition key_lt (x y : string * string) : Prop :=
  String.ltb x.1 y.1 = true ∨ (x.1 = y.1 ∧ String.ltb x.2 y.2 = true).

(** A text of whitespace. *)
Definition blank (s : string) : Prop := all_chars Py.isspace s = true.

(** * Properties of [sorted] *)

Section Sorted.
Context {A : Type} (before : A -> A -> bool).

Lemma insert_sorted_perm x l : Py.insert_sorted before x l ≡ₚ x :: l.
Proof.
  induction l as [|y l IH]; simpl; [done|].
  destruct (before x y); [done|]. rewrite IH. apply Permutation_swap.
Qed.

Lemma sorted_perm l : Py.sorted before l ≡ₚ l.
Proof.
  unfold Py.sorted. induction l as [|x l IH]; simpl; [done|].
  by rewrite insert_sorted_perm, IH.
Qed.

Hypothesis before_total : forall x y, before x y = false -> before y x = true.
Hypothesis before_trans :
  forall x y z, before x y = true -> before y z = true -> before x z = true.

Lemma insert_sorted_sorted x l :
  StronglySorted (fun a b => before a b = true) l ->
  StronglySorted (fun a b => before a b = true) (Py.insert_sorted before x l).
Proof.
  induction 1 as [|y l Hl IH Hy]; simpl.
  - repeat constructor.
  - destruct (before x y) eqn:Hxy.
    + constructor; [by constructor|]. constructor; [done|].
      eapply Forall_impl; [exact Hy|]. intros z Hz. by eapply before_trans.
    + constructor; [done|].
      rewrite insert_sorted_perm. constructor; [|done]. by apply before_total.
Qed.

Lemma sorted_sorted l :
  StronglySorted (fun a b => before a b = true) (Py.sorted before l).
Proof.
  unfold Py.sorted. induction l as [|x l IH]; simpl; [constructor|].
  by apply insert_sorted_sorted.
Qed.
End Sorted.

Lemma str_le_total x y : str_le x y = false -> str_le y x = true.
Proof.
  unfold str_le. intros H. destruct (String.leb_total x y) as [H'|H']; congruence.
Qed.

Lemma str_le_trans x y z : str_le x y = true -> str_le y z = true -> str_le x z = true.
Proof.
  unfold str_le. intros H1 H2.
  apply Is_true_true. apply Is_true_true in H1, H2.
  exact (transitivity (R := String.le) H1 H2).
Qed.


(** * Properties of the edge aggregator *)

Section Aggregator.
Context (cap : Z).
Implicit Types (edges : gmap (string * string) Edge) (h : Hit) (hits : list Hit).

Lemma fold_hit_self edges h :
  hit_target h = hit_source h -> fold_hit cap edges h = edges.
Proof. intros Heq. unfold fold_hit. by rewrite bool_decide_eq_true_2. Qed.

Lemma fold_hit_lookup edges h :
  hit_target h ≠ hit_source h ->
  fold_hit cap edges h !! (hit_source h, hit_target h) =
    Some (update_edge cap h
            (default (new_edge (hit_source h) (hit_target h))
                     (edges !! (hit_source h, hit_target h)))).
Proof.
  intros Hne. unfold fold_hit. rewrite bool_decide_eq_false_2 by done.
  apply lookup_insert_eq.
Qed.

Lemma fold_hit_frame edges h key :
  key ≠ (hit_source h, hit_target h) ->
  fold_hit cap edges h !! key = edges !! key.
Proof.
  intros Hne. unfold fold_hit. case_bool_decide; [done|].
  by rewrite lookup_insert_ne.
Qed.

(** Reachable edge maps are described by an invariant that every step of
    the fold preserves. *)
Lemma aggregate_ind (P : gmap (string * string) Edge -> list Hit -> Prop) :
  P ∅ [] ->
  (forall edges hits h, P edges hits -> P (fold_hit cap edges h) (hits ++ [h])) ->
  forall hits, P (aggregate cap hits) hits.
Proof.
  intros Hnil Hstep hits. unfold aggregate.
  induction hits as [|h hits IH] using rev_ind; [done|].
  rewrite foldl_app. simpl. by apply Hstep.
Qed.

Lemma hits_for_snoc src tgt hits h :
  hits_for src tgt (hits ++ [h]) =
    hits_for src tgt hits ++
      (if bool_decide (hit_source h = src ∧ hit_target h = tgt
                       ∧ hit_target h ≠ hit_source h) then [h] else []).
Proof. unfold hits_for. rewrite List.filter_app. simpl. by case_bool_decide. Qed.

Lemma count_total_bump rt (rtc : gmap string Z) :
  count_total (bump rt rtc) = count_total rtc + 1.
Proof.
  unfold count_total, bump.
  destruct (rtc !! rt) as [v|] eqn:Hrt; simpl.
  - rewrite (map_fold_delete_L _ _ rt v rtc); [|intros; lia|done].
    rewrite <- insert_delete_eq.
    rewrite map_fold_insert_L; [lia|intros; lia|apply lookup_delete_eq].
  - rewrite map_fold_insert_L; [lia|intros; lia|done].
Qed.


Lemma update_edge_length h e :
  Z.of_nat (length (evidence e)) = Z.min (occurrences e) (Z.max 0 cap) ->
  0 <= occurrences e ->
  Z.of_nat (length (evidence (update_edge cap h e))) =
    Z.min (occurrences e + 1) (Z.max 0 cap).
Proof.
  intros Hlen Hocc. unfold update_edge; simpl.
  case_bool_decide; [rewrite length_app; simpl|]; lia.
Qed.

Lemma hits_for_skip src tgt hits h :
  (src, tgt) ≠ (hit_source h, hit_target h) ∨ hit_target h = hit_source h ->
  hits_for src tgt (hits ++ [h]) = hits_for src tgt hits.
Proof.
  intros Hne. rewrite hits_for_snoc, bool_decide_eq_false_2, app_nil_r; [done|].
  intros (Hs & Ht & Hself). destruct Hne as [Hne|Hne]; [|done].
  apply Hne. by rewrite Hs, Ht.
Qed.

Lemma hits_for_take src tgt hits h :
  hit_source h = src -> hit_target h = tgt -> hit_target h ≠ hit_source h ->
  length (hits_for src tgt (hits ++ [h])) = S (length (hits_for src tgt hits)).
Proof.
  intros. rewrite hits_for_snoc, bool_decide_eq_true_2, length_app by done.
  simpl. lia.
Qed.


Lemma aggregate_edges_ok hits : edges_ok cap (aggregate cap hits) hits.
Proof.
  apply aggregate_ind; clear hits.
  { intros key. by rewrite lookup_empty. }
  intros edges hits h IH key.
  destruct (decide (hit_target h = hit_source h)) as [Hself|Hne].
  { rewrite fold_hit_self by done. specialize (IH key).
    destruct (edges !! key); unfold edge_ok in *;
      rewrite hits_for_skip by auto; done. }
  destruct (decide (key = (hit_source h, hit_target h))) as [->|Hkey].
  - rewrite fold_hit_lookup by done. specialize (IH (hit_source h, hit_target h)).
    unfold edge_ok in *. cbn [fst snd] in *.
    rewrite hits_for_take by done.
    destruct (edges !! (hit_source h, hit_target h)) as [e0|]; cbn [default id].
    + destruct IH as (?&?&?&Hocc&Hsum&?&?&Hlen).
      rewrite (update_edge_length h e0) by lia.
      cbn [update_edge source target occurrences relation_type_counts].
      rewrite count_total_bump.
      repeat split; try done; lia.
    + rewrite IH.
      rewrite (update_edge_length h (new_edge _ _)) by (simpl; lia).
      cbn [update_edge new_edge source target occurrences relation_type_counts length].
      rewrite count_total_bump.
      repeat split; try done; lia.
  - rewrite fold_hit_frame by done. specialize (IH key).
    destruct (edges !! key); unfold edge_ok in *;
      rewrite hits_for_skip; auto; destruct key; simpl; auto.
Qed.

Lemma aggregate_edge_ok hits key e :
  aggregate cap hits !! key = Some e -> edge_ok cap hits key e.
Proof. intros H. pose proof (aggregate_edges_ok hits key) as Hk. by rewrite H in Hk. Qed.

Lemma fold_hit_occurrences edges h :
  hit_target h ≠ hit_source h ->
  occurrences_at (fold_hit cap edges h) (hit_source h, hit_target h) =
    occurrences_at edges (hit_source h, hit_target h) + 1.
Proof.
  intros Hne. unfold occurrences_at. rewrite fold_hit_lookup by done.
  by destruct (edges !! _).
Qed.

Lemma fold_hit_count edges h rt :
  hit_target h ≠ hit_source h ->
  count_at (fold_hit cap edges h) (hit_source h, hit_target h) rt =
    count_at edges (hit_source h, hit_target h) rt
    + (if bool_decide (rt = hit_relation_type h) then 1 else 0).
Proof.
  intros Hne. unfold count_at. rewrite fold_hit_lookup by done.
  destruct (edges !! _) as [e|]; simpl; unfold bump.
  - case_bool_decide as Hrt.
    + subst rt. by rewrite lookup_insert_eq.
    + rewrite lookup_insert_ne by done. lia.
  - case_bool_decide as Hrt.
    + subst rt. by rewrite lookup_insert_eq.
    + by rewrite lookup_insert_ne by done.
Qed.

Lemma foldl_flat_map {A B C} (f : A -> B -> A) (g : C -> list B) (l : list C) (a : A) :
  foldl f a (flat_map g l) = foldl (fun a x => foldl f a (g x)) a l.
Proof.
  revert a. induction l as [|x l IH]; intros a; simpl; [done|].
  by rewrite foldl_app, IH.
Qed.

End Aggregator.

Lemma foldl_pointwise {A B} (f g : A -> B -> A) (l : list B) (a : A) :
  (forall a x, f a x = g a x) -> foldl f a l = foldl g a l.
Proof.
  intros Hfg. revert a. induction l as [|x l IH]; intros a; simpl; [done|].
  by rewrite Hfg, IH.
Qed.

(** The scanning loops of [main] fold exactly the stream of resolved hits. *)
Lemma scan_edges_aggregate rg org cap repo_dirs :
  scan_edges rg org cap repo_dirs = aggregate cap (scan_hits rg org repo_dirs).
Proof.
  unfold scan_edges, scan_hits, aggregate.
  rewrite foldl_flat_map.
  apply foldl_pointwise. intros edges d.
  rewrite foldl_flat_map.
  apply foldl_pointwise. intros edges' c.
  destruct (build_extractors c org _); [done|].
  unfold fold_line. by rewrite foldl_flat_map.
Qed.

(** [chunked] returns all the items, in order, and never runs out of
    fuel. *)
Lemma chunked_go_concat fuel (items : list string) n :
  (0 < n)%nat -> (length items <= fuel)%nat ->
  concat (chunked_go fuel items n) = items.
Proof.
  intros Hn. revert items. induction fuel as [|fuel IH]; intros items Hlen.
  - destruct items; [done|]. simpl in Hlen. lia.
  - destruct items as [|x items]; [done|].
    cbn [chunked_go concat]. rewrite IH.
    + apply take_drop.
    + rewrite length_drop. simpl in *. lia.
Qed.

Lemma chunked_concat (items : list string) n :
  (0 < n)%nat -> concat (chunked items n) = items.
Proof. intros Hn. by apply chunked_go_concat. Qed.

(** * The edge list of the report *)

Lemma sum_counts_perm (l l' : list (string * Z)) :
  l ≡ₚ l' -> sum_counts l = sum_counts l'.
Proof.
  unfold sum_counts. induction 1; simpl; lia.
Qed.

Lemma count_total_sum (rtc : gmap string Z) :
  count_total rtc = sum_counts (map_to_list rtc).
Proof.
  unfold count_total, sum_counts. rewrite map_fold_foldr.
  induction (map_to_list rtc) as [|[k v] l IH]; simpl; [done|]. by rewrite IH.
Qed.

Lemma report_edge_sum e :
  sum_counts (r_relation_type_counts (report_edge e))
  = count_total (relation_type_counts e).
Proof.
  unfold report_edge. cbn [r_relation_type_counts].
  rewrite count_total_sum. apply sum_counts_perm, sorted_perm.
Qed.

Lemma elem_of_edge_list edges re :
  re ∈ edge_list edges ->
  exists key e, edges !! key = Some e ∧ re = report_edge e.
Proof.
  unfold edge_list. intros Hin.
  apply list_elem_of_fmap in Hin as ([key e] & -> & Hin).
  rewrite sorted_perm in Hin. apply elem_of_map_to_list in Hin.
  by exists key, e.
Qed.

(** The scan of two repositories [a] and [b], where a workflow file of [a]
    holds one line that names [b] through the organization shorthand. *)
Example scan_edges_workflow_line :
  edge_list
    (scan_edges
       (reports_line "a" ".github/workflows/ci.yml" 4 "uses example-org/b@v1.2.3")
       (Some "example-org") 5 [MkRepoDir "a" []; MkRepoDir "b" []])
  = [MkReportEdge "a" "b" 1 0 [("github_action", 1)] []
       [MkEvidence ".github/workflows/ci.yml" 4 "github_action"
          "uses example-org/b@v1.2.3"]].
Proof. vm_compute. reflexivity. Qed.

(** * Claims about the edge aggregator *)

(** C2. No self-edges: every edge of a reachable edge map, and so of the map
    built by the scanning loops of [main] and of the edge list of the
    report, is stored under a key whose source differs from its target and
    carries that source and target; a hit whose target is the scanning
    repository leaves the map as it is. *)
Theorem no_self_edges :
  (forall cap hits key e,
      aggregate cap hits !! key = Some e ->
      key.1 ≠ key.2 ∧ source e = key.1 ∧ target e = key.2 ∧ source e ≠ target e)
  ∧ (forall rg org cap repo_dirs key e,
      scan_edges rg org cap repo_dirs !! key = Some e ->
      key.1 ≠ key.2 ∧ source e ≠ target e)
  ∧ (forall rg org cap repo_dirs re,
      re ∈ edge_list (scan_edges rg org cap repo_dirs) ->
      r_source re ≠ r_target re)
  ∧ (forall cap edges h,
      hit_target h = hit_source h -> fold_hit cap edges h = edges).
Proof.
  split; [|split; [|split]].
  - intros cap hits key e H.
    destruct (aggregate_edge_ok cap hits key e H) as (?&Hs&Ht&_).
    rewrite Hs, Ht. done.
  - intros rg org cap repo_dirs key e H. rewrite scan_edges_aggregate in H.
    destruct (aggregate_edge_ok cap _ key e H) as (?&Hs&Ht&_).
    rewrite Hs, Ht. done.
  - intros rg org cap repo_dirs re Hin.
    apply elem_of_edge_list in Hin as (key & e & H & ->).
    rewrite scan_edges_aggregate in H.
    destruct (aggregate_edge_ok cap _ key e H) as (?&Hs&Ht&_).
    cbn [report_edge r_source r_target]. by rewrite Hs, Ht.
  - intros. by apply fold_hit_self.
Qed.

Lemma no_self_edges_witness :
  aggregate 5 [MkHit "a" "b" None "go.mod" 3 "go_module" "require b";
               MkHit "a" "a" None "go.mod" 1 "go_module" "module a"]
    !! ("a", "b")
  = Some (MkEdge "a" "b" 1 {["go_module" := 1]} ∅
            [MkEvidence "go.mod" 3 "go_module" "require b"])
  ∧ "a" ≠ "b".
Proof.
  assert (Hlook : aggregate 5 [MkHit "a" "b" None "go.mod" 3 "go_module" "require b";
               MkHit "a" "a" None "go.mod" 1 "go_module" "module a"]
    !! ("a", "b")
  = Some (MkEdge "a" "b" 1 {["go_module" := 1]} ∅
            [MkEvidence "go.mod" 3 "go_module" "require b"])) by (vm_compute; reflexivity).
  split; [exact Hlook|].
  exact (proj1 (proj1 no_self_edges 5 _ _ _ Hlook)).
Defined.

(** C7. Folding one more hit whose target differs from its source adds one
    to the occurrences of the edge of its key and one to that edge's count
    of the hit's relation type, leaves the other counts of that edge and
    every other edge as they were; folding the same hit again adds one to
    both once more. *)
Theorem fold_hit_increments cap edges h :
  hit_target h ≠ hit_source h ->
  let key := (hit_source h, hit_target h) in
  let once := fold_hit cap edges h in
  let twice := fold_hit cap once h in
  occurrences_at once key = occurrences_at edges key + 1
  ∧ count_at once key (hit_relation_type h) = count_at edges key (hit_relation_type h) + 1
  ∧ (forall rt, rt ≠ hit_relation_type h -> count_at once key rt = count_at edges key rt)
  ∧ (forall key', key' ≠ key -> once !! key' = edges !! key')
  ∧ occurrences_at twice key = occurrences_at once key + 1
  ∧ count_at twice key (hit_relation_type h) = count_at once key (hit_relation_type h) + 1
  ∧ (forall key', key' ≠ key -> twice !! key' = edges !! key').
Proof.
  intros Hne key once twice. subst key once twice.
  repeat split.
  - by apply fold_hit_occurrences.
  - rewrite fold_hit_count, bool_decide_eq_true_2 by done. done.
  - intros rt Hrt. rewrite fold_hit_count, bool_decide_eq_false_2 by done. lia.
  - intros key' Hkey. by apply fold_hit_frame.
  - by apply fold_hit_occurrences.
  - rewrite fold_hit_count, bool_decide_eq_true_2 by done. done.
  - intros key' Hkey. by rewrite !fold_hit_frame.
Qed.

Lemma fold_hit_increments_witness :
  "b" ≠ "a"
  ∧ occurrences_at
      (fold_hit 5 ∅ (MkHit "a" "b" (Some "example-org") "go.mod" 3 "go_module" "require b"))
      ("a", "b") = 0 + 1.
Proof.
  split; [discriminate|].
  exact (proj1 (fold_hit_increments 5 ∅
           (MkHit "a" "b" (Some "example-org") "go.mod" 3 "go_module" "require b")
           ltac:(discriminate))).
Defined.

(** C1 fails for a negative cap: the edge of one hit has an empty evidence
    list, which is longer than a cap of -1. *)
Lemma negative_cap_overflows :
  exists e,
    aggregate (-1) [MkHit "a" "b" None "go.mod" 3 "go_module" "require b"] !! ("a", "b")
      = Some e
    ∧ occurrences e = 1
    ∧ ¬ (Z.of_nat (length (evidence e)) <= -1).
Proof.
  eexists. split; [vm_compute; reflexivity|]. split; [reflexivity|]. simpl. lia.
Qed.

(** C1, amended. For every stream of resolved hits and every cap that is not
    negative, every edge of the aggregate, and of the edge list reported
    from it, keeps at most [cap] evidence records, while its occurrences
    are the number of hits of the stream folded into it. *)
Theorem evidence_cap cap hits :
  0 <= cap ->
  (forall key e,
      aggregate cap hits !! key = Some e ->
      Z.of_nat (length (evidence e)) <= cap
      ∧ occurrences e = Z.of_nat (length (hits_for key.1 key.2 hits))
      ∧ Z.of_nat (length (evidence e)) = Z.min (occurrences e) cap)
  ∧ (forall re,
      re ∈ edge_list (aggregate cap hits) ->
      Z.of_nat (length (r_evidence re)) <= cap
      ∧ r_occurrences re
        = Z.of_nat (length (hits_for (r_source re) (r_target re) hits))).
Proof.
  intros Hcap. split.
  - intros key e H.
    destruct (aggregate_edge_ok cap hits key e H) as (_&_&_&Hocc&_&_&Hle&Hlen).
    repeat split; [lia|done|lia].
  - intros re Hin. apply elem_of_edge_list in Hin as (key & e & H & ->).
    destruct (aggregate_edge_ok cap hits key e H) as (_&Hs&Ht&Hocc&_&_&Hle&_).
    cbn [report_edge r_evidence r_occurrences r_source r_target].
    rewrite Hs, Ht. split; [lia|done].
Qed.

Lemma evidence_cap_witness :
  0 <= 1
  ∧ aggregate 1 [MkHit "a" "b" None "go.mod" 3 "go_module" "require b";
                 MkHit "a" "b" None "go.sum" 7 "reference" "b v1"] !! ("a", "b")
    = Some (MkEdge "a" "b" 2 {["go_module" := 1; "reference" := 1]} ∅
              [MkEvidence "go.mod" 3 "go_module" "require b"])
  ∧ Z.of_nat (length [MkEvidence "go.mod" 3 "go_module" "require b"]) <= 1.
Proof.
  assert (Hlook : aggregate 1 [MkHit "a" "b" None "go.mod" 3 "go_module" "require b";
                 MkHit "a" "b" None "go.sum" 7 "reference" "b v1"] !! ("a", "b")
    = Some (MkEdge "a" "b" 2 {["go_module" := 1; "reference" := 1]} ∅
              [MkEvidence "go.mod" 3 "go_module" "require b"])) by (vm_compute; reflexivity).
  split; [lia|]. split; [exact Hlook|].
  exact (proj1 (proj1 (evidence_cap 1 _ ltac:(lia)) _ _ Hlook)).
Defined.

(** C10. Every edge of a reachable edge map, and of the edge list reported
    from it, has as many occurrences as the counts of its relation types
    add up to, and both are at least 1. *)
Theorem occurrences_sum cap hits :
  (forall key e,
      aggregate cap hits !! key = Some e ->
      occurrences e = count_total (relation_type_counts e)
      ∧ 1 <= occurrences e
      ∧ 1 <= count_total (relation_type_counts e))
  ∧ (forall re,
      re ∈ edge_list (aggregate cap hits) ->
      r_occurrences re = sum_counts (r_relation_type_counts re)
      ∧ 1 <= r_occurrences re).
Proof.
  split.
  - intros key e H.
    destruct (aggregate_edge_ok cap hits key e H) as (_&_&_&_&Hsum&Hpos&_).
    repeat split; [done|done|lia].
  - intros re Hin. apply elem_of_edge_list in Hin as (key & e & H & ->).
    destruct (aggregate_edge_ok cap hits key e H) as (_&_&_&_&Hsum&Hpos&_).
    rewrite report_edge_sum. done.
Qed.

Lemma occurrences_sum_witness :
  aggregate 1 [MkHit "a" "b" None "go.mod" 3 "go_module" "require b";
               MkHit "a" "b" None "go.sum" 7 "reference" "b v1"] !! ("a", "b")
    = Some (MkEdge "a" "b" 2 {["go_module" := 1; "reference" := 1]} ∅
              [MkEvidence "go.mod" 3 "go_module" "require b"])
  ∧ 2 = count_total ({["go_module" := 1; "reference" := 1]} : gmap string Z).
Proof.
  assert (Hlook : aggregate 1 [MkHit "a" "b" None "go.mod" 3 "go_module" "require b";
               MkHit "a" "b" None "go.sum" 7 "reference" "b v1"] !! ("a", "b")
    = Some (MkEdge "a" "b" 2 {["go_module" := 1; "reference" := 1]} ∅
              [MkEvidence "go.mod" 3 "go_module" "require b"])) by (vm_compute; reflexivity).
  split; [exact Hlook|].
  exact (proj1 (proj1 (occurrences_sum 1 _) _ _ Hlook)).
Defined.

(** C8. The classifier is a function of the path alone; it maps the three
    paths of the specification to their tags and every path to one of the
    seven tags, [reference] being the fallback. *)
Theorem classify_relation_type_total :
  classify_relation_type "path/go.mod" = "go_module"
  ∧ classify_relation_type ".github/workflows/ci.yml" = "github_action"
  ∧ classify_relation_type "src/main.py" = "reference"
  ∧ (forall path, exists tag,
       classify_relation_type path = tag
       ∧ tag ∈ ["go_module"; "node_dependency"; "python_dependency"; "git_submodule";
                "github_action"; "container_reference"; "reference"])
  ∧ (forall path,
       let rel := Py.replace "\" "/" path in
       let base := default "" (Py.last_item (Py.split "/" rel)) in
       base ∉ ["go.mod"; "package.json"; "package-lock.json"; "pnpm-lock.yaml";
               "yarn.lock"; "requirements.txt"; "pyproject.toml"; "poetry.lock";
               "Pipfile"; "Pipfile.lock"; ".gitmodules"; "Dockerfile";
               "docker-compose.yaml"; "docker-compose.yml"] ->
       Py.startswith ".github/workflows/" rel = false ->
       classify_relation_type path = "reference").
Proof.
  split; [reflexivity|]. split; [reflexivity|]. split; [reflexivity|]. split.
  - intros path. eexists. split; [reflexivity|].
    unfold classify_relation_type.
    repeat (case_bool_decide || case_match); set_solver.
  - intros path rel base Hbase Hpre. unfold classify_relation_type.
    fold rel. fold base. rewrite Hpre.
    repeat case_bool_decide; try done; exfalso; apply Hbase; set_solver.
Qed.

Lemma classify_relation_type_total_witness :
  classify_relation_type "docs\notes.md" = "reference".
Proof.
  apply (proj2 (proj2 (proj2 (proj2 classify_relation_type_total)))).
  - vm_compute. intros H. 
    repeat (apply elem_of_cons in H as [H|H]; [discriminate H|]).
    by apply elem_of_nil in H.
  - reflexivity.
Defined.

(** * Properties of the match resolver *)

Section Resolver.
Context (known : gset string).
Implicit Types (owners : gmap string (option string)) (repo : string)
  (ms : list (option string * option string)).


Lemma nonempty_true s : nonempty s = true <-> s ≠ EmptyString.
Proof.
  unfold nonempty. rewrite negb_true_iff. apply String.eqb_neq.
Qed.

Lemma record_owner_other owners r repo :
  r.1 ≠ Some repo ->
  record_owner known owners r !! repo = owners !! repo.
Proof.
  intros Hne. unfold record_owner. destruct r as [[r0|] o]; simpl in *; [|done].
  assert (r0 ≠ repo) by congruence.
  destruct (nonempty r0); [|done]. case_bool_decide; [|done].
  destruct (owners !! r0) as [[o0|]|] eqn:Hr0; simpl; destruct o; simpl;
    rewrite ?lookup_insert_ne by done; done.
Qed.

Lemma record_owner_invalid owners r repo :
  ¬ valid_repo known repo ->
  record_owner known owners r !! repo = owners !! repo.
Proof.
  intros Hinv. destruct (decide (r.1 = Some repo)) as [Heq|Hne];
    [|by apply record_owner_other].
  unfold record_owner. rewrite Heq.
  destruct (nonempty repo) eqn:Hn; [|done].
  apply nonempty_true in Hn. case_bool_decide; [|done].
  exfalso. by apply Hinv.
Qed.

(** The three cases of the merge: first sight, a stored null owner, a stored
    owner. *)
Lemma record_owner_first owners repo o :
  valid_repo known repo -> owners !! repo = None ->
  record_owner known owners (Some repo, o) !! repo = Some o.
Proof.
  intros [Hn Hk] Hnone. unfold record_owner; simpl.
  apply nonempty_true in Hn. rewrite Hn, bool_decide_eq_true_2, Hnone by done.
  simpl. destruct o; by rewrite lookup_insert_eq.
Qed.

Lemma record_owner_null owners repo o :
  valid_repo known repo -> owners !! repo = Some None ->
  record_owner known owners (Some repo, o) !! repo = Some o.
Proof.
  intros [Hn Hk] Hnull. unfold record_owner; simpl.
  apply nonempty_true in Hn. rewrite Hn, bool_decide_eq_true_2, Hnull by done.
  simpl. destruct o; [by rewrite lookup_insert_eq|done].
Qed.

Lemma record_owner_kept owners repo o0 o :
  owners !! repo = Some (Some o0) ->
  record_owner known owners (Some repo, o) = owners.
Proof.
  intros Hsome. unfold record_owner; simpl.
  destruct (nonempty repo); [|done]. case_bool_decide; [|done].
  rewrite Hsome. simpl. by destruct o.
Qed.


Lemma owners_supplied_cons repo r ms :
  owners_supplied repo (r :: ms) =
    (if bool_decide (r.1 = Some repo) then [r.2] else []) ++ owners_supplied repo ms.
Proof. unfold owners_supplied. simpl. by case_bool_decide. Qed.

Lemma foldl_record_owner_valid ms owners repo :
  valid_repo known repo ->
  foldl (record_owner known) owners ms !! repo = merged owners repo ms.
Proof.
  intros Hv. revert owners. induction ms as [|r ms IH]; intros owners; simpl.
  { unfold merged. simpl. by destruct (owners !! repo) as [[?|]|]. }
  rewrite IH. unfold merged at 1 2. rewrite owners_supplied_cons.
  case_bool_decide as Hr.
  - destruct r as [r1 o]. simpl in Hr. subst r1. simpl.
    destruct (owners !! repo) as [[o0|]|] eqn:Ho.
    + erewrite record_owner_kept by done. by rewrite Ho.
    + rewrite record_owner_null by done.
      destruct o; simpl; [done|]. done.
    + rewrite record_owner_first by done.
      destruct o; simpl; [done|].
      by destruct (owners_supplied repo ms).
  - rewrite record_owner_other by done. simpl. done.
Qed.

Lemma foldl_record_owner_invalid ms owners repo :
  ¬ valid_repo known repo ->
  foldl (record_owner known) owners ms !! repo = owners !! repo.
Proof.
  intros Hinv. revert owners. induction ms as [|r ms IH]; intros owners; simpl; [done|].
  by rewrite IH, record_owner_invalid.
Qed.

Lemma owners_of_line_resolved line extractors :
  owners_of_line line extractors known =
    foldl (record_owner known) ∅ (resolved_matches line extractors).
Proof.
  unfold owners_of_line, resolved_matches. rewrite foldl_flat_map.
  apply foldl_pointwise. intros owners e. by rewrite foldl_fmap.
Qed.

Lemma owners_of_line_lookup line extractors repo :
  owners_of_line line extractors known !! repo =
    if bool_decide (valid_repo known repo)
    then match owners_supplied repo (resolved_matches line extractors) with
         | [] => None
         | os => Some (first_non_null os)
         end
    else None.
Proof.
  rewrite owners_of_line_resolved. case_bool_decide as Hv.
  - rewrite foldl_record_owner_valid by done. unfold merged.
    by rewrite lookup_empty.
  - by rewrite foldl_record_owner_invalid, lookup_empty.
Qed.

Lemma elem_of_extract_targets line extractors repo owner :
  (repo, owner) ∈ extract_targets line extractors known <->
  owners_of_line line extractors known !! repo = Some owner.
Proof.
  unfold extract_targets. rewrite sorted_perm. apply elem_of_map_to_list.
Qed.

Lemma owners_supplied_nonempty repo ms :
  owners_supplied repo ms ≠ [] <-> exists o, (Some repo, o) ∈ ms.
Proof.
  unfold owners_supplied. induction ms as [|[r o] ms IH]; simpl.
  - split; [done|]. intros [o Ho]. by apply elem_of_nil in Ho.
  - case_bool_decide as Hr; simpl in *.
    + subst r. split; [|done]. intros _. exists o. by left.
    + rewrite IH. split; intros [o' Ho']; exists o'.
      * by right.
      * apply elem_of_cons in Ho' as [Heq|?]; [congruence|done].
Qed.

Lemma extract_targets_sorted line extractors :
  StronglySorted (fun a b => String.leb a b = true)
    (extract_targets line extractors known).*1.
Proof.
  unfold extract_targets.
  pose proof (sorted_sorted item_le
    (fun x y => str_le_total x.1 y.1)
    (fun x y z => str_le_trans x.1 y.1 z.1)
    (map_to_list (owners_of_line line extractors known))) as Hs.
  induction Hs as [|x l Hl IH Hx]; simpl; constructor; [done|].
  apply Forall_fmap. eapply Forall_impl; [exact Hx|]. done.
Qed.

Lemma extract_targets_nodup line extractors :
  NoDup (extract_targets line extractors known).*1.
Proof.
  unfold extract_targets. rewrite sorted_perm. apply NoDup_fst_map_to_list.
Qed.

Lemma resolved_in_targets line extractors repo o :
  (Some repo, o) ∈ resolved_matches line extractors ->
  repo ≠ "" -> repo ∈ known ->
  exists owner, (repo, owner) ∈ extract_targets line extractors known.
Proof.
  intros Hin Hne Hk.
  assert (Hsup : owners_supplied repo (resolved_matches line extractors) ≠ [])
    by (apply owners_supplied_nonempty; eauto).
  exists (first_non_null (owners_supplied repo (resolved_matches line extractors))).
  apply elem_of_extract_targets. rewrite owners_of_line_lookup.
  rewrite bool_decide_eq_true_2 by done.
  by destruct (owners_supplied repo (resolved_matches line extractors)).
Qed.

End Resolver.

(** * Claims about the match resolver *)

Lemma leb_ne_ltb a b : String.leb a b = true -> a ≠ b -> String.ltb a b = true.
Proof.
  unfold String.leb, String.ltb. intros Hle Hne.
  destruct (String.compare a b) eqn:Hc; try done.
  by apply String.compare_eq_iff in Hc.
Qed.

Lemma strictly_sorted (l : list string) :
  StronglySorted (fun a b => String.leb a b = true) l -> NoDup l ->
  StronglySorted (fun a b => String.ltb a b = true) l.
Proof.
  induction 1 as [|x l Hl IH Hx]; intros Hnd; constructor.
  - apply IH. by apply NoDup_cons in Hnd as [_ ?].
  - apply NoDup_cons in Hnd as [Hx' _].
    apply Forall_forall. intros y Hy. apply leb_ne_ltb.
    + rewrite Forall_forall in Hx. by apply Hx.
    + intros ->. done.
Qed.

(** C5. Every pair returned by [extract_targets] names a known repository
    that some match of the line resolved to; a match whose alias is not in
    the lookup table resolves to nothing and changes nothing; every match
    that resolves to a known name is represented; the names returned are
    pairwise distinct and in strictly ascending order. *)
Theorem extract_targets_known_distinct_sorted line extractors known :
  let result := extract_targets line extractors known in
  (forall repo owner,
      (repo, owner) ∈ result ->
      repo ∈ known ∧ repo ≠ ""
      ∧ exists o, (Some repo, o) ∈ resolved_matches line extractors)
  ∧ (forall repo o,
      (Some repo, o) ∈ resolved_matches line extractors ->
      repo ≠ "" -> repo ∈ known ->
      exists owner, (repo, owner) ∈ result)
  ∧ (forall table m alias owners,
      Re.group "alias" m = Some alias -> table !! Py.lower alias = None ->
      resolve_match (Some table) m = (None, None)
      ∧ record_owner known owners (resolve_match (Some table) m) = owners)
  ∧ NoDup result.*1
  ∧ StronglySorted (fun a b => String.leb a b = true) result.*1
  ∧ StronglySorted (fun a b => String.ltb a b = true) result.*1.
Proof.
  intros result. subst result.
  split; [|split; [|split; [|split; [|split]]]].
  - intros repo owner Hin. apply elem_of_extract_targets in Hin.
    rewrite owners_of_line_lookup in Hin.
    case_bool_decide as Hv; [|done]. destruct Hv as [Hne Hk].
    split; [done|]. split; [done|].
    apply owners_supplied_nonempty. intros Hnil. by rewrite Hnil in Hin.
  - intros repo o Hin Hne Hk. by eapply resolved_in_targets.
  - intros table m alias owners Hg Hnone. unfold resolve_match.
    rewrite Hg, Hnone. by destruct (nonempty alias).
  - apply extract_targets_nodup.
  - apply extract_targets_sorted.
  - apply strictly_sorted; [apply extract_targets_sorted|apply extract_targets_nodup].
Qed.

Lemma extract_targets_known_distinct_sorted_witness :
  ("widgets", Some "example-org")
    ∈ extract_targets "uses: github.com/example-org/widgets@v2"
        (build_extractors ["gadgets"; "widgets"] (Some "example-org") None)
        {["gadgets"; "widgets"]}
  ∧ "widgets" ∈ ({["gadgets"; "widgets"]} : gset string).
Proof.
  assert (Hin : ("widgets", Some "example-org")
    ∈ extract_targets "uses: github.com/example-org/widgets@v2"
        (build_extractors ["gadgets"; "widgets"] (Some "example-org") None)
        {["gadgets"; "widgets"]}) by (vm_compute; left).
  split; [exact Hin|].
  exact (proj1 (proj1 (extract_targets_known_distinct_sorted _ _ _) _ _ Hin)).
Defined.

(** C3. The owner returned for a target is the first owner that is not null
    among the owners supplied for it by the matches of the line, in
    processing order: an owner, null or not, is written on first sight, a
    stored null owner gives way to a later owner that is not null, and a
    stored owner that is not null is never replaced.  Matches yielding
    [("widgets", None)] and [("widgets", "example-org")], in either order,
    resolve to the owner ["example-org"]. *)
Theorem owner_preference :
  (forall line extractors known repo,
      valid_repo known repo ->
      owners_supplied repo (resolved_matches line extractors) ≠ [] ->
      (repo, first_non_null (owners_supplied repo (resolved_matches line extractors)))
        ∈ extract_targets line extractors known)
  ∧ (forall known owners repo o,
      valid_repo known repo -> owners !! repo = None ->
      record_owner known owners (Some repo, o) !! repo = Some o)
  ∧ (forall known owners repo o,
      valid_repo known repo -> owners !! repo = Some None ->
      record_owner known owners (Some repo, Some o) !! repo = Some (Some o))
  ∧ (forall known owners repo o0 o,
      owners !! repo = Some (Some o0) ->
      record_owner known owners (Some repo, o) = owners)
  ∧ extract_targets "line"
      [(fixed_pattern [Re.MkMatch "widgets" [("repo", "widgets")]], None);
       (fixed_pattern [Re.MkMatch "example-org/widgets"
                         [("repo", "widgets"); ("owner", "example-org")]], None)]
      {["widgets"]}
    = [("widgets", Some "example-org")]
  ∧ extract_targets "line"
      [(fixed_pattern [Re.MkMatch "example-org/widgets"
                         [("repo", "widgets"); ("owner", "example-org")]], None);
       (fixed_pattern [Re.MkMatch "widgets" [("repo", "widgets")]], None)]
      {["widgets"]}
    = [("widgets", Some "example-org")]
  ∧ extract_targets "see example-org/widgets and github.com/example-org/widgets.git"
      (build_extractors ["widgets"] (Some "example-org") None) {["widgets"]}
    = [("widgets", Some "example-org")].
Proof.
  split; [|split; [|split; [|split; [|split; [|split]]]]].
  - intros line extractors known repo Hv Hsup.
    apply elem_of_extract_targets. rewrite owners_of_line_lookup.
    rewrite bool_decide_eq_true_2 by done.
    by destruct (owners_supplied repo (resolved_matches line extractors)).
  - intros. by apply record_owner_first.
  - intros. by apply record_owner_null.
  - intros. by eapply record_owner_kept.
  - vm_compute. reflexivity.
  - vm_compute. reflexivity.
  - vm_compute. reflexivity.
Qed.

Lemma owner_preference_witness :
  valid_repo {["widgets"]} "widgets"
  ∧ owners_supplied "widgets"
      (resolved_matches "uses example-org/widgets, github.com/example-org/widgets"
         (build_extractors ["widgets"] (Some "example-org") None)) ≠ []
  ∧ ("widgets", Some "example-org")
      ∈ extract_targets "uses example-org/widgets, github.com/example-org/widgets"
          (build_extractors ["widgets"] (Some "example-org") None) {["widgets"]}.
Proof.
  assert (Hv : valid_repo {["widgets"]} "widgets") by (split; [done|set_solver]).
  assert (Hs : owners_supplied "widgets"
      (resolved_matches "uses example-org/widgets, github.com/example-org/widgets"
         (build_extractors ["widgets"] (Some "example-org") None)) ≠ [])
    by (vm_compute; discriminate).
  split; [exact Hv|]. split; [exact Hs|].
  exact (proj1 owner_preference _ _ _ _ Hv Hs).
Defined.

(** * Strings *)

Lemma app_cons c a b : String c a +:+ b = String c (a +:+ b).
Proof. reflexivity. Qed.

Lemma app_empty_l a : "" +:+ a = a.
Proof. reflexivity. Qed.

Lemma app_empty_r a : a +:+ "" = a.
Proof. induction a as [|c a IH]; [done|]. by rewrite app_cons, IH. Qed.

Lemma app_assoc_s a b c : (a +:+ b) +:+ c = a +:+ (b +:+ c).
Proof. induction a as [|x a IH]; [done|]. by rewrite !app_cons, IH. Qed.

Lemma length_app_s a b :
  String.length (a +:+ b) = (String.length a + String.length b)%nat.
Proof. induction a as [|x a IH]; [done|]. rewrite app_cons. simpl. by rewrite IH. Qed.

Lemma app_eq_empty a b : a +:+ b = "" -> a = "" ∧ b = "".
Proof. destruct a; [done|]. rewrite app_cons. discriminate. Qed.

Lemma substring_0_app a b : String.substring 0 (String.length a) (a +:+ b) = a.
Proof.
  induction a as [|x a IH].
  - rewrite app_empty_l. by destruct b.
  - rewrite app_cons. simpl. by rewrite IH.
Qed.

Lemma consumed_app a b : Re.consumed (a +:+ b) b = a.
Proof.
  unfold Re.consumed, Re.consumed_len. rewrite length_app_s.
  replace (String.length a + String.length b - String.length b)%nat
    with (String.length a) by lia.
  apply substring_0_app.
Qed.

Lemma consumed_len_app a b : Re.consumed_len (a +:+ b) b = String.length a.
Proof. unfold Re.consumed_len. rewrite length_app_s. lia. Qed.

Lemma last_char_app pv a b : last_char pv (a +:+ b) = last_char (last_char pv a) b.
Proof. revert pv. induction a as [|x a IH]; intros pv; [done|]. rewrite app_cons. simpl. apply IH. Qed.

Lemma all_chars_app p a b : all_chars p (a +:+ b) = all_chars p a && all_chars p b.
Proof.
  induction a as [|x a IH]; [done|]. rewrite app_cons. simpl.
  by rewrite IH, andb_assoc.
Qed.

(** A text splits in one way only at the first character outside a class. *)
Lemma split_unique p a b a' b' :
  all_chars p a = true -> all_chars p a' = true ->
  stops p b = true -> stops p b' = true ->
  a +:+ b = a' +:+ b' -> a = a' ∧ b = b'.
Proof.
  revert a'. induction a as [|x a IH]; intros [|x' a'] Ha Ha' Hb Hb' Heq.
  - done.
  - rewrite app_empty_l, app_cons in Heq. subst b. simpl in *.
    apply andb_true_iff in Ha' as [Hx _]. by rewrite Hx in Hb.
  - rewrite app_empty_l, app_cons in Heq. subst b'. simpl in *.
    apply andb_true_iff in Ha as [Hx _]. by rewrite Hx in Hb'.
  - rewrite !app_cons in Heq. injection Heq as -> Heq. simpl in *.
    apply andb_true_iff in Ha as [_ Ha]. apply andb_true_iff in Ha' as [_ Ha'].
    destruct (IH a' Ha Ha' Hb Hb' Heq) as [-> ->]. done.
Qed.

(** * The matcher *)

Section MatcherFacts.
Context (ic : bool).
Implicit Types (cs : Re.charset) (k : Re.mstate -> option Re.mstate)
  (cp : list (string * string)) (pv : option ascii).

Lemma lit_inv l pv s pv' t :
  Re.lit ic l pv s = Some (pv', t) ->
  exists a, s = a +:+ t ∧ lit_eq ic l a = true ∧ pv' = last_char pv a.
Proof.
  revert pv s. induction l as [|x l IH]; intros pv s; simpl.
  - intros [= <- <-]. by exists "".
  - destruct s as [|c s]; [done|]. destruct (Re.char_eq ic x c) eqn:Hxc; [|done].
    intros H. destruct (IH _ _ H) as (a & -> & Ha & ->).
    exists (String c a). rewrite app_cons. simpl. by rewrite Hxc, Ha.
Qed.

Lemma lit_app l a pv t :
  lit_eq ic l a = true -> Re.lit ic l pv (a +:+ t) = Some (last_char pv a, t).
Proof.
  revert a pv. induction l as [|x l IH]; intros [|c a] pv; simpl; try done.
  rewrite ?app_cons. intros [Hxc Ha]%andb_true_iff. rewrite Hxc. by apply IH.
Qed.

Lemma star_greedy_inv cs s pv cp k x :
  Re.star_greedy ic cs s pv cp k = Some x ->
  exists a b, s = a +:+ b ∧ all_chars (Re.in_set ic cs) a = true
              ∧ k (Re.MState (last_char pv a) b cp) = Some x.
Proof.
  revert pv. induction s as [|c s IH]; intros pv; simpl.
  - intros H. by exists "", "".
  - destruct (Re.in_set ic cs c) eqn:Hc.
    + destruct (Re.star_greedy ic cs s (Some c) cp k) as [y|] eqn:Hrec.
      * intros [= ->]. destruct (IH _ Hrec) as (a & b & -> & Ha & Hk).
        exists (String c a), b. rewrite app_cons. simpl. by rewrite Hc, Ha.
      * intros H. by exists "", (String c s).
    + intros H. by exists "", (String c s).
Qed.

Lemma star_greedy_longest cs a b pv cp k x :
  all_chars (Re.in_set ic cs) a = true -> stops (Re.in_set ic cs) b = true ->
  k (Re.MState (last_char pv a) b cp) = Some x ->
  Re.star_greedy ic cs (a +:+ b) pv cp k = Some x.
Proof.
  revert pv. induction a as [|c a IH]; intros pv Ha Hb Hk.
  - rewrite app_empty_l. destruct b as [|c b]; simpl in *; [done|].
    apply negb_true_iff in Hb. by rewrite Hb.
  - rewrite app_cons. simpl in *. apply andb_true_iff in Ha as [Hc Ha].
    rewrite Hc. by rewrite (IH (Some c)).
Qed.

Lemma star_lazy_inv cs s pv cp k x :
  Re.star_lazy ic cs s pv cp k = Some x ->
  exists a b, s = a +:+ b ∧ all_chars (Re.in_set ic cs) a = true
              ∧ k (Re.MState (last_char pv a) b cp) = Some x.
Proof.
  revert pv. induction s as [|c s IH]; intros pv; simpl.
  - destruct (k _) eqn:Hk; [|done]. intros [= ->]. by exists "", "".
  - destruct (k _) eqn:Hk.
    + intros [= ->]. by exists "", (String c s).
    + destruct (Re.in_set ic cs c) eqn:Hc; [|done].
      intros H. destruct (IH _ H) as (a & b & -> & Ha & Hk').
      exists (String c a), b. rewrite app_cons. simpl. by rewrite Hc, Ha.
Qed.

(** A lazy repetition stops at the first length at which the continuation
    succeeds. *)
Lemma star_lazy_first cs a b pv cp k x :
  all_chars (Re.in_set ic cs) a = true ->
  (forall a1 a2, a = a1 +:+ a2 -> a2 ≠ "" ->
     k (Re.MState (last_char pv a1) (a2 +:+ b) cp) = None) ->
  k (Re.MState (last_char pv a) b cp) = Some x ->
  Re.star_lazy ic cs (a +:+ b) pv cp k = Some x.
Proof.
  revert pv. induction a as [|c a IH]; intros pv Ha Hnone Hk.
  - rewrite app_empty_l. destruct b; simpl in *; by rewrite Hk.
  - apply andb_true_iff in Ha as [Hc Ha].
    pose proof (Hnone "" (String c a) eq_refl ltac:(done)) as Hn0.
    rewrite app_cons in *. simpl in *. rewrite Hn0, Hc.
    apply IH; [done| |done].
    intros a1 a2 -> Ha2. apply (Hnone (String c a1) a2); [|done].
    by rewrite app_cons.
Qed.

End MatcherFacts.

(** * The alias collector *)

Lemma ascii_eqb_eq a b : Ascii.eqb a b = true <-> a = b.
Proof. apply Ascii.eqb_eq. Qed.

Lemma lit_eq_false l a : lit_eq false l a = true <-> a = l.
Proof.
  revert a. induction l as [|x l IH]; intros [|y a]; simpl; try done.
  rewrite andb_true_iff, IH. unfold Re.char_eq. rewrite ascii_eqb_eq.
  split; [intros [-> ->]|intros [= -> ->]]; done.
Qed.

Lemma in_set_false cs : Re.in_set false cs = cs.
Proof. reflexivity. Qed.

Lemma semver_fullmatch s :
  is_Some (Re.fullmatch false semver_suffix_re s) <-> is_semver_suffix s.
Proof.
  unfold Re.fullmatch, semver_suffix_re. cbn [Re.cat Re.run Re.prev Re.rest Re.caps].
  split.
  - destruct (Re.lit false "v" None s) as [[pv s']|] eqn:Hlit; [|by intros [? [=]]].
    apply lit_inv in Hlit as (a & -> & Ha & ->). apply lit_eq_false in Ha as ->.
    destruct s' as [|c t]; [by intros [? [=]]|].
    destruct (Re.in_set false Py.isdigit c) eqn:Hc; [|by intros [? [=]]].
    destruct (Re.star_greedy _ _ _ _ _ _) as [x|] eqn:Hstar; [|by intros [? [=]]].
    intros _. apply star_greedy_inv in Hstar as (a & b & -> & Ha & Hk).
    rewrite in_set_false in Ha, Hc.
    cbn [Re.rest] in Hk. destruct (Re.at_end b); [|done].
    destruct b; [|done].
    exists (String c a). rewrite app_empty_r. repeat split; [done|].
    simpl. by rewrite Hc, Ha.
  - intros (ds & -> & Hne & Hds). destruct ds as [|c t]; [done|].
    simpl in Hds. apply andb_true_iff in Hds as [Hc Ht].
    change (String "v" (String c t)) with ("v" +:+ String c t).
    rewrite lit_app by done. unfold Re.in_set at 1. rewrite Hc.
    rewrite <- (app_empty_r t) at 1.
    erewrite star_greedy_longest; [eauto|done|done|done].
Qed.

Lemma last_snoc2 {A} (l : list A) x y :
  last l = Some y -> l !! (length l - 2)%nat = Some x -> (2 <= length l)%nat ->
  exists front, l = front ++ [x; y].
Proof.
  intros Hlast Hx Hlen.
  destruct l as [|z l] using rev_ind; [done|]. clear IHl.
  rewrite last_snoc in Hlast. injection Hlast as ->.
  destruct l as [|w l] using rev_ind; [simpl in Hlen; lia|]. clear IHl.
  rewrite !length_app in Hx. simpl in Hx.
  rewrite <- app_assoc in Hx. rewrite lookup_app_r in Hx by lia.
  replace (length l + 1 + 1 - 2 - length l)%nat with 0%nat in Hx by lia.
  injection Hx as ->. exists l. by rewrite <- app_assoc.
Qed.

Lemma module_repo_name_condition known p r :
  module_repo_name known p = Some r -> alias_condition known r p.
Proof.
  unfold module_repo_name, alias_condition.
  destruct (last (path_parts p)) as [lp|] eqn:Hlast; [|done].
  case_bool_decide as Hk.
  - intros [= <-]. auto.
  - destruct (path_parts p !! _) as [bl|] eqn:Hbl; [|done].
    destruct (2 <=? length (path_parts p))%nat eqn:Hlen; [|done].
    case_bool_decide as Hsv; [|done]. case_bool_decide as Hk2; [|done].
    intros [= <-]. split; [done|]. right.
    apply Nat.leb_le in Hlen.
    destruct (last_snoc2 _ _ _ Hlast Hbl Hlen) as [front Hfront].
    exists front, lp. split; [done|]. by apply semver_fullmatch.
Qed.

(** Every [go.mod] either leaves the aliases as they are or adds its module
    path to one repository, under the alias condition. *)
Lemma collect_go_mod_step known aliases content :
  collect_go_mod known aliases content = aliases
  ∨ exists r p, alias_condition known r p
                ∧ collect_go_mod known aliases content = add_alias aliases r p.
Proof.
  unfold collect_go_mod. destruct content as [text|]; [|by left].
  destruct (first_module_path _) as [p|]; [|by left].
  destruct (nonempty p); [|by left].
  destruct (module_repo_name known p) as [r|] eqn:Hr; [|by left].
  destruct (nonempty r); [|by left].
  right. exists r, p. split; [by apply module_repo_name_condition|done].
Qed.


Lemma add_alias_ok known aliases r p :
  aliases_ok known aliases -> alias_condition known r p ->
  aliases_ok known (add_alias aliases r p).
Proof.
  intros Hok Hc r' S p' Hlook Hin. unfold add_alias in Hlook.
  destruct (decide (r = r')) as [<-|Hne].
  - rewrite lookup_insert_eq in Hlook. injection Hlook as <-.
    apply elem_of_union in Hin as [Hin|Hin].
    + destruct (aliases !! r) as [S0|] eqn:HS0; simpl in Hin; [by eapply Hok|].
      by apply not_elem_of_empty in Hin.
    + apply elem_of_singleton in Hin as ->. done.
  - rewrite lookup_insert_ne in Hlook by done. by eapply Hok.
Qed.

Lemma collect_go_module_aliases_ok repo_dirs known :
  aliases_ok known (collect_go_module_aliases repo_dirs known).
Proof.
  unfold collect_go_module_aliases.
  assert (Hinner : forall files aliases, aliases_ok known aliases ->
            aliases_ok known (foldl (collect_go_mod known) aliases files)).
  { induction files as [|f files IH]; intros aliases Hok; simpl; [done|].
    apply IH. destruct (collect_go_mod_step known aliases f) as [->|(r & p & Hc & ->)];
      [done|by apply add_alias_ok]. }
  assert (Hempty : aliases_ok known ∅).
  { intros r S p Hl. by rewrite lookup_empty in Hl. }
  revert Hempty. generalize (∅ : gmap string (gset string)).
  induction repo_dirs as [|d ds IH]; intros aliases Hok; simpl; [done|].
  apply IH. by apply Hinner.
Qed.

(** C6. A module path is recorded as an alias of [r] only if [r] is a known
    repository name and is either the last segment of the path that is not
    empty, or the segment before a last segment that is a [v] followed by
    digits; a [go.mod] whose module path meets neither condition leaves
    the aliases of every repository as they were. *)
Theorem alias_only_if_segment_known :
  (forall repo_dirs known r S p,
      collect_go_module_aliases repo_dirs known !! r = Some S -> p ∈ S ->
      r ∈ known
      ∧ (last (path_parts p) = Some r
         ∨ exists front v, path_parts p = front ++ [r; v] ∧ is_semver_suffix v))
  ∧ (forall known p,
      (forall r, ¬ alias_condition known r p) -> module_repo_name known p = None)
  ∧ (forall known aliases text,
      (forall p r, first_module_path (Py.splitlines text) = Some p ->
                   ¬ alias_condition known r p) ->
      collect_go_mod known aliases (Some text) = aliases).
Proof.
  split; [|split].
  - intros repo_dirs known r S p Hl Hin.
    exact (collect_go_module_aliases_ok repo_dirs known r S p Hl Hin).
  - intros known p Hnone.
    destruct (module_repo_name known p) as [r|] eqn:Hr; [|done].
    exfalso. apply (Hnone r). by apply module_repo_name_condition.
  - intros known aliases text Hnone. unfold collect_go_mod.
    destruct (first_module_path _) as [p|]; [|done].
    destruct (nonempty p); [|done].
    destruct (module_repo_name known p) as [r|] eqn:Hr; [|done].
    exfalso. apply (Hnone p r eq_refl). by apply module_repo_name_condition.
Qed.

Lemma alias_only_if_segment_known_witness :
  collect_go_module_aliases
    [MkRepoDir "transform" [Some "module internal.example.net/pkg/transform/v2"];
     MkRepoDir "second" [None]]
    {["transform"; "second"]} !! "transform"
  = Some {["internal.example.net/pkg/transform/v2"]}
  ∧ "transform" ∈ ({["transform"; "second"]} : gset string).
Proof.
  assert (Hl : collect_go_module_aliases
    [MkRepoDir "transform" [Some "module internal.example.net/pkg/transform/v2"];
     MkRepoDir "second" [None]]
    {["transform"; "second"]} !! "transform"
  = Some {["internal.example.net/pkg/transform/v2"]}) by (vm_compute; reflexivity).
  split; [exact Hl|].
  exact (proj1 (proj1 alias_only_if_segment_known _ _ _ _
                  "internal.example.net/pkg/transform/v2" Hl
                  ltac:(by apply elem_of_singleton))).
Defined.

(** * The reference parser *)

Lemma app_splits a b w : a +:+ b = w -> (a, b) ∈ splits w.
Proof.
  revert a. induction w as [|c w IH]; intros a Heq.
  - apply app_eq_empty in Heq as [-> ->]. by left.
  - destruct a as [|x a].
    + rewrite app_empty_l in Heq. subst b. by left.
    + rewrite app_cons in Heq. injection Heq as -> Heq.
      simpl. right. apply (list_elem_of_fmap_2 (fun ab : string * string => (String c ab.1, ab.2)) _ (a, b)).
      by apply IH.
Qed.

(** Appends of known texts are carried out. *)
Ltac norm_app_in H :=
  repeat (rewrite app_empty_l in H || rewrite app_empty_r in H || rewrite app_cons in H).

(** Cases of an equation [a +:+ b = w] with a known right-hand side. *)
Ltac split_cases H :=
  norm_app_in H;
  first
    [ apply app_splits in H; cbn [splits fmap list_fmap fst snd] in H;
      repeat (apply elem_of_cons in H as [H|H]; [simplify_eq|]);
      try (by apply elem_of_nil in H)
    | simplify_eq ].

Lemma last_char_cons pv c a : last_char pv (String c a) = last_char None (String c a).
Proof. reflexivity. Qed.

Lemma last_char_nonempty pv a : a ≠ "" -> last_char pv a = last_char None a.
Proof. destruct a; [done|]. intros _. apply last_char_cons. Qed.

Lemma rstrip_no_trailing_space s : no_trailing_space (Py.rstrip s).
Proof.
  unfold no_trailing_space. induction s as [|c s IH]; simpl; [done|].
  destruct (Py.rstrip s) as [|d r] eqn:Hr.
  - destruct (Py.isspace c) eqn:Hc; simpl; done.
  - exact IH.
Qed.

Lemma strip_no_trailing_space s : no_trailing_space (Py.strip s).
Proof. apply rstrip_no_trailing_space. Qed.

Lemma no_trailing_newline a :
  no_trailing_space (a +:+ String "010" "") -> False.
Proof.
  unfold no_trailing_space. rewrite last_char_app. simpl. done.
Qed.

Section TailFacts.
Context (ic : bool).

Lemma run_opt_lit_inv l st k x :
  Re.run ic (Re.Opt (Re.Lit l)) st k = Some x ->
  (exists a t, Re.rest st = a +:+ t ∧ lit_eq ic l a = true
               ∧ k (Re.MState (last_char (Re.prev st) a) t (Re.caps st)) = Some x)
  ∨ k st = Some x.
Proof.
  cbn [Re.run]. destruct (Re.lit ic l _ _) as [[pv t]|] eqn:Hlit.
  - destruct (k (Re.MState pv t _)) as [y|] eqn:Hk.
    + intros [= ->]. left. apply lit_inv in Hlit as (a & Ha & Heq & ->). eauto.
    + auto.
  - auto.
Qed.

Lemma at_end_inv s : Re.at_end s = true -> s = "" ∨ s = String "010" "".
Proof.
  destruct s as [|c [|d s]]; simpl; auto; [|by destruct c as [[] [] [] [] [] [] [] []]].
  destruct c as [[] [] [] [] [] [] [] []]; try done. auto.
Qed.
End TailFacts.

Lemma run_seq ic r1 r2 st k :
  Re.run ic (Re.Seq r1 r2) st k = Re.run ic r1 st (fun st' => Re.run ic r2 st' k).
Proof. reflexivity. Qed.

Lemma http_tail_inv st x :
  Re.run false http_tail_re st Some = Some x ->
  Re.caps x = Re.caps st
  ∧ Re.rest st ∈ [""; String "010" ""; "/"; "/" +:+ String "010" "";
                  ".git"; ".git" +:+ String "010" ""; ".git/";
                  ".git/" +:+ String "010" ""].
Proof.
  unfold http_tail_re. rewrite run_seq. intros H.
  apply run_opt_lit_inv in H as [(a & t & Hst & Ha & H)|H];
    rewrite run_seq in H;
    apply run_opt_lit_inv in H as [(a' & t' & Hst' & Ha' & H)|H];
    cbn [Re.run Re.rest Re.caps Re.prev] in *;
    repeat match goal with
    | H : lit_eq false _ _ = true |- _ => apply lit_eq_false in H; subst
    end;
    match type of H with
    | (if Re.at_end ?s then _ else _) = _ =>
        destruct (Re.at_end s) eqn:He; [|done];
        apply at_end_inv in He as [He|He]; injection H as <-
    end; subst; cbn [Re.caps]; (split; [done|]);
    rewrite ?Hst; cbn [String.append]; set_solver.
Qed.

Lemma ssh_tail_inv st x :
  Re.run false ssh_tail_re st Some = Some x ->
  Re.caps x = Re.caps st
  ∧ Re.rest st ∈ [""; String "010" ""; ".git"; ".git" +:+ String "010" ""].
Proof.
  unfold ssh_tail_re. rewrite run_seq. intros H.
  apply run_opt_lit_inv in H as [(a & t & Hst & Ha & H)|H];
    cbn [Re.run Re.rest Re.caps Re.prev] in *;
    repeat match goal with
    | H : lit_eq false _ _ = true |- _ => apply lit_eq_false in H; subst
    end;
    match type of H with
    | (if Re.at_end ?s then _ else _) = _ =>
        destruct (Re.at_end s) eqn:He; [|done];
        apply at_end_inv in He as [He|He]; injection H as <-
    end; subst; cbn [Re.caps]; (split; [done|]);
    rewrite ?Hst; cbn [String.append]; set_solver.
Qed.

Lemma no_trailing_suffix a b :
  no_trailing_space (a +:+ b) -> b ≠ "" -> no_trailing_space b.
Proof.
  unfold no_trailing_space. rewrite last_char_app. intros H Hb.
  by rewrite last_char_nonempty in H.
Qed.

Lemma consumed_cons_app c a b : Re.consumed (String c (a +:+ b)) b = String c a.
Proof. rewrite <- app_cons. apply consumed_app. Qed.

Lemma segment_cons s : segment s -> exists c t, s = String c t ∧ not_slash c = true
  ∧ all_chars not_slash t = true.
Proof.
  intros [Hne Hall]. destruct s as [|c t]; [done|]. simpl in Hall.
  apply andb_true_iff in Hall as [? ?]. eauto.
Qed.

Section OwnerRepo.
Context (T : Re.regex) (sl : string).

(** What the proofs need to know about the tail of the pattern: it accepts
    the end of the reference with or without [.git], and it accepts no
    earlier place of the repository segment, but for a [.git] that was not
    yet read. *)
Hypothesis T_ok : forall pv cp g, g ∈ [""; ".git"] ->
  exists pe, Re.run false T (Re.MState pv (g +:+ sl) cp) Some = Some (Re.MState pe "" cp).
Hypothesis T_no : forall pv cp a2 g x,
  a2 ≠ "" -> all_chars not_slash a2 = true -> g ∈ [""; ".git"] ->
  no_trailing_space (a2 +:+ g +:+ sl) ->
  Re.run false T (Re.MState pv (a2 +:+ g +:+ sl) cp) Some = Some x ->
  a2 = ".git" ∧ g = "".

Lemma owner_repo_fwd o body r pv cp :
  segment o -> segment body -> without_git body r ->
  no_trailing_space (body +:+ sl) ->
  exists pe,
    Re.run false (owner_repo_re T)
      (Re.MState pv (o +:+ "/" +:+ body +:+ sl) cp) Some
    = Some (Re.MState pe "" (("2", r) :: ("1", o) :: cp)).
Proof.
  intros Ho Hbody Hgit Hnts.
  assert (exists g, g ∈ [""; ".git"] ∧ body = r +:+ g ∧ r ≠ ""
            ∧ (g = "" -> ¬ exists x, x ≠ "" ∧ body = x +:+ ".git"))
    as (g & Hg & -> & Hr & Hmin).
  { destruct Hgit as [[-> Hr]|[<- Hno]].
    - exists ".git". repeat split; [set_solver|done|done].
    - exists "". rewrite app_empty_r. repeat split; [set_solver|by destruct Hbody|done]. }
  destruct (segment_cons o Ho) as (c & o' & -> & Hc & Ho').
  assert (Hrseg : segment r).
  { split; [done|]. destruct Hbody as [_ Hb]. rewrite all_chars_app in Hb.
    by apply andb_true_iff in Hb as [? _]. }
  destruct (segment_cons r Hrseg) as (c2 & r' & -> & Hc2 & Hr').
  destruct (T_ok (last_char (Some c2) r')
              (("2", String c2 r') :: ("1", String c o') :: cp) g Hg) as [pe Hpe].
  exists pe. unfold owner_repo_re.
  rewrite (app_cons c o'). cbn [Re.run Re.rest Re.caps Re.prev].
  rewrite in_set_false, Hc.
  apply star_greedy_longest; [by rewrite in_set_false|done|].
  cbn [Re.rest Re.caps Re.prev].
  rewrite (lit_app false "/" "/") by done.
  rewrite app_assoc_s, (app_cons c2 r'). cbn [Re.rest Re.caps Re.prev].
  rewrite Hc2.
  apply star_lazy_first; [by rewrite in_set_false| |].
  - intros a1 a2 -> Ha2.
    cbn [Re.rest Re.caps Re.prev].
    match goal with |- ?lhs = None => destruct lhs as [x|] eqn:Hx; [|done] end.
    exfalso.
    rewrite all_chars_app in Hr'. apply andb_true_iff in Hr' as [_ Ha2s].
    apply T_no in Hx as [-> ->]; [|done|done|done|].
    + apply Hmin; [done|]. exists (String c2 a1). split; [done|].
      by rewrite app_empty_r, app_cons.
    + rewrite <- app_cons, !app_assoc_s in Hnts.
      eapply no_trailing_suffix; [exact Hnts|].
      intros Hem. by apply app_eq_empty in Hem as [-> _].
  - cbn [Re.rest Re.caps Re.prev].
    rewrite !consumed_cons_app. exact Hpe.
Qed.

Lemma owner_repo_inv st x :
  Re.run false (owner_repo_re T) st Some = Some x ->
  exists o r w pv cp,
    Re.rest st = o +:+ "/" +:+ r +:+ w ∧ segment o ∧ segment r
    ∧ Re.run false T (Re.MState pv w cp) Some = Some x.
Proof.
  unfold owner_repo_re. cbn [Re.run Re.rest Re.caps Re.prev].
  destruct (Re.rest st) as [|c t]; [done|].
  rewrite in_set_false. destruct (not_slash c) eqn:Hc; [|done].
  intros H. apply star_greedy_inv in H as (a & b & -> & Ha & H).
  rewrite in_set_false in Ha. cbn [Re.rest Re.caps Re.prev] in H.
  destruct (Re.lit false "/" _ b) as [[pv1 t1]|] eqn:Hlit; [|done].
  apply lit_inv in Hlit as (s & -> & Hs & ->). apply lit_eq_false in Hs as ->.
  cbn [Re.rest Re.caps Re.prev] in H.
  destruct t1 as [|c2 t2]; [done|].
  destruct (not_slash c2) eqn:Hc2; [|done].
  apply star_lazy_inv in H as (a2 & b2 & -> & Ha2 & H).
  rewrite in_set_false in Ha2. cbn [Re.rest Re.caps Re.prev] in H.
  eexists (String c a), (String c2 a2), b2, _, _.
  split; [by rewrite !app_cons|]. split; [|split; [|exact H]].
  - split; [done|]. simpl. by rewrite Hc, Ha.
  - split; [done|]. simpl. by rewrite Hc2, Ha2.
Qed.

End OwnerRepo.

Lemma http_tail_ok sl : sl ∈ [""; "/"] ->
  forall pv cp g, g ∈ [""; ".git"] ->
  exists pe, Re.run false http_tail_re (Re.MState pv (g +:+ sl) cp) Some
             = Some (Re.MState pe "" cp).
Proof.
  intros Hsl pv cp g Hg.
  apply elem_of_cons in Hsl as [->|Hsl]; [|apply list_elem_of_singleton in Hsl as ->];
    (apply elem_of_cons in Hg as [->|Hg]; [|apply list_elem_of_singleton in Hg as ->]);
    eexists; reflexivity.
Qed.

Lemma ssh_tail_ok :
  forall pv cp g, g ∈ [""; ".git"] ->
  exists pe, Re.run false ssh_tail_re (Re.MState pv (g +:+ "") cp) Some
             = Some (Re.MState pe "" cp).
Proof.
  intros pv cp g Hg.
  apply elem_of_cons in Hg as [->|Hg]; [|apply list_elem_of_singleton in Hg as ->];
    eexists; reflexivity.
Qed.

(** Closes a case in which a text that is known is said to be free of
    slashes, or not to end with whitespace, against the evidence. *)
Ltac known_text :=
  match goal with
  | H : all_chars _ _ = true |- _ => by (vm_compute in H)
  | H : no_trailing_space _ |- _ => by (vm_compute in H)
  | H : _ ≠ _ |- _ => by (exfalso; apply H)
  end.

Lemma http_tail_no sl : sl ∈ [""; "/"] ->
  forall pv cp a2 g x,
  a2 ≠ "" -> all_chars not_slash a2 = true -> g ∈ [""; ".git"] ->
  no_trailing_space (a2 +:+ g +:+ sl) ->
  Re.run false http_tail_re (Re.MState pv (a2 +:+ g +:+ sl) cp) Some = Some x ->
  a2 = ".git" ∧ g = "".
Proof.
  intros Hsl pv cp a2 g x Hne Hall Hg Hnts H.
  apply http_tail_inv in H as [_ Hin]. cbn [Re.rest] in Hin.
  apply elem_of_cons in Hsl as [->|Hsl]; [|apply list_elem_of_singleton in Hsl as ->];
    (apply elem_of_cons in Hg as [->|Hg]; [|apply list_elem_of_singleton in Hg as ->]);
    repeat (apply elem_of_cons in Hin as [Hin|Hin];
            [split_cases Hin; try known_text; try done|]);
    by apply elem_of_nil in Hin.
Qed.

Lemma ssh_tail_no :
  forall pv cp a2 g x,
  a2 ≠ "" -> all_chars not_slash a2 = true -> g ∈ [""; ".git"] ->
  no_trailing_space (a2 +:+ g +:+ "") ->
  Re.run false ssh_tail_re (Re.MState pv (a2 +:+ g +:+ "") cp) Some = Some x ->
  a2 = ".git" ∧ g = "".
Proof.
  intros pv cp a2 g x Hne Hall Hg Hnts H.
  apply ssh_tail_inv in H as [_ Hin]. cbn [Re.rest] in Hin.
  apply elem_of_cons in Hg as [->|Hg]; [|apply list_elem_of_singleton in Hg as ->];
    repeat (apply elem_of_cons in Hin as [Hin|Hin];
            [split_cases Hin; try known_text; try done|]);
    by apply elem_of_nil in Hin.
Qed.

Lemma segment_app_ne a b : segment a -> a +:+ b ≠ "".
Proof. intros [Hne _] H. by apply app_eq_empty in H as [? _]. Qed.

Lemma http_re_unfold :
  http_re = Re.Seq Re.Bol (Re.Seq (Re.Lit "http") (Re.Seq (Re.Opt (Re.Lit "s"))
              (Re.Seq (Re.Lit "://github.com/") (owner_repo_re http_tail_re)))).
Proof. reflexivity. Qed.

Lemma ssh_re_unfold :
  ssh_re = Re.Seq Re.Bol (Re.Seq (Re.Lit "git@github.com:") (owner_repo_re ssh_tail_re)).
Proof. reflexivity. Qed.

Lemma http_match_fwd raw o r :
  no_trailing_space raw -> url_form ["http"; "https"] raw o r ->
  exists m, Re.match_ false http_re raw = Some m
            ∧ group_text "1" m = o ∧ group_text "2" m = r.
Proof.
  intros Hnts (scheme & body & sl & Hsch & Hsl & -> & Ho & Hb & Hg).
  assert (Hnts' : no_trailing_space (body +:+ sl)).
  { do 3 rewrite <- app_assoc_s in Hnts.
    eapply no_trailing_suffix; [exact Hnts|]. by apply segment_app_ne. }
  rewrite http_re_unfold. unfold Re.match_. cbn [Re.run Re.prev Re.rest Re.caps].
  apply elem_of_cons in Hsch as [->|Hsch]; [|apply list_elem_of_singleton in Hsch as ->].
  - rewrite (lit_app false "http" "http") by done.
    replace (Re.lit false "s" _ _) with (@None (option ascii * string)) by done.
    rewrite (lit_app false "://github.com/" "://github.com/") by done.
    match goal with
    | |- context [Re.run false (owner_repo_re _) (Re.MState ?pv _ ?cp) Some] =>
        destruct (owner_repo_fwd http_tail_re sl (http_tail_ok sl Hsl)
                    (http_tail_no sl Hsl) o body r pv cp Ho Hb Hg Hnts') as [pe Hpe]
    end.
    rewrite Hpe. eexists. split; [reflexivity|]. done.
  - change ("https" +:+ ?x) with ("http" +:+ "s" +:+ x).
    rewrite (lit_app false "http" "http") by done.
    rewrite (lit_app false "s" "s") by done.
    rewrite (lit_app false "://github.com/" "://github.com/") by done.
    match goal with
    | |- context [Re.run false (owner_repo_re _) (Re.MState ?pv _ ?cp) Some] =>
        destruct (owner_repo_fwd http_tail_re sl (http_tail_ok sl Hsl)
                    (http_tail_no sl Hsl) o body r pv cp Ho Hb Hg Hnts') as [pe Hpe]
    end.
    rewrite Hpe. eexists. split; [reflexivity|]. done.
Qed.

Lemma endswith_unfold suf s :
  Py.endswith suf s =
    (String.eqb s suf
     || match s with EmptyString => false | String _ s' => Py.endswith suf s' end).
Proof. by destruct s. Qed.

Lemma endswith_spec suf s :
  Py.endswith suf s = true <-> exists x, s = x +:+ suf.
Proof.
  induction s as [|c s IH]; rewrite endswith_unfold.
  - rewrite orb_false_r, String.eqb_eq. split.
    + intros <-. by exists "".
    + intros [x Hx]. symmetry in Hx. by apply app_eq_empty in Hx as [_ ->].
  - rewrite orb_true_iff, String.eqb_eq, IH. split.
    + intros [<-|[x ->]]; [by exists ""|]. exists (String c x). by rewrite app_cons.
    + intros [[|c' x] Hx].
      * left. by rewrite app_empty_l in Hx.
      * right. rewrite app_cons in Hx. injection Hx as -> ->. by exists x.
Qed.

Lemma without_git_total body : body ≠ "" -> exists r, without_git body r.
Proof.
  intros Hne. unfold without_git.
  destruct (Py.endswith ".git" body) eqn:He.
  - apply endswith_spec in He as [[|c x] ->].
    + exists ".git". right. split; [done|]. intros (x & Hx & Heq).
      destruct x as [|c x]; [done|]. rewrite app_empty_l in Heq.
      apply (f_equal String.length) in Heq. rewrite length_app_s in Heq.
      simpl in Heq. lia.
    + exists (String c x). left. done.
  - exists body. right. split; [done|]. intros (x & _ & Hx).
    assert (Py.endswith ".git" body = true) by (apply endswith_spec; eauto).
    congruence.
Qed.

Lemma segment_app a b :
  segment a -> all_chars not_slash b = true -> segment (a +:+ b).
Proof.
  intros [Hne Ha] Hb. split; [by apply segment_app_ne|].
  by rewrite all_chars_app, Ha, Hb.
Qed.

(** A text known to end with a line feed cannot be free of trailing
    whitespace. *)
Ltac trailing_newline H :=
  exfalso; unfold no_trailing_space in H; rewrite ?last_char_app in H;
  by (vm_compute in H).

Lemma url_form_intro schemes scheme o body sl r raw :
  scheme ∈ schemes -> sl ∈ [""; "/"] ->
  raw = scheme +:+ "://github.com/" +:+ o +:+ "/" +:+ body +:+ sl ->
  segment o -> segment body -> without_git body r ->
  url_form schemes raw o r.
Proof. intros. exists scheme, body, sl. done. Qed.

Lemma http_match_inv raw m :
  no_trailing_space raw -> Re.match_ false http_re raw = Some m ->
  exists o r, url_form ["http"; "https"] raw o r.
Proof.
  intros Hnts. rewrite http_re_unfold. unfold Re.match_.
  destruct (Re.run _ _ _ _) as [x|] eqn:Hrun; [|done]. intros _.
  cbn [Re.run Re.prev Re.rest Re.caps] in Hrun.
  destruct (Re.lit false "http" None raw) as [[pv t]|] eqn:Hlit; [|done].
  apply lit_inv in Hlit as (a & -> & Ha & ->). apply lit_eq_false in Ha as ->.
  assert (exists scheme pv' t', scheme ∈ ["http"; "https"]
            ∧ "http" +:+ t = scheme +:+ t'
            ∧ Re.run false (Re.Seq (Re.Lit "://github.com/") (owner_repo_re http_tail_re))
                (Re.MState pv' t' []) Some = Some x)
    as (scheme & pv' & t' & Hsch & Heq & Hrest).
  { destruct (Re.lit false "s" _ t) as [[pv1 t1]|] eqn:Hs.
    - apply lit_inv in Hs as (a & -> & Ha & ->). apply lit_eq_false in Ha as ->.
      match type of Hrun with
      | match ?e with _ => _ end = _ => destruct e as [y|] eqn:Hy
      end.
      + injection Hrun as ->.
        exists "https", (last_char (last_char None "http") "s"), t1.
        split; [set_solver|]. split; [done|]. exact Hy.
      + exists "http", (last_char None "http"), ("s" +:+ t1). split; [set_solver|].
        split; [done|]. exact Hrun.
    - exists "http", (last_char None "http"), t. split; [set_solver|]. split; [done|].
      exact Hrun. }
  rewrite Heq in *. clear Heq Hrun t.
  cbn [Re.run Re.prev Re.rest Re.caps] in Hrest.
  destruct (Re.lit false "://github.com/" pv' t') as [[pv2 t2]|] eqn:Hlit; [|done].
  apply lit_inv in Hlit as (a & -> & Ha & ->). apply lit_eq_false in Ha as ->.
  apply owner_repo_inv in Hrest as (o & r0 & w & pv3 & cp3 & Hst & Ho & Hr0 & HT).
  cbn [Re.rest] in Hst. subst t2.
  apply http_tail_inv in HT as [_ Hw]. cbn [Re.rest] in Hw.
  exists o.
  repeat (apply elem_of_cons in Hw as [->|Hw]);
    [ | | | | | | | | by apply elem_of_nil in Hw];
    try (by trailing_newline Hnts).
  - destruct (without_git_total r0 (proj1 Hr0)) as [r Hr]. exists r.
    apply (url_form_intro _ scheme o r0 "" r); done || set_solver.
  - destruct (without_git_total r0 (proj1 Hr0)) as [r Hr]. exists r.
    apply (url_form_intro _ scheme o r0 "/" r); done || set_solver.
  - assert (Hseg : segment (r0 +:+ ".git")) by (by apply segment_app).
    destruct (without_git_total _ (proj1 Hseg)) as [r Hr]. exists r.
    apply (url_form_intro _ scheme o (r0 +:+ ".git") "" r);
      try done; [set_solver|by rewrite app_empty_r].
  - assert (Hseg : segment (r0 +:+ ".git")) by (by apply segment_app).
    destruct (without_git_total _ (proj1 Hseg)) as [r Hr]. exists r.
    apply (url_form_intro _ scheme o (r0 +:+ ".git") "/" r);
      try done; [set_solver|by rewrite !app_assoc_s].
Qed.

Lemma ssh_match_fwd raw o r :
  no_trailing_space raw -> ssh_form raw o r ->
  exists m, Re.match_ false ssh_re raw = Some m
            ∧ group_text "1" m = o ∧ group_text "2" m = r.
Proof.
  intros Hnts (body & -> & Ho & Hb & Hg).
  assert (Hnts' : no_trailing_space (body +:+ "")).
  { rewrite app_empty_r. do 2 rewrite <- app_assoc_s in Hnts.
    eapply no_trailing_suffix; [exact Hnts|]. apply Hb. }
  rewrite ssh_re_unfold. unfold Re.match_. cbn [Re.run Re.prev Re.rest Re.caps].
  rewrite (lit_app false "git@github.com:" "git@github.com:") by done.
  replace (o +:+ "/" +:+ body) with (o +:+ "/" +:+ body +:+ "")
    by (by rewrite app_empty_r).
  match goal with
  | |- context [Re.run false (owner_repo_re _) (Re.MState ?pv _ ?cp) Some] =>
      destruct (owner_repo_fwd ssh_tail_re "" ssh_tail_ok ssh_tail_no
                  o body r pv cp Ho Hb Hg Hnts') as [pe Hpe]
  end.
  rewrite Hpe. eexists. split; [reflexivity|]. done.
Qed.

Lemma ssh_match_inv raw m :
  no_trailing_space raw -> Re.match_ false ssh_re raw = Some m ->
  exists o r, ssh_form raw o r.
Proof.
  intros Hnts. rewrite ssh_re_unfold. unfold Re.match_.
  destruct (Re.run _ _ _ _) as [x|] eqn:Hrun; [|done]. intros _.
  cbn [Re.run Re.prev Re.rest Re.caps] in Hrun.
  destruct (Re.lit false "git@github.com:" None raw) as [[pv t]|] eqn:Hlit; [|done].
  apply lit_inv in Hlit as (a & -> & Ha & ->). apply lit_eq_false in Ha as ->.
  apply owner_repo_inv in Hrun as (o & r0 & w & pv3 & cp3 & Hst & Ho & Hr0 & HT).
  cbn [Re.rest] in Hst. subst t.
  apply ssh_tail_inv in HT as [_ Hw]. cbn [Re.rest] in Hw.
  exists o.
  repeat (apply elem_of_cons in Hw as [->|Hw]);
    [ | | | | by apply elem_of_nil in Hw];
    try (by trailing_newline Hnts).
  - destruct (without_git_total r0 (proj1 Hr0)) as [r Hr]. exists r, r0.
    by rewrite app_empty_r.
  - assert (Hseg : segment (r0 +:+ ".git")) by (by apply segment_app).
    destruct (without_git_total _ (proj1 Hseg)) as [r Hr].
    by exists r, (r0 +:+ ".git").
Qed.

Lemma bare_re_unfold :
  bare_re = Re.Seq Re.Bol (Re.Seq (Re.Group "1" (Re.Plus not_slash_space))
              (Re.Seq (Re.Lit "/")
                 (Re.Seq (Re.Group "2" (Re.Plus not_slash_space)) Re.Eol))).
Proof. reflexivity. Qed.

Lemma word_segment_cons s : word_segment s ->
  exists c t, s = String c t ∧ not_slash_space c = true
              ∧ all_chars not_slash_space t = true.
Proof.
  intros [Hne Hall]. destruct s as [|c t]; [done|]. simpl in Hall.
  apply andb_true_iff in Hall as [? ?]. eauto.
Qed.

Lemma bare_match_fwd raw o body :
  raw = o +:+ "/" +:+ body -> word_segment o -> word_segment body ->
  exists m, Re.match_ false bare_re raw = Some m
            ∧ group_text "1" m = o ∧ group_text "2" m = body.
Proof.
  intros -> Ho Hb.
  destruct (word_segment_cons o Ho) as (c & o' & -> & Hc & Ho').
  destruct (word_segment_cons body Hb) as (c2 & b' & -> & Hc2 & Hb').
  rewrite bare_re_unfold. unfold Re.match_.
  rewrite (app_cons c o'). cbn [Re.run Re.prev Re.rest Re.caps].
  rewrite in_set_false, Hc.
  erewrite star_greedy_longest; [|by rewrite in_set_false|done|].
  2:{ cbn [Re.run Re.prev Re.rest Re.caps].
      rewrite (lit_app false "/" "/") by done.
      cbn [Re.run Re.prev Re.rest Re.caps]. rewrite Hc2.
      rewrite <- (app_empty_r b') at 1.
      apply star_greedy_longest; [by rewrite in_set_false|done|].
      cbn [Re.run Re.prev Re.rest Re.caps Re.at_end]. reflexivity. }
  eexists. split; [reflexivity|].
  unfold group_text, Re.group, Re.mk_match. cbn [Re.groups Re.caps Re.assoc Re.rest].
  simpl String.eqb. cbn [default from_option id].
  rewrite consumed_cons_app. split; [done|].
  pose proof (consumed_app (String c2 b') "") as Hcons.
  by rewrite app_empty_r in Hcons.
Qed.

Lemma bare_match_inv raw m :
  no_trailing_space raw -> Re.match_ false bare_re raw = Some m ->
  exists o body, raw = o +:+ "/" +:+ body ∧ word_segment o ∧ word_segment body.
Proof.
  intros Hnts. rewrite bare_re_unfold. unfold Re.match_.
  destruct (Re.run _ _ _ _) as [x|] eqn:Hrun; [|done]. intros _.
  cbn [Re.run Re.prev Re.rest Re.caps] in Hrun.
  destruct raw as [|c t]; [done|]. rewrite in_set_false in Hrun.
  destruct (not_slash_space c) eqn:Hc; [|done].
  apply star_greedy_inv in Hrun as (a & b & -> & Ha & H).
  rewrite in_set_false in Ha. cbn [Re.rest Re.caps Re.prev] in H.
  destruct (Re.lit false "/" _ b) as [[pv1 t1]|] eqn:Hlit; [|done].
  apply lit_inv in Hlit as (s & -> & Hs & ->). apply lit_eq_false in Hs as ->.
  cbn [Re.rest Re.caps Re.prev] in H.
  destruct t1 as [|c2 t2]; [done|].
  destruct (not_slash_space c2) eqn:Hc2; [|done].
  apply star_greedy_inv in H as (a2 & b2 & -> & Ha2 & H).
  rewrite in_set_false in Ha2. cbn [Re.rest Re.caps Re.prev] in H.
  destruct (Re.at_end b2) eqn:He; [|done].
  apply at_end_inv in He as [->| ->].
  - exists (String c a), (String c2 a2). rewrite app_empty_r.
    split; [by rewrite !app_cons|]. split; (split; [done|]); simpl.
    + by rewrite Hc, Ha.
    + by rewrite Hc2, Ha2.
  - exfalso. rewrite <- !app_cons in Hnts. trailing_newline Hnts.
Qed.

Lemma all_chars_impl (p q : ascii -> bool) s :
  (forall c, p c = true -> q c = true) -> all_chars p s = true -> all_chars q s = true.
Proof.
  intros Hpq. induction s as [|c s IH]; simpl; [done|].
  intros [Hc Hs]%andb_true_iff. by rewrite (Hpq c Hc), IH.
Qed.

Lemma word_segment_no_slash s : word_segment s -> all_chars not_slash s = true.
Proof.
  intros [_ H]. eapply all_chars_impl; [|exact H].
  intros c. unfold not_slash_space, not_slash. by destruct (Ascii.eqb c "/").
Qed.

Lemma url_form_not_ssh raw o r o' r' :
  url_form ["http"; "https"] raw o r -> ssh_form raw o' r' -> False.
Proof.
  intros (scheme & body & sl & Hsch & _ & -> & _) (body' & Heq & _).
  apply elem_of_cons in Hsch as [->|Hsch]; [|apply list_elem_of_singleton in Hsch as ->];
    norm_app_in Heq; discriminate.
Qed.

Lemma url_form_not_bare raw o r o' r' :
  url_form ["http"; "https"] raw o r -> bare_form raw o' r' -> False.
Proof.
  intros (scheme & body & sl & Hsch & _ & -> & _) (body' & Heq & Ho' & Hb' & _).
  apply word_segment_no_slash in Ho', Hb'.
  assert (exists pre t, all_chars not_slash pre = true
            ∧ scheme +:+ "://github.com/" +:+ o +:+ "/" +:+ body +:+ sl
              = pre +:+ "/" +:+ "/" +:+ t) as (pre & t & Hpre & Heq').
  { apply elem_of_cons in Hsch as [->|Hsch]; [|apply list_elem_of_singleton in Hsch as ->].
    - by exists "http:", ("github.com/" +:+ o +:+ "/" +:+ body +:+ sl).
    - by exists "https:", ("github.com/" +:+ o +:+ "/" +:+ body +:+ sl). }
  rewrite Heq' in Heq.
  apply (split_unique not_slash) in Heq as [_ Heq]; try done.
  rewrite !app_cons, !app_empty_l in Heq. injection Heq as <-.
  by simpl in Hb'.
Qed.

(** C9 fails as stated: the URL form is also recognized with the scheme
    [http]; the line has none of the three forms of the claim, for any
    owner and repository, and yet a pair is returned. *)
Lemma http_scheme_is_recognized :
  parse_repo_ref "http://github.com/o/r" = Some ("o", "r")
  ∧ forall o r,
      ¬ (url_form ["https"] (Py.strip "http://github.com/o/r") o r
         ∨ ssh_form (Py.strip "http://github.com/o/r") o r
         ∨ bare_form (Py.strip "http://github.com/o/r") o r).
Proof.
  split; [reflexivity|].
  change (Py.strip "http://github.com/o/r") with "http://github.com/o/r".
  intros o r [Hu|[Hs|Hb]].
  - destruct Hu as (scheme & body & sl & Hsch & _ & Heq & _).
    apply list_elem_of_singleton in Hsch as ->. norm_app_in Heq. discriminate.
  - destruct Hs as (body & Heq & _). norm_app_in Heq. discriminate.
  - eapply (url_form_not_bare "http://github.com/o/r" "o" "r"); [|exact Hb].
    apply (url_form_intro _ "http" "o" "r" ""); try done; try set_solver.
    right. split; [done|]. intros (x & Hx & Heq).
    apply (f_equal String.length) in Heq. rewrite length_app_s in Heq.
    destruct x; [done|]. simpl in Heq. lia.
Qed.

(** C9, amended. The parser strips the line and yields nothing when the
    stripped line is empty or begins with [#]. Otherwise it recognizes
    exactly three forms, in this order of priority: the URL form with the
    scheme [http] or [https], the SSH form, and the bare shorthand; the
    owner and the repository name of the first form that the line has are
    returned (without the [.git] suffix, which the URL and SSH forms take
    off whenever a name is left), and a line with none of the forms yields
    nothing. *)
Theorem parse_repo_ref_forms value o r :
  parse_repo_ref value = Some (o, r) <->
  Py.strip value ≠ "" ∧ Py.startswith "#" (Py.strip value) = false
  ∧ (url_form ["http"; "https"] (Py.strip value) o r
     ∨ ssh_form (Py.strip value) o r
     ∨ (bare_form (Py.strip value) o r
        ∧ ¬ exists o' r', ssh_form (Py.strip value) o' r')).
Proof.
  unfold parse_repo_ref.
  pose proof (strip_no_trailing_space value) as Hnts.
  set (raw := Py.strip value) in *. clearbody raw.
  destruct (String.eqb raw "") eqn:Hempty.
  { apply String.eqb_eq in Hempty. simpl. split; [done|]. by intros [? _]. }
  apply String.eqb_neq in Hempty.
  destruct (Py.startswith "#" raw) eqn:Hhash.
  { simpl. split; [done|]. by intros (_ & ? & _). }
  simpl.
  destruct (Re.match_ false http_re raw) as [mh|] eqn:Hh.
  { destruct (http_match_inv raw mh Hnts Hh) as (o1 & r1 & Hform).
    destruct (http_match_fwd raw o1 r1 Hnts Hform) as (m & Hm & <- & <-).
    rewrite Hh in Hm. injection Hm as <-. split.
    - intros [= <- <-]. auto.
    - intros (_ & _ & [Hu|[Hs|[Hb _]]]).
      + destruct (http_match_fwd raw o r Hnts Hu) as (m & Hm & <- & <-).
        rewrite Hh in Hm. by injection Hm as <-.
      + destruct (url_form_not_ssh _ _ _ _ _ Hform Hs).
      + destruct (url_form_not_bare _ _ _ _ _ Hform Hb). }
  destruct (Re.match_ false ssh_re raw) as [ms|] eqn:Hs.
  { destruct (ssh_match_inv raw ms Hnts Hs) as (o1 & r1 & Hform).
    destruct (ssh_match_fwd raw o1 r1 Hnts Hform) as (m & Hm & <- & <-).
    rewrite Hs in Hm. injection Hm as <-. split.
    - intros [= <- <-]. auto.
    - intros (_ & _ & [Hu|[Hs'|[_ Hno]]]).
      + destruct (http_match_fwd raw o r Hnts Hu) as (m & Hm & _). congruence.
      + destruct (ssh_match_fwd raw o r Hnts Hs') as (m & Hm & <- & <-).
        rewrite Hs in Hm. by injection Hm as <-.
      + exfalso. apply Hno. eauto. }
  assert (Hnossh : ¬ exists o' r', ssh_form raw o' r').
  { intros (o' & r' & Hf). destruct (ssh_match_fwd raw o' r' Hnts Hf) as (m & Hm & _).
    congruence. }
  destruct (Re.match_ false bare_re raw) as [mb|] eqn:Hb.
  { destruct (bare_match_inv raw mb Hnts Hb) as (o1 & b1 & Hraw & Ho1 & Hb1).
    destruct (bare_match_fwd raw o1 b1 Hraw Ho1 Hb1) as (m & Hm & <- & <-).
    rewrite Hb in Hm. injection Hm as <-. split.
    - intros [= <- <-]. repeat split; try done. right. right. split; [|done].
      by exists (group_text "2" mb).
    - intros (_ & _ & [Hu|[Hs'|[(body & Hraw' & Ho & Hbody & ->) _]]]).
      + destruct (http_match_fwd raw o r Hnts Hu) as (m & Hm & _). congruence.
      + exfalso. apply Hnossh. eauto.
      + destruct (bare_match_fwd raw o body Hraw' Ho Hbody) as (m & Hm & <- & <-).
        rewrite Hb in Hm. by injection Hm as <-. }
  split; [done|].
  intros (_ & _ & [Hu|[Hs'|[(body & Hraw' & Ho & Hbody & ->) _]]]).
  - destruct (http_match_fwd raw o r Hnts Hu) as (m & Hm & _). congruence.
  - exfalso. apply Hnossh. eauto.
  - destruct (bare_match_fwd raw o body Hraw' Ho Hbody) as (m & Hm & _). congruence.
Qed.

Lemma parse_repo_ref_forms_witness :
  (Py.strip " git@github.com:example-org/widgets.git" ≠ ""
   ∧ Py.startswith "#" (Py.strip " git@github.com:example-org/widgets.git") = false
   ∧ ssh_form (Py.strip " git@github.com:example-org/widgets.git")
       "example-org" "widgets")
  ∧ parse_repo_ref " git@github.com:example-org/widgets.git"
    = Some ("example-org", "widgets").
Proof.
  assert (Hform : ssh_form (Py.strip " git@github.com:example-org/widgets.git")
                    "example-org" "widgets").
  { exists "widgets.git". split; [reflexivity|].
    split; [split; [discriminate|reflexivity]|].
    split; [split; [discriminate|reflexivity]|].
    left. split; [reflexivity|discriminate]. }
  assert (Hne : Py.strip " git@github.com:example-org/widgets.git" ≠ "")
    by (vm_compute; discriminate).
  assert (Hhash : Py.startswith "#" (Py.strip " git@github.com:example-org/widgets.git")
                  = false) by reflexivity.
  split; [by repeat split|].
  exact (proj2 (parse_repo_ref_forms _ _ _)
           (conj Hne (conj Hhash (or_intror (or_introl Hform))))).
Defined.

(** * The scan of [finditer] *)

Section ScanFacts.
Context (ic : bool) (r : Re.regex).

Lemma scan_unfold pv s skip :
  Re.scan ic r pv s skip =
    let next (n : nat) :=
      match s with
      | String c t => Re.scan ic r (Some c) t n
      | EmptyString => []
      end in
    match skip with
    | S n => next n
    | O =>
        match Re.run ic r (Re.MState pv s []) Some with
        | None => next O
        | Some st' =>
            match Re.consumed_len s (Re.rest st') with
            | S n => Re.mk_match s st' :: next n
            | O =>
                Re.mk_match s st' ::
                match Re.run ic r (Re.MState pv s []) (Re.nonempty_end s) with
                | Some st'' =>
                    Re.mk_match s st'' :: next (pred (Re.consumed_len s (Re.rest st'')))
                | None => next O
                end
            end
        end
    end.
Proof. by destruct s. Qed.



End ScanFacts.

(** * The alias pattern *)

Lemma lit_eq_refl ic l : lit_eq ic l l = true.
Proof.
  induction l as [|c l IH]; simpl; [done|]. rewrite IH, andb_true_r.
  unfold Re.char_eq. destruct ic; apply Ascii.eqb_refl.
Qed.




Section AliasFacts.
Context (path : string).



Hypothesis path_starts : Re.word_opt (Re.next_char path) = true.
Hypothesis path_ends : Re.word_opt (last_char None path) = true.





End AliasFacts.

(** * The alias round trip *)

Section RoundTrip.
Context (path : string).
Let aliases : gmap string (gset string) := {["transform" := {[path]}]}.








Hypothesis path_starts : Re.word_opt (Re.next_char path) = true.
Hypothesis path_ends : Re.word_opt (last_char None path) = true.


End RoundTrip.




Lemma elem_of_flat_map {A B} (f : A -> list B) (l : list A) (y : B) :
  y ∈ flat_map f l <-> exists x, x ∈ l ∧ y ∈ f x.
Proof.
  rewrite list_elem_of_In, in_flat_map. split; intros (x & Hx & Hy); exists x;
    by rewrite ?list_elem_of_In in *.
Qed.


Section RoundTripScan.
Context (path second : string).
Hypothesis Hpath :
  path = "internal.example.net/transform"
  ∨ (path = "internal.example.net/pkg/transform/v2" ∧ second ≠ "v2").
Hypothesis Hsecond : second ≠ "transform".




End RoundTripScan.




(** * The aggregate as a function of the hits *)

Lemma count_type_snoc rt hits h :
  count_type rt (hits ++ [h]) =
    count_type rt hits + (if bool_decide (hit_relation_type h = rt) then 1 else 0).
Proof.
  unfold count_type. rewrite List.filter_app, length_app. simpl.
  case_bool_decide; simpl; lia.
Qed.

Lemma count_type_nonneg rt hits : 0 <= count_type rt hits.
Proof. unfold count_type. lia. Qed.

Lemma owners_of_hits_snoc hits h :
  owners_of_hits (hits ++ [h]) = observe_owner (hit_owner h) (owners_of_hits hits).
Proof. unfold owners_of_hits. by rewrite foldl_app. Qed.

Lemma elem_of_owners_of_hits o hits :
  o ∈ owners_of_hits hits <-> o ≠ "" ∧ exists h, h ∈ hits ∧ hit_owner h = Some o.
Proof.
  induction hits as [|h hits IH] using rev_ind.
  - unfold owners_of_hits. simpl. split; [set_solver|].
    intros (_ & h & Hh & _). by apply elem_of_nil in Hh.
  - rewrite owners_of_hits_snoc. unfold observe_owner.
    destruct (hit_owner h) as [o'|] eqn:Ho.
    + destruct (nonempty o') eqn:Hne.
      * rewrite elem_of_union, IH, elem_of_singleton. split.
        -- intros [(Hn & h' & Hh' & Ho')| ->].
           ++ split; [done|]. exists h'. split; [|done]. apply elem_of_app. by left.
           ++ split; [intros ->; done|]. exists h. split; [|done].
              apply elem_of_app. right. by apply list_elem_of_singleton.
        -- intros (Hn & h' & Hh' & Ho'). apply elem_of_app in Hh' as [Hh'|Hh'].
           ++ left. split; [done|]. by exists h'.
           ++ apply list_elem_of_singleton in Hh' as ->. right. congruence.
      * rewrite IH. split.
        -- intros (Hn & h' & Hh' & Ho'). split; [done|]. exists h'.
           split; [|done]. apply elem_of_app. by left.
        -- intros (Hn & h' & Hh' & Ho'). split; [done|].
           apply elem_of_app in Hh' as [Hh'|Hh']; [by exists h'|].
           apply list_elem_of_singleton in Hh' as ->.
           assert (o' = o) as -> by congruence.
           unfold nonempty in Hne. apply negb_false_iff, String.eqb_eq in Hne. done.
    + rewrite IH. split.
      * intros (Hn & h' & Hh' & Ho'). split; [done|]. exists h'.
        split; [|done]. apply elem_of_app. by left.
      * intros (Hn & h' & Hh' & Ho'). split; [done|].
        apply elem_of_app in Hh' as [Hh'|Hh']; [by exists h'|].
        apply list_elem_of_singleton in Hh' as ->. congruence.
Qed.

Lemma bump_counts (m : gmap string Z) own h :
  (forall rt, m !! rt = if bool_decide (count_type rt own = 0) then None
                        else Some (count_type rt own)) ->
  forall rt,
    bump (hit_relation_type h) m !! rt
    = if bool_decide (count_type rt (own ++ [h]) = 0) then None
      else Some (count_type rt (own ++ [h])).
Proof.
  intros Hrt rt. unfold bump. rewrite count_type_snoc.
  pose proof (count_type_nonneg rt own) as Hnn.
  destruct (decide (hit_relation_type h = rt)) as [->|Hne].
  - rewrite lookup_insert_eq, Hrt.
    rewrite (bool_decide_eq_true_2 (rt = rt)) by done.
    rewrite (bool_decide_eq_false_2 (_ + 1 = 0)) by lia.
    case_bool_decide as Hz; cbn [default]; [by rewrite Hz|done].
  - rewrite lookup_insert_ne, Hrt by done.
    rewrite (bool_decide_eq_false_2 (hit_relation_type h = rt)) by done.
    by rewrite Z.add_0_r.
Qed.

Section AggregateContents.
Context (cap : Z).
Implicit Types (edges : gmap (string * string) Edge) (h : Hit) (hits : list Hit).

Lemma new_edge_is s t : edge_is cap [] (new_edge s t).
Proof.
  unfold edge_is, new_edge. cbn. split; [done|]. split; [by rewrite take_nil|].
  split; [done|]. intros rt. by rewrite lookup_empty.
Qed.

Lemma update_edge_is own h e :
  edge_is cap own e -> edge_is cap (own ++ [h]) (update_edge cap h e).
Proof.
  intros (Hocc & Hev & How & Hrt). unfold edge_is, update_edge.
  cbn [occurrences evidence owners_observed relation_type_counts].
  split; [rewrite length_app; simpl; lia|].
  split.
  { rewrite Hev, fmap_app. cbn [fmap list_fmap].
    rewrite length_take, length_fmap.
    fold (evidence_of h).
    case_bool_decide as Hlt.
    - rewrite !take_ge; [done| |].
      + rewrite length_app, length_fmap. simpl. lia.
      + rewrite length_fmap. lia.
    - rewrite take_app_le; [done|]. rewrite length_fmap. lia. }
  split; [by rewrite owners_of_hits_snoc, How|].
  by apply bump_counts.
Qed.

Lemma aggregate_edges_are hits : edges_are cap (aggregate cap hits) hits.
Proof.
  apply aggregate_ind; clear hits.
  { intros key. by rewrite lookup_empty. }
  intros edges hits h IH [s t].
  destruct (decide (hit_target h = hit_source h)) as [Hself|Hne].
  { rewrite fold_hit_self by done. specialize (IH (s, t)). cbn [fst snd] in *.
    rewrite hits_for_skip by auto. done. }
  destruct (decide ((s, t) = (hit_source h, hit_target h))) as [Heq|Hkey].
  - inversion Heq; subst s t.
    rewrite fold_hit_lookup by done. specialize (IH (hit_source h, hit_target h)).
    cbn [fst snd] in *.
    rewrite hits_for_snoc, bool_decide_eq_true_2 by done.
    destruct (edges !! _) as [e0|]; cbn [default].
    + by apply update_edge_is.
    + rewrite IH. apply (update_edge_is [] h). apply new_edge_is.
  - rewrite fold_hit_frame by done. specialize (IH (s, t)). cbn [fst snd] in *.
    rewrite hits_for_skip by auto. done.
Qed.

Lemma aggregate_edge_is hits s t e :
  aggregate cap hits !! (s, t) = Some e -> edge_is cap (hits_for s t hits) e.
Proof.
  intros H. pose proof (aggregate_edges_are hits (s, t)) as Hk. by rewrite H in Hk.
Qed.

Lemma aggregate_lookup_none hits s t :
  aggregate cap hits !! (s, t) = None <-> hits_for s t hits = [].
Proof.
  split.
  - intros H. pose proof (aggregate_edges_are hits (s, t)) as Hk. by rewrite H in Hk.
  - intros H. destruct (aggregate cap hits !! (s, t)) as [e|] eqn:He; [|done].
    apply aggregate_edge_ok in He. unfold edge_ok in He. cbn [fst snd] in He.
    rewrite H in He. simpl in He. lia.
Qed.
End AggregateContents.

Lemma elem_of_hits_for s t hits h :
  h ∈ hits_for s t hits <->
  h ∈ hits ∧ hit_source h = s ∧ hit_target h = t ∧ s ≠ t.
Proof.
  unfold hits_for. rewrite list_elem_of_In, List.filter_In, <- list_elem_of_In.
  rewrite bool_decide_eq_true. split.
  - intros (Hin & Hs & Ht & Hne). repeat split; try done. congruence.
  - intros (Hin & Hs & Ht & Hne). repeat split; try done. congruence.
Qed.

Lemma aggregate_key_hit cap hits s t e :
  aggregate cap hits !! (s, t) = Some e ->
  exists h, h ∈ hits ∧ hit_source h = s ∧ hit_target h = t.
Proof.
  intros He.
  assert (Hsome : aggregate cap hits !! (s, t) ≠ None) by congruence.
  rewrite aggregate_lookup_none in Hsome.
  destruct (hits_for s t hits) as [|h l] eqn:Hl; [done|].
  assert (Hh : h ∈ hits_for s t hits) by (rewrite Hl; apply list_elem_of_here).
  apply elem_of_hits_for in Hh as (Hin & Hs & Ht & _). by exists h.
Qed.

Lemma filter_perm {A} (f : A -> bool) (l l' : list A) :
  l ≡ₚ l' -> List.filter f l ≡ₚ List.filter f l'.
Proof.
  induction 1 as [|x l l' _ IH|x y l|l1 l2 l3 _ IH1 _ IH2]; simpl.
  - done.
  - destruct (f x); [by constructor|done].
  - destruct (f x), (f y); try done. apply perm_swap.
  - by etrans.
Qed.

Lemma count_type_perm rt hits hits' :
  hits ≡ₚ hits' -> count_type rt hits = count_type rt hits'.
Proof.
  intros Hp. unfold count_type. f_equal.
  apply Permutation_length. by apply filter_perm.
Qed.

Lemma owners_of_hits_perm hits hits' :
  hits ≡ₚ hits' -> owners_of_hits hits = owners_of_hits hits'.
Proof.
  intros Hp. apply set_eq. intros o. rewrite !elem_of_owners_of_hits.
  split; intros (Hn & h & Hh & Ho); (split; [done|]); exists h; (split; [|done]).
  - by rewrite <- Hp.
  - by rewrite Hp.
Qed.

(** X1. The evidence kept for an edge is the records of the first hits of
    its key, in the order of the scan, up to the cap: later hits never
    replace earlier ones. *)
Theorem evidence_first_seen cap hits s t e :
  aggregate cap hits !! (s, t) = Some e ->
  evidence e = take (Z.to_nat cap) (evidence_of <$> hits_for s t hits).
Proof. intros H. by apply aggregate_edge_is in H as (_ & Hev & _). Qed.

Lemma evidence_first_seen_witness :
  let h n := MkHit "a" "b" None "f" n "reference" "x" in
  evidence (default (new_edge "" "") (aggregate 2 [h 1; h 2; h 3] !! ("a", "b")))
  = [evidence_of (h 1); evidence_of (h 2)].
Proof.
  intros h.
  assert (H : aggregate 2 [h 1; h 2; h 3] !! ("a", "b")
              = Some (default (new_edge "" "") (aggregate 2 [h 1; h 2; h 3] !! ("a", "b")))).
  { vm_compute. reflexivity. }
  rewrite (evidence_first_seen 2 [h 1; h 2; h 3] "a" "b" _ H).
  vm_compute. reflexivity.
Defined.

(** X2. The owners recorded on an edge are the owners, not empty, that the
    hits of its key carry, and nothing else. *)
Theorem owners_observed_exact cap hits s t e o :
  aggregate cap hits !! (s, t) = Some e ->
  o ∈ owners_observed e <->
  o ≠ "" ∧ exists h, h ∈ hits ∧ hit_source h = s ∧ hit_target h = t
                     ∧ hit_owner h = Some o.
Proof.
  intros H. pose proof H as Hok. apply aggregate_edge_ok in Hok as (Hne & _).
  cbn [fst snd] in Hne.
  apply aggregate_edge_is in H as (_ & _ & How & _).
  rewrite How, elem_of_owners_of_hits. split.
  - intros (Hn & h & Hh & Ho). split; [done|]. exists h.
    apply elem_of_hits_for in Hh as (? & ? & ? & ?). done.
  - intros (Hn & h & Hh & Hs & Ht & Ho). split; [done|]. exists h.
    split; [|done]. by apply elem_of_hits_for.
Qed.

Lemma owners_observed_exact_witness :
  let hits := [MkHit "a" "b" (Some "acme") "f" 1 "reference" "x";
               MkHit "a" "b" (Some "") "f" 2 "reference" "x";
               MkHit "a" "c" (Some "other") "f" 3 "reference" "x"] in
  "acme" ∈ owners_observed
             (default (new_edge "" "") (aggregate 5 hits !! ("a", "b"))).
Proof.
  intros hits.
  assert (H : aggregate 5 hits !! ("a", "b")
              = Some (default (new_edge "" "") (aggregate 5 hits !! ("a", "b")))).
  { vm_compute. reflexivity. }
  apply (owners_observed_exact 5 hits "a" "b" _ "acme" H).
  split; [done|].
  exists (MkHit "a" "b" (Some "acme") "f" 1 "reference" "x").
  split; [apply list_elem_of_here|done].
Defined.

(** X3. The count kept for a relation type on an edge is the number of
    hits of the key with that type; a type without a hit has no entry, so
    no count is zero. *)
Theorem relation_type_counts_exact cap hits s t e rt n :
  aggregate cap hits !! (s, t) = Some e ->
  relation_type_counts e !! rt = Some n <->
  n = count_type rt (hits_for s t hits) ∧ 1 <= n.
Proof.
  intros H. apply aggregate_edge_is in H as (_ & _ & _ & Hrt).
  rewrite Hrt. pose proof (count_type_nonneg rt (hits_for s t hits)).
  case_bool_decide as Hz.
  - split; [done|]. intros [-> ?]. lia.
  - split; [intros [= <-]; lia|]. by intros [-> _].
Qed.

Lemma relation_type_counts_exact_witness :
  let hits := [MkHit "a" "b" None "go.mod" 1 "go_module" "x";
               MkHit "a" "b" None "README" 2 "reference" "x";
               MkHit "a" "b" None "go.mod" 3 "go_module" "x"] in
  relation_type_counts
    (default (new_edge "" "") (aggregate 5 hits !! ("a", "b"))) !! "go_module"
  = Some 2.
Proof.
  intros hits.
  assert (H : aggregate 5 hits !! ("a", "b")
              = Some (default (new_edge "" "") (aggregate 5 hits !! ("a", "b")))).
  { vm_compute. reflexivity. }
  apply (relation_type_counts_exact 5 hits "a" "b" _ "go_module" 2 H).
  split; [vm_compute; reflexivity|lia].
Defined.

(** X4. A key has an edge exactly when the scan produced a hit from its
    source to its target and the two differ. *)
Theorem edge_iff_hit cap hits s t :
  is_Some (aggregate cap hits !! (s, t)) <->
  exists h, h ∈ hits ∧ hit_source h = s ∧ hit_target h = t ∧ s ≠ t.
Proof.
  rewrite <- not_eq_None_Some, aggregate_lookup_none. split.
  - intros Hne. destruct (hits_for s t hits) as [|h l] eqn:Heq; [done|].
    exists h. apply elem_of_hits_for. rewrite Heq. apply list_elem_of_here.
  - intros (h & Hh). apply elem_of_hits_for in Hh. intros Hnil.
    rewrite Hnil in Hh. by apply elem_of_nil in Hh.
Qed.

Lemma edge_iff_hit_witness :
  is_Some (aggregate 5 [MkHit "a" "b" None "f" 1 "reference" "x"] !! ("a", "b")).
Proof.
  apply (proj2 (edge_iff_hit 5 [MkHit "a" "b" None "f" 1 "reference" "x"] "a" "b")).
  exists (MkHit "a" "b" None "f" 1 "reference" "x").
  split; [apply list_elem_of_here|done].
Defined.

(** X5. The order in which the hits arrive decides only which evidence is
    kept: the keys of the aggregate and, for each key, the endpoints, the
    occurrence count, the counts per relation type and the owners are the
    same for every permutation of the hits. *)
Theorem aggregate_order_independent cap hits hits' key :
  hits ≡ₚ hits' ->
  edge_summary <$> aggregate cap hits !! key
  = edge_summary <$> aggregate cap hits' !! key.
Proof.
  intros Hp. destruct key as [s t].
  assert (Hf : hits_for s t hits ≡ₚ hits_for s t hits') by by apply filter_perm.
  destruct (aggregate cap hits !! (s, t)) as [e|] eqn:He;
    destruct (aggregate cap hits' !! (s, t)) as [e'|] eqn:He'; cbn [fmap option_fmap option_map].
  - pose proof (aggregate_edge_ok _ _ _ _ He) as (_ & Hs & Ht & _).
    pose proof (aggregate_edge_ok _ _ _ _ He') as (_ & Hs' & Ht' & _).
    apply aggregate_edge_is in He as (Hocc & _ & How & Hrt).
    apply aggregate_edge_is in He' as (Hocc' & _ & How' & Hrt').
    cbn [fst snd] in Hs, Ht, Hs', Ht'.
    assert (E1 : occurrences e = occurrences e').
    { rewrite Hocc, Hocc'. f_equal. by apply Permutation_length. }
    assert (E2 : relation_type_counts e = relation_type_counts e').
    { apply map_eq. intros rt. rewrite Hrt, Hrt'.
      by rewrite (count_type_perm rt _ _ Hf). }
    assert (E3 : owners_observed e = owners_observed e').
    { rewrite How, How'. by apply owners_of_hits_perm. }
    unfold edge_summary. by rewrite Hs, Ht, Hs', Ht', E1, E2, E3.
  - exfalso. apply aggregate_lookup_none in He'.
    apply (f_equal (@length Hit)) in He'. rewrite <- (Permutation_length Hf) in He'.
    apply aggregate_edge_ok in He as (_ & _ & _ & Hocc & _ & Hpos & _).
    cbn [fst snd] in Hocc. simpl in He'. lia.
  - exfalso. apply aggregate_lookup_none in He.
    apply (f_equal (@length Hit)) in He. rewrite (Permutation_length Hf) in He.
    apply aggregate_edge_ok in He' as (_ & _ & _ & Hocc & _ & Hpos & _).
    cbn [fst snd] in Hocc. simpl in He. lia.
  - done.
Qed.

Lemma aggregate_order_independent_witness :
  let h1 := MkHit "a" "b" (Some "acme") "go.mod" 1 "go_module" "x" in
  let h2 := MkHit "a" "b" None "README" 2 "reference" "y" in
  edge_summary <$> aggregate 1 [h1; h2] !! ("a", "b")
  = edge_summary <$> aggregate 1 [h2; h1] !! ("a", "b").
Proof.
  intros h1 h2.
  apply (aggregate_order_independent 1 [h1; h2] [h2; h1] ("a", "b")).
  apply perm_swap.
Defined.

(** * The report *)

Lemma compare_refl x : String.compare x x = Eq.
Proof.
  pose proof (String.compare_antisym x x) as H.
  destruct (String.compare x x); simpl in H; congruence.
Qed.

Lemma ltb_irrefl x : String.ltb x x = false.
Proof. unfold String.ltb. by rewrite compare_refl. Qed.

Lemma ltb_leb x y : String.ltb x y = true -> String.leb x y = true.
Proof. unfold String.ltb, String.leb. by destruct (String.compare x y). Qed.

Lemma ltb_trans x y z :
  String.ltb x y = true -> String.ltb y z = true -> String.ltb x z = true.
Proof.
  intros Hxy Hyz. apply leb_ne_ltb.
  - apply (str_le_trans x y z); by apply ltb_leb.
  - intros ->. assert (y = z) as ->.
    { apply String.leb_antisym; by apply ltb_leb. }
    by rewrite ltb_irrefl in Hxy.
Qed.

Lemma compare_lt_ltb x y : String.compare x y = Lt <-> String.ltb x y = true.
Proof. unfold String.ltb. by destruct (String.compare x y). Qed.

Lemma compare_gt_ltb x y : String.compare x y = Gt -> String.ltb y x = true.
Proof.
  intros H. apply compare_lt_ltb. rewrite String.compare_antisym, H. done.
Qed.

Section Lexicographic.
Context {A B : Type} (k1 : A -> string) (k2 : A -> B) (le : B -> B -> bool).
Hypothesis le_total : forall x y, le x y = false -> le y x = true.
Hypothesis le_trans : forall x y z, le x y = true -> le y z = true -> le x z = true.

Lemma lex_le_total x y : lex_le k1 k2 le x y = false -> lex_le k1 k2 le y x = true.
Proof.
  unfold lex_le. destruct (String.compare (k1 x) (k1 y)) eqn:Hc; [|done|].
  - apply String.compare_eq_iff in Hc. rewrite Hc, compare_refl. apply le_total.
  - intros _. rewrite String.compare_antisym, Hc. done.
Qed.

Lemma lex_le_trans x y z :
  lex_le k1 k2 le x y = true -> lex_le k1 k2 le y z = true -> lex_le k1 k2 le x z = true.
Proof.
  unfold lex_le.
  destruct (String.compare (k1 x) (k1 y)) eqn:Hxy; [| |done];
    destruct (String.compare (k1 y) (k1 z)) eqn:Hyz; try done.
  - apply String.compare_eq_iff in Hxy, Hyz. rewrite Hxy, Hyz, compare_refl.
    apply le_trans.
  - apply String.compare_eq_iff in Hxy. by rewrite Hxy, Hyz.
  - apply String.compare_eq_iff in Hyz. by rewrite <- Hyz, Hxy.
  - intros _ _. apply compare_lt_ltb in Hxy, Hyz.
    pose proof (ltb_trans _ _ _ Hxy Hyz) as H. apply compare_lt_ltb in H.
    by rewrite H.
Qed.

Lemma lex_le_first x y :
  lex_le k1 k2 le x y = true -> k1 x ≠ k1 y -> String.ltb (k1 x) (k1 y) = true.
Proof.
  unfold lex_le. destruct (String.compare (k1 x) (k1 y)) eqn:Hc; [|intros; by apply compare_lt_ltb|done].
  apply String.compare_eq_iff in Hc. done.
Qed.
End Lexicographic.

Lemma sorted_fmap {A B} (R : A -> A -> Prop) (R' : B -> B -> Prop) (f : A -> B) l :
  (forall a b, a ∈ l -> b ∈ l -> R a b -> R' (f a) (f b)) ->
  StronglySorted R l -> StronglySorted R' (f <$> l).
Proof.
  intros Hf Hl. induction Hl as [|x l Hl IH Hx]; simpl; constructor.
  - apply IH. intros a b Ha Hb. apply Hf; by apply list_elem_of_further.
  - apply Forall_fmap, Forall_forall. intros y Hy. simpl.
    apply Hf; [apply list_elem_of_here|by apply list_elem_of_further|].
    rewrite Forall_forall in Hx. by apply Hx.
Qed.

Lemma sorted_strict {A K} (key : A -> K) (R R' : A -> A -> Prop) l :
  (forall a b, R a b -> key a ≠ key b -> R' a b) ->
  StronglySorted R l -> NoDup (key <$> l) -> StronglySorted R' l.
Proof.
  intros HR Hl. induction Hl as [|x l Hl IH Hx]; intros Hnd; constructor.
  - apply IH. simpl in Hnd. by apply NoDup_cons in Hnd as [_ ?].
  - simpl in Hnd. apply NoDup_cons in Hnd as [Hx' _].
    apply Forall_forall. intros y Hy. apply HR.
    + rewrite Forall_forall in Hx. by apply Hx.
    + intros Heq. apply Hx'. rewrite Heq. by apply list_elem_of_fmap_2.
Qed.

Lemma Z_leb_total x y : (x <=? y) = false -> (y <=? x) = true.
Proof. lia. Qed.

Lemma Z_leb_trans x y z : (x <=? y) = true -> (y <=? z) = true -> (x <=? z) = true.
Proof. lia. Qed.

Lemma count_items_sorted (rtc : gmap string Z) :
  StronglySorted (fun a b => String.ltb a.1 b.1 = true)
    (Py.sorted count_item_le (map_to_list rtc)).
Proof.
  apply (sorted_strict fst (fun a b => count_item_le a b = true)).
  - intros a b. apply (lex_le_first fst snd Z.leb).
  - apply (sorted_sorted count_item_le).
    + apply (lex_le_total fst snd Z.leb Z_leb_total).
    + apply (lex_le_trans fst snd Z.leb Z_leb_trans).
  - rewrite sorted_perm. apply NoDup_fst_map_to_list.
Qed.

Lemma edge_keys_sorted (edges : gmap (string * string) Edge) :
  StronglySorted (fun a b => key_lt a.1 b.1)
    (Py.sorted edge_key_le (map_to_list edges)).
Proof.
  apply (sorted_strict fst (fun a b => edge_key_le a b = true)).
  - intros [[s t] e] [[s' t'] e']. unfold edge_key_le, key_lt. cbn [fst snd].
    intros Hle Hne. destruct (String.compare s s') eqn:Hc; [| |done].
    + apply String.compare_eq_iff in Hc as ->. right. split; [done|].
      apply leb_ne_ltb; [done|]. intros ->. done.
    + left. by apply compare_lt_ltb.
  - apply (sorted_sorted edge_key_le).
    + apply (lex_le_total (fun x : string * string * Edge => x.1.1)
               (fun x => x.1.2) str_le str_le_total).
    + apply (lex_le_trans (fun x : string * string * Edge => x.1.1)
               (fun x => x.1.2) str_le str_le_trans).
  - rewrite sorted_perm. apply NoDup_fst_map_to_list.
Qed.

(** X6. The edge list of the report has one entry per edge, in strictly
    ascending order of [(source, target)]: no two entries share their
    endpoints. *)
Theorem edge_list_strictly_sorted cap hits :
  StronglySorted
    (fun a b => key_lt (r_source a, r_target a) (r_source b, r_target b))
    (edge_list (aggregate cap hits))
  ∧ length (edge_list (aggregate cap hits)) = size (aggregate cap hits).
Proof.
  split.
  - unfold edge_list.
    apply (sorted_fmap (fun a b => key_lt a.1 b.1)); [|apply edge_keys_sorted].
    intros [k e] [k' e'] Ha Hb Hlt.
    rewrite sorted_perm in Ha, Hb.
    apply elem_of_map_to_list, aggregate_edge_ok in Ha as (_ & Hs & Ht & _).
    apply elem_of_map_to_list, aggregate_edge_ok in Hb as (_ & Hs' & Ht' & _).
    cbn [fst snd report_edge r_source r_target] in *.
    rewrite Hs, Ht, Hs', Ht'. by destruct k, k'.
  - unfold edge_list. rewrite length_fmap.
    rewrite (Permutation_length (sorted_perm _ _)). apply length_map_to_list.
Qed.

Lemma sum_counts_filter_perm (f : string * Z -> bool) l l' :
  l ≡ₚ l' -> sum_counts (List.filter f l) = sum_counts (List.filter f l').
Proof. intros Hp. by apply sum_counts_perm, filter_perm. Qed.

Lemma dependency_sum_bump (m : gmap string Z) rt :
  let f := fun item : string * Z => bool_decide (item.1 ∈ DEPENDENCY_REL_TYPES) in
  sum_counts (List.filter f (map_to_list (bump rt m)))
  = sum_counts (List.filter f (map_to_list m))
    + (if bool_decide (rt ∈ DEPENDENCY_REL_TYPES) then 1 else 0).
Proof.
  intros f. unfold bump. destruct (m !! rt) as [v|] eqn:Hrt; cbn [default].
  - rewrite <- insert_delete_eq.
    rewrite (sum_counts_filter_perm f _ _
               (map_to_list_insert (delete rt m) rt (v + 1) (lookup_delete_eq m rt))).
    rewrite <- (sum_counts_filter_perm f _ _ (map_to_list_delete m rt v Hrt)).
    cbn [List.filter]. subst f. cbn [fst].
    case_bool_decide; unfold sum_counts; cbn [foldr snd]; lia.
  - rewrite (sum_counts_filter_perm f _ _ (map_to_list_insert m rt (0 + 1) Hrt)).
    cbn [List.filter]. subst f. cbn [fst].
    case_bool_decide; unfold sum_counts; cbn [foldr snd]; lia.
Qed.

Lemma counts_of_hits (m : gmap string Z) own :
  (forall rt, m !! rt = if bool_decide (count_type rt own = 0) then None
                        else Some (count_type rt own)) ->
  m = foldl (fun m h => bump (hit_relation_type h) m) ∅ own.
Proof.
  intros Hm. apply map_eq. intros rt. rewrite Hm. clear Hm m. revert rt.
  induction own as [|h own IH] using rev_ind; intros rt.
  - simpl. by rewrite lookup_empty.
  - rewrite foldl_app. simpl. symmetry. apply bump_counts. intros rt'. by rewrite IH.
Qed.

Lemma dependency_sum_hits own :
  sum_counts (List.filter
                (fun item : string * Z => bool_decide (item.1 ∈ DEPENDENCY_REL_TYPES))
                (map_to_list (foldl (fun m h => bump (hit_relation_type h) m) ∅ own)))
  = Z.of_nat (length (List.filter dependency_hit own)).
Proof.
  induction own as [|h own IH] using rev_ind.
  - simpl. by rewrite map_to_list_empty.
  - rewrite foldl_app. simpl. rewrite dependency_sum_bump, IH.
    rewrite List.filter_app, length_app. cbn [List.filter].
    unfold dependency_hit. case_bool_decide; cbn [length]; lia.
Qed.

Lemma filter_length_le {A} (f : A -> bool) l :
  (length (List.filter f l) <= length l)%nat.
Proof. induction l as [|x l IH]; simpl; [lia|]. destruct (f x); simpl; lia. Qed.

(** X7. The dependency occurrences reported for an edge are the number of
    hits of its key that were found in a dependency manifest (Go module,
    Node, Python, Git submodule); they lie between zero and the occurrence
    count. *)
Theorem dependency_occurrences_exact cap hits s t e :
  aggregate cap hits !! (s, t) = Some e ->
  r_dependency_occurrences (report_edge e)
  = Z.of_nat (length (List.filter dependency_hit (hits_for s t hits)))
  ∧ 0 <= r_dependency_occurrences (report_edge e) <= r_occurrences (report_edge e).
Proof.
  intros H. apply aggregate_edge_is in H as (Hocc & _ & _ & Hrt).
  assert (Hdep : r_dependency_occurrences (report_edge e)
                 = Z.of_nat (length (List.filter dependency_hit (hits_for s t hits)))).
  { unfold report_edge. cbn [r_dependency_occurrences].
    rewrite (sum_counts_filter_perm _ _ _ (sorted_perm _ _)).
    rewrite (counts_of_hits _ _ Hrt). apply dependency_sum_hits. }
  split; [done|]. rewrite Hdep. unfold report_edge. cbn [r_occurrences].
  rewrite Hocc. pose proof (filter_length_le dependency_hit (hits_for s t hits)). lia.
Qed.

Lemma dependency_occurrences_exact_witness :
  let hits := [MkHit "a" "b" None "go.mod" 1 "go_module" "x";
               MkHit "a" "b" None "README" 2 "reference" "x";
               MkHit "a" "b" None "package.json" 3 "node_dependency" "x"] in
  r_dependency_occurrences
    (report_edge (default (new_edge "" "") (aggregate 5 hits !! ("a", "b"))))
  = 2.
Proof.
  intros hits.
  assert (H : aggregate 5 hits !! ("a", "b")
              = Some (default (new_edge "" "") (aggregate 5 hits !! ("a", "b")))).
  { vm_compute. reflexivity. }
  rewrite (proj1 (dependency_occurrences_exact 5 hits "a" "b" _ H)).
  vm_compute. reflexivity.
Defined.

(** X8. In a report entry the counts per relation type are the entries of
    the edge's counts in strictly ascending order of the type, and the
    owners are the observed owners in strictly ascending order. *)
Theorem report_edge_sorted e :
  let re := report_edge e in
  StronglySorted (fun a b => String.ltb a b = true) (r_relation_type_counts re).*1
  ∧ (forall rt n, (rt, n) ∈ r_relation_type_counts re <->
                  relation_type_counts e !! rt = Some n)
  ∧ StronglySorted (fun a b => String.ltb a b = true) (r_owners_observed re)
  ∧ (forall o, o ∈ r_owners_observed re <-> o ∈ owners_observed e).
Proof.
  unfold report_edge. cbn [r_relation_type_counts r_owners_observed].
  split; [|split; [|split]].
  - apply (sorted_fmap (fun a b => String.ltb a.1 b.1 = true)); [done|].
    apply count_items_sorted.
  - intros rt n. rewrite sorted_perm. apply elem_of_map_to_list.
  - apply strictly_sorted.
    + apply (sorted_sorted str_le str_le_total str_le_trans).
    + rewrite sorted_perm. apply NoDup_elements.
  - intros o. rewrite sorted_perm. apply elem_of_elements.
Qed.

Lemma report_edge_sorted_witness :
  ("go_module", 2)
    ∈ r_relation_type_counts
        (report_edge (MkEdge "a" "b" 3 {["reference" := 1; "go_module" := 2]} ∅ [])).
Proof.
  apply (proj2 (proj1 (proj2 (report_edge_sorted
           (MkEdge "a" "b" 3 {["reference" := 1; "go_module" := 2]} ∅ [])))
           "go_module" 2)).
  vm_compute. reflexivity.
Defined.

(** * The scanning loops *)

Lemma chunked_go_lookup fuel (items : list string) n i :
  (0 < n)%nat -> (length items <= fuel)%nat ->
  chunked_go fuel items n !! i =
    if (i * n <? length items)%nat then Some (take n (drop (i * n) items)) else None.
Proof.
  intros Hn. revert items i. induction fuel as [|fuel IH]; intros items i Hlen.
  - destruct items; [|simpl in Hlen; lia]. simpl.
    by destruct (i * n <? 0)%nat eqn:E; [apply Nat.ltb_lt in E; lia|].
  - destruct items as [|x items].
    { simpl. by destruct (i * n <? 0)%nat eqn:E; [apply Nat.ltb_lt in E; lia|]. }
    cbn [chunked_go]. destruct i as [|i].
    + simpl. done.
    + cbn [lookup list_lookup]. rewrite IH by (rewrite length_drop; simpl in *; lia).
      rewrite length_drop, drop_drop.
      replace (n + i * n)%nat with (S i * n)%nat by lia.
      destruct (i * n <? length (x :: items) - n)%nat eqn:E1;
        destruct (S i * n <? length (x :: items))%nat eqn:E2; try done.
      * apply Nat.ltb_lt in E1. apply Nat.ltb_ge in E2. lia.
      * apply Nat.ltb_ge in E1. apply Nat.ltb_lt in E2. lia.
Qed.

(** X9. With a positive chunk size, the chunk of index [i] is the slice
    [items[i*n : i*n + n]], and there is a chunk of index [i] exactly while
    [i*n] is below the number of items: every chunk holds at least one and
    at most [n] items. *)
Theorem chunked_slices (items : list string) n i :
  (0 < n)%nat ->
  chunked items n !! i =
    if (i * n <? length items)%nat then Some (take n (drop (i * n) items)) else None.
Proof. intros Hn. by apply chunked_go_lookup. Qed.

Lemma chunked_slices_witness :
  chunked ["a"; "b"; "c"; "d"; "e"] 2 !! 2%nat = Some ["e"].
Proof. rewrite (chunked_slices ["a"; "b"; "c"; "d"; "e"] 2 2); [reflexivity|lia]. Defined.

Lemma elem_of_hits_of_line src extractors known found h :
  h ∈ hits_of_line src extractors known found ->
  exists owner,
    (hit_target h, owner) ∈ extract_targets found.2 extractors known
    ∧ h = MkHit src (hit_target h) owner found.1.1 found.1.2
            (classify_relation_type found.1.1) (snippet_of found.2).
Proof.
  destruct found as [[file n] line]. unfold hits_of_line.
  intros Hin. apply list_elem_of_fmap in Hin as ([tgt owner] & -> & Hin).
  exists owner. done.
Qed.

Lemma elem_of_scan_hits rg org dirs h :
  h ∈ scan_hits rg org dirs ->
  let known : gset string := list_to_set (dir_name <$> dirs) in
  exists d chunk line owner,
    d ∈ dirs
    ∧ chunk ∈ chunked (Py.sorted str_le (elements known)) 120
    ∧ (hit_file h, hit_line h, line) ∈ rg (dir_name d) chunk
    ∧ (hit_target h, owner)
        ∈ extract_targets line
            (build_extractors chunk org
               (Some (collect_go_module_aliases dirs known))) known
    ∧ h = MkHit (dir_name d) (hit_target h) owner (hit_file h) (hit_line h)
            (classify_relation_type (hit_file h)) (snippet_of line).
Proof.
  intros Hin known. unfold scan_hits in Hin. fold known in Hin.
  apply elem_of_flat_map in Hin as (d & Hd & Hin).
  apply elem_of_flat_map in Hin as (chunk & Hc & Hin).
  destruct (build_extractors chunk org _) as [|e es] eqn:He.
  { by apply elem_of_nil in Hin. }
  apply elem_of_flat_map in Hin as ([[file n] line] & Hf & Hin).
  apply elem_of_hits_of_line in Hin as (owner & Ht & Hh).
  cbn [fst snd] in *.
  exists d, chunk, line, owner. rewrite He.
  rewrite Hh. cbn [hit_file hit_line hit_target]. done.
Qed.

Lemma extract_targets_valid line extractors known repo owner :
  (repo, owner) ∈ extract_targets line extractors known -> valid_repo known repo.
Proof.
  intros Hin. apply elem_of_extract_targets in Hin.
  rewrite owners_of_line_lookup in Hin. by case_bool_decide.
Qed.

Lemma length_substring_0 n s :
  String.length (String.substring 0 n s) = Nat.min n (String.length s).
Proof.
  revert n. induction s as [|c s IH]; intros [|n]; simpl; try done.
  by rewrite IH.
Qed.

Lemma snippet_of_length line : (String.length (snippet_of line) <= 220)%nat.
Proof.
  unfold snippet_of. destruct (220 <? _)%nat eqn:E.
  - apply Nat.ltb_lt in E. rewrite length_app_s, length_substring_0.
    change (String.length "...") with 3%nat. lia.
  - apply Nat.ltb_ge in E. done.
Qed.

Lemma scan_hit_known rg org dirs h :
  h ∈ scan_hits rg org dirs ->
  hit_source h ∈ dir_name <$> dirs ∧ hit_target h ∈ dir_name <$> dirs
  ∧ hit_target h ≠ "".
Proof.
  intros Hin.
  apply elem_of_scan_hits in Hin as (d & chunk & line & owner & Hd & _ & _ & Htg & Hh).
  apply extract_targets_valid in Htg as [Hne Hk].
  apply elem_of_list_to_set in Hk.
  split; [|done]. rewrite Hh. cbn [hit_source]. by apply list_elem_of_fmap_2.
Qed.

(** X10. The scan connects known repositories only: the source of every
    edge is the name of a scanned repository directory and so is its
    target, which is never the empty name. *)
Theorem scan_edges_between_known rg org cap dirs s t e :
  scan_edges rg org cap dirs !! (s, t) = Some e ->
  s ∈ dir_name <$> dirs ∧ t ∈ dir_name <$> dirs ∧ t ≠ "".
Proof.
  rewrite scan_edges_aggregate. intros He.
  apply aggregate_key_hit in He as (h & Hin & <- & <-).
  by apply (scan_hit_known rg org).
Qed.

Lemma scan_edges_between_known_witness :
  let rg := reports_line "a" ".github/workflows/ci.yml" 3 "uses: acme/b@v1" in
  "a" ∈ dir_name <$> [MkRepoDir "a" []; MkRepoDir "b" []]
  ∧ "b" ∈ dir_name <$> [MkRepoDir "a" []; MkRepoDir "b" []] ∧ "b" ≠ "".
Proof.
  intros rg.
  assert (H : scan_edges rg (Some "acme") 5 [MkRepoDir "a" []; MkRepoDir "b" []]
                !! ("a", "b")
              = Some (default (new_edge "" "")
                        (scan_edges rg (Some "acme") 5
                           [MkRepoDir "a" []; MkRepoDir "b" []] !! ("a", "b")))).
  { vm_compute. reflexivity. }
  exact (scan_edges_between_known rg (Some "acme") 5 _ "a" "b" _ H).
Defined.

(** X11. Every evidence record of an edge comes from a line that the
    search tool reported in the source repository: its relation type is the
    class of its file, and its snippet is the stripped line, cut to 217
    characters and an ellipsis when it is longer than 220, so never longer
    than 220 characters. *)
Theorem scan_evidence_faithful rg org cap dirs s t e ev :
  scan_edges rg org cap dirs !! (s, t) = Some e ->
  ev ∈ evidence e ->
  ev_relation_type ev = classify_relation_type (ev_file ev)
  ∧ (String.length (ev_snippet ev) <= 220)%nat
  ∧ exists chunk line,
      (ev_file ev, ev_line ev, line) ∈ rg s chunk
      ∧ ev_snippet ev = snippet_of line.
Proof.
  rewrite scan_edges_aggregate. intros He Hev.
  apply aggregate_edge_is in He as (_ & Hevs & _).
  rewrite Hevs in Hev. apply elem_of_take in Hev as (i & Hev & _).
  apply list_elem_of_lookup_2 in Hev.
  apply list_elem_of_fmap in Hev as (h & -> & Hh).
  apply elem_of_hits_for in Hh as (Hin & Hs & Ht & _).
  apply elem_of_scan_hits in Hin as (d & chunk & line & owner & Hd & _ & Hrg & _ & Hh).
  unfold evidence_of. cbn [ev_relation_type ev_file ev_snippet ev_line].
  rewrite Hh in Hs. cbn [hit_source] in Hs. subst s.
  rewrite Hh. cbn [hit_relation_type hit_file hit_snippet hit_line].
  split; [done|]. split; [apply snippet_of_length|].
  by exists chunk, line.
Qed.

Lemma scan_evidence_faithful_witness :
  let rg := reports_line "a" ".github/workflows/ci.yml" 3 "uses: acme/b@v1" in
  ev_relation_type (MkEvidence ".github/workflows/ci.yml" 3 "github_action" "uses: acme/b@v1")
  = classify_relation_type ".github/workflows/ci.yml".
Proof.
  intros rg.
  assert (H : scan_edges rg (Some "acme") 5 [MkRepoDir "a" []; MkRepoDir "b" []]
                !! ("a", "b")
              = Some (default (new_edge "" "")
                        (scan_edges rg (Some "acme") 5
                           [MkRepoDir "a" []; MkRepoDir "b" []] !! ("a", "b")))).
  { vm_compute. reflexivity. }
  refine (proj1 (scan_evidence_faithful rg (Some "acme") 5 _ "a" "b" _
                   (MkEvidence ".github/workflows/ci.yml" 3 "github_action" "uses: acme/b@v1")
                   H _)).
  vm_compute. apply list_elem_of_here.
Defined.

(** * Node identifiers of the diagram *)

Lemma sub_non_id_all name : all_chars id_char (sub_non_id name) = true.
Proof.
  induction name as [|c s IH]; [done|]. simpl. rewrite IH, andb_true_r.
  by destruct (id_char c) eqn:Hc.
Qed.

Lemma sub_non_id_id s : all_chars id_char s = true -> sub_non_id s = s.
Proof.
  induction s as [|c s IH]; [done|]. simpl.
  intros [Hc Hs]%andb_true_iff. by rewrite Hc, IH.
Qed.

Lemma sub_non_id_app a b : sub_non_id (a +:+ b) = sub_non_id a +:+ sub_non_id b.
Proof. induction a as [|c a IH]; [done|]. rewrite app_cons. simpl. by rewrite IH. Qed.

Lemma sanitize_is_identifier name : is_identifier (sanitize_mermaid_id name).
Proof.
  unfold sanitize_mermaid_id, is_identifier.
  pose proof (sub_non_id_all name) as Hall.
  destruct (sub_non_id name) as [|c s] eqn:Hs; [done|].
  destruct (Py.isdigit c) eqn:Hd.
  - split; [|done]. rewrite !app_cons, app_empty_l.
    change (all_chars id_char (String "r" (String "_" (String c s))))
      with (all_chars id_char (String c s)). done.
  - done.
Qed.

Lemma sanitize_of_identifier s : is_identifier s -> sanitize_mermaid_id s = s.
Proof.
  intros [Hall Hfirst]. unfold sanitize_mermaid_id. rewrite (sub_non_id_id s Hall).
  destruct s as [|c s]; [done|]. by rewrite Hfirst.
Qed.

(** X12. A node identifier is never empty, is made of letters, digits and
    underscores only, and does not begin with a digit, whatever the name of
    the repository. *)
Theorem sanitize_mermaid_id_valid name :
  sanitize_mermaid_id name ≠ ""
  ∧ all_chars id_char (sanitize_mermaid_id name) = true
  ∧ forall c rest, sanitize_mermaid_id name = String c rest -> Py.isdigit c = false.
Proof.
  destruct (sanitize_is_identifier name) as [Hall Hfirst].
  split; [|split; [done|]].
  - intros Heq. by rewrite Heq in Hfirst.
  - intros c rest Heq. by rewrite Heq in Hfirst.
Qed.

Lemma sanitize_mermaid_id_valid_witness :
  sanitize_mermaid_id "7zip.tools" = "r_7zip_tools"
  ∧ Py.isdigit "r" = false.
Proof.
  split; [reflexivity|].
  exact (proj2 (proj2 (sanitize_mermaid_id_valid "7zip.tools")) "r"%char "_7zip_tools" eq_refl).
Defined.

(** X13. The names that the sanitizer leaves unchanged are exactly the
    identifiers, and sanitizing twice is the same as sanitizing once. *)
Theorem sanitize_mermaid_id_fixpoint name :
  (sanitize_mermaid_id name = name <-> is_identifier name)
  ∧ sanitize_mermaid_id (sanitize_mermaid_id name) = sanitize_mermaid_id name.
Proof.
  split; [split|].
  - intros Heq. rewrite <- Heq. apply sanitize_is_identifier.
  - apply sanitize_of_identifier.
  - apply sanitize_of_identifier, sanitize_is_identifier.
Qed.

Lemma sanitize_mermaid_id_fixpoint_witness :
  sanitize_mermaid_id "repo_1" = "repo_1".
Proof.
  apply (proj2 (proj1 (sanitize_mermaid_id_fixpoint "repo_1"))).
  split; [reflexivity|reflexivity].
Defined.

(** X14. The sanitizer does not keep names apart: two names that differ in
    one character outside the identifier class, one of them having an
    underscore there, are different names with the same node identifier. *)
Theorem sanitize_mermaid_id_collides a b c :
  id_char c = false ->
  a +:+ String c b ≠ a +:+ String "_" b
  ∧ sanitize_mermaid_id (a +:+ String c b) = sanitize_mermaid_id (a +:+ String "_" b).
Proof.
  intros Hc. split.
  - intros Heq. induction a as [|x a IH].
    + injection Heq as ->. done.
    + rewrite !app_cons in Heq. injection Heq as Heq. by apply IH.
  - unfold sanitize_mermaid_id. rewrite !sub_non_id_app. simpl. by rewrite Hc.
Qed.

Lemma sanitize_mermaid_id_collides_witness :
  "my-repo" ≠ "my_repo"
  ∧ sanitize_mermaid_id "my-repo" = sanitize_mermaid_id "my_repo".
Proof. exact (sanitize_mermaid_id_collides "my" "repo" "-" eq_refl). Defined.

(** * The reference parser and the repository set-up *)

(** The three ways in which the parser produces a result. *)
Lemma parse_repo_ref_cases value o r :
  parse_repo_ref value = Some (o, r) ->
  url_form ["http"; "https"] (Py.strip value) o r
  ∨ ssh_form (Py.strip value) o r
  ∨ bare_form (Py.strip value) o r.
Proof.
  unfold parse_repo_ref.
  pose proof (strip_no_trailing_space value) as Hnts.
  set (raw := Py.strip value) in *. clearbody raw.
  destruct (String.eqb raw "" || Py.startswith "#" raw); [done|].
  destruct (Re.match_ false http_re raw) as [mh|] eqn:Hh.
  { destruct (http_match_inv raw mh Hnts Hh) as (o1 & r1 & Hform).
    destruct (http_match_fwd raw o1 r1 Hnts Hform) as (m & Hm & <- & <-).
    rewrite Hh in Hm. injection Hm as <-. intros [= <- <-]. by left. }
  destruct (Re.match_ false ssh_re raw) as [ms|] eqn:Hs.
  { destruct (ssh_match_inv raw ms Hnts Hs) as (o1 & r1 & Hform).
    destruct (ssh_match_fwd raw o1 r1 Hnts Hform) as (m & Hm & <- & <-).
    rewrite Hs in Hm. injection Hm as <-. intros [= <- <-]. right. by left. }
  destruct (Re.match_ false bare_re raw) as [mb|] eqn:Hb; [|done].
  destruct (bare_match_inv raw mb Hnts Hb) as (o1 & b1 & Hraw & Ho1 & Hb1).
  destruct (bare_match_fwd raw o1 b1 Hraw Ho1 Hb1) as (m & Hm & <- & <-).
  rewrite Hb in Hm. injection Hm as <-. intros [= <- <-]. right. right.
  by exists (group_text "2" mb).
Qed.

Lemma without_git_name body r :
  segment body -> without_git body r -> r ≠ "" ∧ all_chars not_slash r = true.
Proof.
  intros [Hne Hall] [[-> Hr]|[-> _]]; [|done].
  split; [done|]. rewrite all_chars_app in Hall. by apply andb_true_iff in Hall as [? _].
Qed.

Lemma removesuffix_cases suf s :
  s = Py.removesuffix suf s +:+ suf ∨ Py.removesuffix suf s = s.
Proof.
  unfold Py.removesuffix. destruct (Py.endswith suf s) eqn:He; [|by right].
  left. apply endswith_spec in He as [x ->].
  rewrite length_app_s.
  replace (String.length x + String.length suf - String.length suf)%nat
    with (String.length x) by lia.
  by rewrite substring_0_app.
Qed.

(** X15. Whatever the parser returns, the owner is a path segment (not
    empty, no slash) and the repository name holds no slash; the name is
    empty for one kind of input only, the shorthand [<owner>/.git]. *)
Theorem parse_repo_ref_shape value o r :
  parse_repo_ref value = Some (o, r) ->
  segment o
  ∧ all_chars not_slash r = true
  ∧ (r = "" -> Py.strip value = o +:+ "/.git").
Proof.
  intros H. apply parse_repo_ref_cases in H
    as [(scheme & body & sl & _ & _ & _ & Ho & Hbody & Hwg)
       |[(body & _ & Ho & Hbody & Hwg)
        |(body & Hraw & Ho & Hbody & ->)]].
  - destruct (without_git_name body r Hbody Hwg) as [Hne Hall]. done.
  - destruct (without_git_name body r Hbody Hwg) as [Hne Hall]. done.
  - split; [split; [apply Ho|by apply word_segment_no_slash]|].
    pose proof (word_segment_no_slash body Hbody) as Hall.
    destruct (removesuffix_cases ".git" body) as [Heq|Heq].
    + split.
      * rewrite Heq, all_chars_app in Hall. by apply andb_true_iff in Hall as [? _].
      * intros Hr. rewrite Hr, app_empty_l in Heq. by rewrite Hraw, Heq.
    + rewrite Heq. split; [done|]. intros ->. by destruct Hbody.
Qed.

Lemma parse_repo_ref_shape_witness :
  segment "acme" ∧ all_chars not_slash "" = true
  ∧ ("" = "" -> Py.strip "acme/.git" = "acme" +:+ "/.git").
Proof. exact (parse_repo_ref_shape "acme/.git" "acme" "" eq_refl). Defined.

(** ** Surrounding whitespace *)

Lemma lstrip_blank b : blank b -> Py.lstrip b = "".
Proof.
  unfold blank. induction b as [|c b IH]; [done|]. simpl.
  intros [Hc Hb]%andb_true_iff. rewrite Hc. by apply IH.
Qed.

Lemma rstrip_blank b : blank b -> Py.rstrip b = "".
Proof.
  unfold blank. induction b as [|c b IH]; [done|]. simpl.
  intros [Hc Hb]%andb_true_iff. by rewrite IH, Hc.
Qed.

Lemma lstrip_blank_app a s : blank a -> Py.lstrip (a +:+ s) = Py.lstrip s.
Proof.
  unfold blank. induction a as [|c a IH]; [done|]. rewrite app_cons. simpl.
  intros [Hc Ha]%andb_true_iff. rewrite Hc. by apply IH.
Qed.

Lemma rstrip_app_blank s b : blank b -> Py.rstrip (s +:+ b) = Py.rstrip s.
Proof.
  intros Hb. induction s as [|c s IH].
  - rewrite app_empty_l. by apply rstrip_blank.
  - rewrite app_cons. simpl. by rewrite IH.
Qed.

Lemma strip_app_blank v b : blank b -> Py.strip (v +:+ b) = Py.strip v.
Proof.
  intros Hb. unfold Py.strip. induction v as [|c v IH].
  - rewrite app_empty_l. by rewrite (lstrip_blank b Hb).
  - rewrite app_cons. simpl. destruct (Py.isspace c); [done|].
    rewrite <- app_cons. by apply rstrip_app_blank.
Qed.

Lemma strip_surrounded a v b :
  blank a -> blank b -> Py.strip (a +:+ v +:+ b) = Py.strip v.
Proof.
  intros Ha Hb. unfold Py.strip at 1. rewrite (lstrip_blank_app a _ Ha).
  by apply strip_app_blank.
Qed.

Lemma rstrip_head c s :
  Py.isspace c = false -> exists t, Py.rstrip (String c s) = String c t.
Proof.
  intros Hc. simpl. destruct (Py.rstrip s); rewrite ?Hc; eauto.
Qed.

Lemma lstrip_head s :
  Py.lstrip s = "" ∨ exists c t, Py.lstrip s = String c t ∧ Py.isspace c = false.
Proof.
  induction s as [|c s IH]; [by left|]. simpl.
  destruct (Py.isspace c) eqn:Hc; [done|]. right. eauto.
Qed.

Lemma rstrip_idem s : Py.rstrip (Py.rstrip s) = Py.rstrip s.
Proof.
  induction s as [|c s IH]; [done|]. simpl.
  destruct (Py.rstrip s) as [|d r] eqn:Hr.
  - destruct (Py.isspace c) eqn:Hc; [done|]. simpl. by rewrite Hc.
  - change (Py.rstrip (String c (String d r)))
      with (match Py.rstrip (String d r) with
            | "" => if Py.isspace c then "" else String c ""
            | r' => String c r'
            end).
    by rewrite IH.
Qed.

Lemma strip_idem s : Py.strip (Py.strip s) = Py.strip s.
Proof.
  unfold Py.strip. destruct (lstrip_head s) as [->|(c & t & -> & Hc)]; [done|].
  destruct (rstrip_head c t Hc) as [t' Ht]. rewrite Ht. simpl Py.lstrip.
  rewrite Hc, <- Ht. apply rstrip_idem.
Qed.

Lemma parse_repo_ref_strip value value' :
  Py.strip value' = Py.strip value -> parse_repo_ref value' = parse_repo_ref value.
Proof. intros H. unfold parse_repo_ref. by rewrite H. Qed.

(** X16. Whitespace around a reference does not change what the parser
    returns. *)
Theorem parse_repo_ref_ignores_blanks a value b :
  blank a -> blank b ->
  parse_repo_ref (a +:+ value +:+ b) = parse_repo_ref value.
Proof. intros Ha Hb. by apply parse_repo_ref_strip, strip_surrounded. Qed.

Lemma parse_repo_ref_ignores_blanks_witness :
  parse_repo_ref ("  " +:+ "acme/widgets" +:+ String "009" (String "010" ""))
  = parse_repo_ref "acme/widgets".
Proof.
  apply (parse_repo_ref_ignores_blanks "  " "acme/widgets" (String "009" (String "010" "")));
    reflexivity.
Defined.

(** ** The origin of a repository *)

Lemma split_head o r :
  all_chars not_slash o = true -> Py.split "/" (o +:+ String "/" r) = o :: Py.split "/" r.
Proof.
  induction o as [|c o IH]; [done|]. rewrite app_cons. simpl.
  intros [Hc Ho]%andb_true_iff. unfold not_slash in Hc.
  apply negb_true_iff in Hc. rewrite Hc, (IH Ho). done.
Qed.

Lemma contains_char_app c a b : contains_char c (a +:+ String c b) = true.
Proof.
  induction a as [|x a IH].
  - rewrite app_empty_l. simpl. by rewrite Ascii.eqb_refl.
  - rewrite app_cons. simpl. by rewrite IH, orb_true_r.
Qed.

Lemma owner_of_full_name_joined o r :
  segment o -> owner_of_full_name (Some (o +:+ "/" +:+ r)) = Some o.
Proof.
  intros [Hne Hall]. unfold owner_of_full_name.
  change (o +:+ "/" +:+ r) with (o +:+ String "/" r).
  rewrite contains_char_app, (split_head o r Hall), andb_true_r.
  destruct o; [done|]. done.
Qed.

(** X17. The node of a repository whose origin is a recognised reference
    carries [owner/repo] as its full name and the parsed owner as its owner;
    when [git] is missing or fails, or the URL is not recognised, both are
    null.  The owner is null only when the full name is. *)
Theorem make_node_origin name path proc :
  let node := make_node name path proc in
  node_name node = name ∧ node_path node = path
  ∧ (forall p o r,
       proc = Some p -> returncode p = 0 -> parse_repo_ref (stdout p) = Some (o, r) ->
       node_full_name node = Some (o +:+ "/" +:+ r) ∧ node_owner node = Some o)
  ∧ (proc = None
     ∨ (exists p, proc = Some p
                  ∧ (returncode p ≠ 0 ∨ parse_repo_ref (stdout p) = None)) ->
     node_full_name node = None ∧ node_owner node = None)
  ∧ (node_owner node = None <-> node_full_name node = None).
Proof.
  intros node. subst node. unfold make_node.
  cbn [node_name node_path node_full_name node_owner].
  split; [done|]. split; [done|].
  assert (Hparsed : forall p o r,
            proc = Some p -> returncode p = 0 ->
            parse_repo_ref (stdout p) = Some (o, r) ->
            parse_origin_full_name proc = Some (o +:+ "/" +:+ r)
            ∧ owner_of_full_name (parse_origin_full_name proc) = Some o).
  { intros p o r -> Hrc Hp. unfold parse_origin_full_name.
    rewrite bool_decide_eq_false_2 by (intros ?; done).
    rewrite (parse_repo_ref_strip (stdout p) (Py.strip (stdout p)) (strip_idem _)), Hp.
    split; [done|]. apply owner_of_full_name_joined.
    by apply parse_repo_ref_shape in Hp as [? _]. }
  split; [exact Hparsed|]. split.
  - intros [->|(p & -> & [Hrc|Hp])]; [done| |].
    + unfold parse_origin_full_name. by rewrite bool_decide_eq_true_2.
    + unfold parse_origin_full_name. case_bool_decide; [done|].
      by rewrite (parse_repo_ref_strip (stdout p) (Py.strip (stdout p)) (strip_idem _)), Hp.
  - split; [|by intros ->].
    destruct proc as [p|]; [|done].
    destruct (decide (returncode p = 0)) as [Hrc|Hrc].
    + destruct (parse_repo_ref (stdout p)) as [[o r]|] eqn:Hp.
      * destruct (Hparsed p o r eq_refl Hrc Hp) as [_ Ho]. rewrite Ho. done.
      * intros _. unfold parse_origin_full_name. case_bool_decide; [done|].
        by rewrite (parse_repo_ref_strip (stdout p) (Py.strip (stdout p)) (strip_idem _)), Hp.
    + intros _. unfold parse_origin_full_name. by rewrite bool_decide_eq_true_2.
Qed.

Lemma make_node_origin_witness :
  let node := make_node "widgets" "/srv/widgets"
                (Some (MkProcResult 0 ("git@github.com:acme/widgets.git" +:+ String "010" ""))) in
  node_full_name node = Some "acme/widgets" ∧ node_owner node = Some "acme".
Proof.
  exact (proj1 (proj2 (proj2
    (make_node_origin "widgets" "/srv/widgets"
       (Some (MkProcResult 0 ("git@github.com:acme/widgets.git" +:+ String "010" ""))))))
    _ "acme" "widgets" eq_refl eq_refl eq_refl).
Defined.

(** ** The allow list *)

Lemma elem_of_allowed_fold lines (acc : gset string) name :
  name ∈ foldl (fun allowed line =>
                  match parse_repo_ref line with
                  | Some parsed => allowed ∪ {[parsed.2]}
                  | None => allowed
                  end) acc lines
  <-> name ∈ acc ∨ exists line o, line ∈ lines ∧ parse_repo_ref line = Some (o, name).
Proof.
  revert acc. induction lines as [|l lines IH]; intros acc; simpl.
  - split; [by left|]. intros [?|(line & o & Hin & _)]; [done|].
    by apply elem_of_nil in Hin.
  - rewrite IH. split.
    + intros [Hacc|(line & o & Hin & Hp)].
      * destruct (parse_repo_ref l) as [[o r]|] eqn:Hl; [|by left].
        apply elem_of_union in Hacc as [?|Hs]; [by left|].
        apply elem_of_singleton in Hs. simpl in Hs. subst r.
        right. exists l, o. split; [apply list_elem_of_here|done].
      * right. exists line, o. split; [by apply list_elem_of_further|done].
    + intros [Hacc|(line & o & Hin & Hp)].
      * left. destruct (parse_repo_ref l); [|done]. apply elem_of_union. by left.
      * apply elem_of_cons in Hin as [->|Hin].
        -- left. rewrite Hp. apply elem_of_union. right. by apply elem_of_singleton.
        -- right. by exists line, o.
Qed.

(** X18. A name is allowed exactly when some line of the list file parses
    to a reference with that repository name; the owner written on the
    line plays no part. *)
Theorem load_allowed_repo_names_spec text name :
  name ∈ load_allowed_repo_names text <->
  exists line o, line ∈ Py.splitlines text ∧ parse_repo_ref line = Some (o, name).
Proof.
  unfold load_allowed_repo_names. rewrite elem_of_allowed_fold. split.
  - intros [H|H]; [|done]. by apply elem_of_empty in H.
  - by right.
Qed.

Lemma load_allowed_repo_names_spec_witness :
  "widgets" ∈ load_allowed_repo_names
                ("# repos" +:+ String "010" "https://github.com/acme/widgets.git").
Proof.
  apply (proj2 (load_allowed_repo_names_spec _ "widgets")).
  exists "https://github.com/acme/widgets.git", "acme".
  split; [|vm_compute; reflexivity].
  vm_compute. apply list_elem_of_further, list_elem_of_here.
Defined.

(** ** The selection of the repositories *)

Lemma lower_name_le_total x y : lower_name_le x y = false -> lower_name_le y x = true.
Proof. apply str_le_total. Qed.

Lemma lower_name_le_trans x y z :
  lower_name_le x y = true -> lower_name_le y z = true -> lower_name_le x z = true.
Proof. apply str_le_trans. Qed.

Lemma elem_of_discover entries d :
  d ∈ discover_repo_dirs entries <-> (d, true) ∈ entries.
Proof.
  unfold discover_repo_dirs. rewrite sorted_perm, list_elem_of_fmap. split.
  - intros ([d' b] & -> & Hin). apply list_elem_of_In, List.filter_In in Hin as [Hin Hb].
    simpl in *. subst b. by apply list_elem_of_In.
  - intros Hin. exists (d, true). split; [done|].
    apply list_elem_of_In, List.filter_In. split; [by apply list_elem_of_In|done].
Qed.

Lemma filter_sorted {A} (R : A -> A -> Prop) (f : A -> bool) l :
  StronglySorted R l -> StronglySorted R (List.filter f l).
Proof.
  induction 1 as [|x l Hl IH Hx]; simpl; [constructor|].
  destruct (f x); [|done]. constructor; [done|].
  apply Forall_forall. intros y Hy.
  apply list_elem_of_In, List.filter_In in Hy as [Hy _].
  rewrite Forall_forall in Hx. by apply Hx, list_elem_of_In.
Qed.

Lemma discover_sorted entries :
  StronglySorted (fun a b => lower_name_le a b = true) (discover_repo_dirs entries).
Proof.
  apply (sorted_sorted lower_name_le lower_name_le_total lower_name_le_trans).
Qed.

(** A successful set-up returns the discovered directories, or those of
    them that the list file allows when it yields a name. *)
Lemma select_repo_dirs_cases entries repo_list_file dirs :
  select_repo_dirs entries repo_list_file = inr dirs ->
  dirs ≠ []
  ∧ ((dirs = discover_repo_dirs entries
      ∧ forall text, repo_list_file = Some (Some text) ->
                     load_allowed_repo_names text = ∅)
     ∨ exists text,
         repo_list_file = Some (Some text)
         ∧ load_allowed_repo_names text ≠ ∅
         ∧ dirs = List.filter
                    (fun d => bool_decide (dir_name d ∈ load_allowed_repo_names text))
                    (discover_repo_dirs entries)).
Proof.
  unfold select_repo_dirs.
  destruct (discover_repo_dirs entries) as [|d0 ds] eqn:Hd; [done|].
  destruct repo_list_file as [[text|]|]; [|done|].
  - case_bool_decide as Hallowed.
    + destruct (List.filter _ (d0 :: ds)) as [|d1 ds1] eqn:Hf; [done|].
      intros [= <-]. split; [done|]. right. by exists text.
    + intros [= <-]. split; [done|]. left. split; [done|].
      intros text' [= <-]. destruct (decide (load_allowed_repo_names text = ∅)); done.
  - intros [= <-]. split; [done|]. left. split; [done|]. by intros text' [=].
Qed.

(** X19. When the set-up succeeds, the repositories to scan are not empty,
    are directories of the root that hold a [.git] directory, come in the
    order of their lower-cased names and, when the list file yields at
    least one name, are all allowed by it. *)
Theorem select_repo_dirs_ok entries repo_list_file dirs :
  select_repo_dirs entries repo_list_file = inr dirs ->
  dirs ≠ []
  ∧ (forall d, d ∈ dirs -> (d, true) ∈ entries)
  ∧ StronglySorted (fun a b => lower_name_le a b = true) dirs
  ∧ (forall text,
       repo_list_file = Some (Some text) ->
       load_allowed_repo_names text ≠ ∅ ->
       forall d, d ∈ dirs <->
                 ((d, true) ∈ entries ∧ dir_name d ∈ load_allowed_repo_names text)).
Proof.
  intros Hsel. apply select_repo_dirs_cases in Hsel as [Hne Hcases].
  split; [done|].
  destruct Hcases as [[-> Hempty]|(text & -> & Hallowed & ->)].
  - split; [intros d; apply elem_of_discover|]. split; [apply discover_sorted|].
    intros text Hfile Hallowed. by rewrite (Hempty text Hfile) in Hallowed.
  - assert (Hin : forall d,
              d ∈ List.filter
                    (fun d => bool_decide (dir_name d ∈ load_allowed_repo_names text))
                    (discover_repo_dirs entries)
              <-> ((d, true) ∈ entries ∧ dir_name d ∈ load_allowed_repo_names text)).
    { intros d. rewrite list_elem_of_In, List.filter_In, <- list_elem_of_In.
      by rewrite elem_of_discover, bool_decide_eq_true. }
    split; [intros d Hd; by apply Hin in Hd as [? _]|].
    split; [apply filter_sorted, discover_sorted|].
    intros text' [= <-] _. exact Hin.
Qed.

Lemma select_repo_dirs_ok_witness :
  [MkRepoDir "widgets" []] ≠ [].
Proof.
  exact (proj1 (select_repo_dirs_ok
    [(MkRepoDir "zeta" [], true); (MkRepoDir "notes" [], false); (MkRepoDir "widgets" [], true)]
    (Some (Some "acme/widgets"))
    [MkRepoDir "widgets" []] ltac:(vm_compute; reflexivity))).
Defined.

(** X20. A list file without a line that parses restricts nothing: the
    set-up ends as it does without a list file. *)
Theorem select_repo_dirs_unparsable_list entries text :
  (forall line, line ∈ Py.splitlines text -> parse_repo_ref line = None) ->
  select_repo_dirs entries (Some (Some text)) = select_repo_dirs entries None.
Proof.
  intros Hnone.
  assert (Hempty : load_allowed_repo_names text = ∅).
  { apply set_eq. intros name. unfold load_allowed_repo_names.
    rewrite elem_of_allowed_fold. split.
    - intros [H|(line & o & Hin & Hp)]; [done|]. by rewrite (Hnone line Hin) in Hp.
    - intros H. by apply elem_of_empty in H. }
  unfold select_repo_dirs. destruct (discover_repo_dirs entries) as [|d ds]; [done|].
  rewrite Hempty. rewrite bool_decide_eq_false_2; [done|]. intros H. by apply H.
Qed.

Lemma select_repo_dirs_unparsable_list_witness :
  select_repo_dirs [(MkRepoDir "widgets" [], true)]
    (Some (Some ("# nothing here" +:+ String "010" "not a reference")))
  = inr [MkRepoDir "widgets" []].
Proof.
  rewrite (select_repo_dirs_unparsable_list [(MkRepoDir "widgets" [], true)]
             ("# nothing here" +:+ String "010" "not a reference")); [reflexivity|].
  intros line Hin. vm_compute in Hin.
  apply elem_of_cons in Hin as [->|Hin]; [reflexivity|].
  apply list_elem_of_singleton in Hin as ->. reflexivity.
Defined.

(** * The classifier on paths *)

Lemma split_not_nil sep s : Py.split sep s ≠ [].
Proof.
  destruct s as [|c s]; simpl; [done|].
  destruct (Ascii.eqb c sep); [done|]. by destruct (Py.split sep s).
Qed.

Lemma split_app sep a b :
  Py.split sep (a +:+ String sep b) = Py.split sep a ++ Py.split sep b.
Proof.
  induction a as [|c a IH].
  - rewrite app_empty_l. simpl. by rewrite Ascii.eqb_refl.
  - rewrite app_cons. simpl. destruct (Ascii.eqb c sep); [by rewrite IH|].
    rewrite IH. pose proof (split_not_nil sep a).
    by destruct (Py.split sep a).
Qed.

Lemma split_single sep b :
  all_chars (fun c => negb (Ascii.eqb c sep)) b = true -> Py.split sep b = [b].
Proof.
  induction b as [|c b IH]; [done|]. simpl.
  intros [Hc Hb]%andb_true_iff. apply negb_true_iff in Hc. by rewrite Hc, (IH Hb).
Qed.

Lemma replace_app x y a b :
  Py.replace x y (a +:+ b) = Py.replace x y a +:+ Py.replace x y b.
Proof. induction a as [|c a IH]; [done|]. rewrite app_cons. simpl. by rewrite IH. Qed.

Lemma replace_plain name :
  all_chars plain_char name = true -> Py.replace "\" "/" name = name.
Proof.
  induction name as [|c s IH]; [done|]. simpl.
  intros [Hc Hs]%andb_true_iff. rewrite (IH Hs).
  unfold plain_char in Hc. apply andb_true_iff in Hc as [_ Hc].
  apply negb_true_iff in Hc. by rewrite Hc.
Qed.

Lemma replace_idem x y s : x ≠ y -> Py.replace x y (Py.replace x y s) = Py.replace x y s.
Proof.
  intros Hne. induction s as [|c s IH]; [done|]. simpl. rewrite IH. f_equal.
  destruct (Ascii.eqb c x) eqn:Hc; [|by rewrite Hc].
  destruct (Ascii.eqb y x) eqn:Hy; [|done]. apply Ascii.eqb_eq in Hy. congruence.
Qed.

Lemma plain_no_slash name :
  all_chars plain_char name = true ->
  all_chars (fun c => negb (Ascii.eqb c "/")) name = true.
Proof.
  apply all_chars_impl. intros c. unfold plain_char. by intros [? _]%andb_true_iff.
Qed.

(** The normalised path and the base name of a file in a directory. *)
Lemma path_in_dir dir sep name :
  sep ∈ separators -> all_chars plain_char name = true ->
  Py.replace "\" "/" (dir +:+ sep +:+ name)
  = Py.replace "\" "/" dir +:+ String "/" name
  ∧ Py.last_item (Py.split "/" (Py.replace "\" "/" (dir +:+ sep +:+ name))) = Some name.
Proof.
  intros Hsep Hname.
  assert (Hrel : Py.replace "\" "/" (dir +:+ sep +:+ name)
                 = Py.replace "\" "/" dir +:+ String "/" name).
  { rewrite !replace_app, (replace_plain name Hname).
    unfold separators in Hsep.
    apply elem_of_cons in Hsep as [->|Hsep]; [done|].
    by apply list_elem_of_singleton in Hsep as ->. }
  split; [done|]. rewrite Hrel, split_app.
  rewrite (split_single "/" name (plain_no_slash name Hname)).
  unfold Py.last_item. by rewrite last_snoc.
Qed.

Lemma base_of_plain name :
  all_chars plain_char name = true ->
  Py.replace "\" "/" name = name
  ∧ Py.last_item (Py.split "/" (Py.replace "\" "/" name)) = Some name.
Proof.
  intros Hname. rewrite (replace_plain name Hname). split; [done|].
  by rewrite (split_single "/" name (plain_no_slash name Hname)).
Qed.

Lemma prefix_app p s : String.prefix p (p +:+ s) = true.
Proof.
  induction p as [|c p IH]; [by destruct s|]. rewrite app_cons. simpl.
  destruct (ascii_dec c c); [done|congruence].
Qed.

Ltac manifest_cases H :=
  repeat (apply elem_of_cons in H as [H|H]; [inversion H; subst; clear H|]);
  try (by apply elem_of_nil in H).

(** X21. A manifest file is classified by its base name alone, whatever
    the directory it lies in and whichever separator the path uses, also
    below the workflows directory. *)
Theorem classify_manifest_by_base_name dir sep name tag :
  sep ∈ separators -> (name, tag) ∈ manifest_types ->
  classify_relation_type (dir +:+ sep +:+ name) = tag
  ∧ classify_relation_type name = tag.
Proof.
  intros Hsep Hin. unfold manifest_types in Hin.
  split.
  - unfold classify_relation_type.
    manifest_cases Hin;
      match goal with
      | |- context [Py.last_item (Py.split _ (Py.replace _ _ (dir +:+ sep +:+ ?n)))] =>
          rewrite (proj2 (path_in_dir dir sep n Hsep eq_refl))
      end; reflexivity.
  - manifest_cases Hin; reflexivity.
Qed.

Lemma classify_manifest_by_base_name_witness :
  classify_relation_type (".github/workflows/tools" +:+ "\" +:+ "go.mod") = "go_module"
  ∧ classify_relation_type "go.mod" = "go_module".
Proof.
  apply (classify_manifest_by_base_name ".github/workflows/tools" "\" "go.mod" "go_module").
  - apply list_elem_of_further, list_elem_of_here.
  - apply list_elem_of_here.
Defined.

(** X22. Below the workflows directory a container file is a workflow
    reference, elsewhere it is a container reference; and a path written
    with backslashes is classified as the same path written with
    slashes. *)
Theorem classify_container_files dir sep name path :
  sep ∈ separators -> name ∈ container_files ->
  classify_relation_type (".github/workflows/" +:+ dir +:+ sep +:+ name) = "github_action"
  ∧ classify_relation_type (".github/workflows/" +:+ name) = "github_action"
  ∧ classify_relation_type name = "container_reference"
  ∧ classify_relation_type (Py.replace "\" "/" path) = classify_relation_type path.
Proof.
  intros Hsep Hin. unfold container_files in Hin.
  split; [|split; [|split]].
  - unfold classify_relation_type. rewrite <- app_assoc_s.
    manifest_cases Hin;
      match goal with
      | |- context [Py.last_item (Py.split _ (Py.replace _ _ (?d +:+ sep +:+ ?n)))] =>
          destruct (path_in_dir d sep n Hsep eq_refl) as [Hrel Hbase];
          rewrite Hbase, Hrel
      end;
      rewrite replace_app, app_assoc_s;
      change (Py.replace "\" "/" ".github/workflows/") with ".github/workflows/";
      unfold Py.startswith; rewrite prefix_app; reflexivity.
  - unfold classify_relation_type.
    manifest_cases Hin; reflexivity.
  - manifest_cases Hin; reflexivity.
  - unfold classify_relation_type. by rewrite replace_idem.
Qed.

Lemma classify_container_files_witness :
  classify_relation_type (".github/workflows/" +:+ "images" +:+ "/" +:+ "Dockerfile")
  = "github_action".
Proof.
  apply (classify_container_files "images" "/" "Dockerfile" "a\b").
  - apply list_elem_of_here.
  - apply list_elem_of_here.
Defined.

(** * Completeness of the alias collector *)

Lemma foldl_reaches {A B} (P : A -> Prop) (f : A -> B -> A) l x a :
  x ∈ l -> (forall a, P (f a x)) -> (forall a y, P a -> P (f a y)) -> P (foldl f a l).
Proof.
  intros Hin Hx Hkeep. revert a. induction l as [|y l IH]; intros a.
  - by apply elem_of_nil in Hin.
  - simpl. apply elem_of_cons in Hin as [->|Hin]; [|by apply IH].
    generalize (f a y) (Hx a). clear IH. induction l as [|z l IH]; intros b Hb; [done|].
    simpl. apply IH. by apply Hkeep.
Qed.

Lemma foldl_keeps {A B} (P : A -> Prop) (f : A -> B -> A) l a :
  (forall a y, P a -> P (f a y)) -> P a -> P (foldl f a l).
Proof.
  intros Hkeep. revert a. induction l as [|y l IH]; intros a Ha; [done|].
  simpl. by apply IH, Hkeep.
Qed.

Lemma add_alias_keeps (aliases : gmap string (gset string)) r p r' p' :
  p ∈ default ∅ (aliases !! r) -> p ∈ default ∅ (add_alias aliases r' p' !! r).
Proof.
  intros Hin. unfold add_alias. destruct (decide (r' = r)) as [->|Hne].
  - rewrite lookup_insert_eq. simpl. apply elem_of_union. by left.
  - by rewrite lookup_insert_ne.
Qed.

Lemma add_alias_adds (aliases : gmap string (gset string)) r p :
  p ∈ default ∅ (add_alias aliases r p !! r).
Proof.
  unfold add_alias. rewrite lookup_insert_eq. simpl.
  apply elem_of_union. right. by apply elem_of_singleton.
Qed.

Lemma collect_go_mod_keeps known aliases content r p :
  p ∈ default ∅ (aliases !! r) ->
  p ∈ default ∅ (collect_go_mod known aliases content !! r).
Proof.
  intros Hin.
  destruct (collect_go_mod_step known aliases content) as [->|(r' & p' & _ & ->)];
    [done|by apply add_alias_keeps].
Qed.

Lemma path_parts_nonempty p x : x ∈ path_parts p -> nonempty x = true.
Proof.
  unfold path_parts. intros Hin. by apply list_elem_of_In, List.filter_In in Hin as [_ ?].
Qed.

Lemma module_repo_name_nonempty known p r :
  module_repo_name known p = Some r -> nonempty r = true ∧ nonempty p = true.
Proof.
  intros H. apply module_repo_name_condition in H as [_ Hc].
  assert (Hin : r ∈ path_parts p).
  { destruct Hc as [Hlast|(front & v & Heq & _)].
    - apply last_Some in Hlast as [l' ->]. apply elem_of_app. right.
      by apply list_elem_of_singleton.
    - rewrite Heq. apply elem_of_app. right. apply list_elem_of_here. }
  split; [by eapply path_parts_nonempty|].
  destruct p; [|done]. by apply elem_of_nil in Hin.
Qed.

(** X23. Every readable [go.mod] of a scanned repository whose module
    path ends with a known repository name, or with one followed by a
    version segment, makes that path an alias of the repository; files that
    cannot be read and files of other repositories take nothing away. *)
Theorem collect_go_module_aliases_complete dirs known d text p r :
  d ∈ dirs -> Some text ∈ go_mod_files d ->
  first_module_path (Py.splitlines text) = Some p ->
  module_repo_name known p = Some r ->
  exists S, collect_go_module_aliases dirs known !! r = Some S ∧ p ∈ S.
Proof.
  intros Hd Hf Hp Hr.
  assert (Hin : p ∈ default ∅ (collect_go_module_aliases dirs known !! r)).
  { unfold collect_go_module_aliases.
    apply (foldl_reaches (fun al : gmap string (gset string) => p ∈ default ∅ (al !! r))
             _ dirs d); [done| |].
    - intros al.
      apply (foldl_reaches (fun al : gmap string (gset string) => p ∈ default ∅ (al !! r))
               _ (go_mod_files d) (Some text)); [done| |].
      + intros al'. unfold collect_go_mod. rewrite Hp, Hr.
        destruct (module_repo_name_nonempty known p r Hr) as [-> ->].
        apply add_alias_adds.
      + intros al' c. apply collect_go_mod_keeps.
    - intros al d' Hal. apply foldl_keeps; [|done].
      intros al' c. apply collect_go_mod_keeps. }
  destruct (collect_go_module_aliases dirs known !! r) as [S|]; [by exists S|].
  by apply elem_of_empty in Hin.
Qed.

Lemma collect_go_module_aliases_complete_witness :
  exists S,
    collect_go_module_aliases
      [MkRepoDir "tools" [None]; MkRepoDir "transform" [None; Some "module example.net/transform/v2"]]
      {["tools"; "transform"]} !! "transform" = Some S
    ∧ "example.net/transform/v2" ∈ S.
Proof.
  apply (collect_go_module_aliases_complete _ _
           (MkRepoDir "transform" [None; Some "module example.net/transform/v2"])
           "module example.net/transform/v2").
  - apply list_elem_of_further, list_elem_of_here.
  - apply list_elem_of_further, list_elem_of_here.
  - vm_compute. reflexivity.
  - vm_compute. reflexivity.
Defined.

(** * The alias table and the search patterns *)

(** The loops over the names and their aliases, as one loop over the pairs
    [(repo, alias)]. *)
Lemma alias_table_pairs names al :
  alias_table names al
  = foldl (fun '(alias_values, alias_to_repo) '(repo, alias) =>
             (alias_values ++ [alias], <[Py.lower alias := repo]> alias_to_repo))
          ([], ∅)
          (flat_map (fun repo => (fun alias => (repo, alias)) <$> aliases_of al repo) names).
Proof.
  unfold alias_table. rewrite foldl_flat_map. apply foldl_pointwise.
  intros acc repo. rewrite foldl_fmap. apply foldl_pointwise. by intros [v t] a.
Qed.

Lemma alias_values_of_pairs names al :
  alias_values_of names al
  = foldl (fun alias_values '(repo, alias) => alias_values ++ [alias]) []
          (flat_map (fun repo => (fun alias => (repo, alias)) <$> aliases_of al repo) names).
Proof.
  unfold alias_values_of. rewrite foldl_flat_map. apply foldl_pointwise.
  intros acc repo. rewrite foldl_fmap. by apply foldl_pointwise.
Qed.

Lemma alias_pairs_fold (pairs : list (string * string)) :
  let res := foldl (fun '(alias_values, alias_to_repo) '(repo, alias) =>
                      (alias_values ++ [alias],
                       <[Py.lower alias := repo]> (alias_to_repo : gmap string string)))
                   ([], ∅) pairs in
  res.1 = pairs.*2
  ∧ res.1 = foldl (fun alias_values '(repo, alias) => alias_values ++ [alias]) [] pairs
  ∧ (forall k r, res.2 !! k = Some r ->
                 exists alias, (r, alias) ∈ pairs ∧ Py.lower alias = k)
  ∧ (forall r alias, (r, alias) ∈ pairs -> is_Some (res.2 !! Py.lower alias)).
Proof.
  induction pairs as [|[r a] pairs IH] using rev_ind.
  - simpl. split; [done|]. split; [done|]. split.
    + intros k r. by rewrite lookup_empty.
    + intros r alias Hin. by apply elem_of_nil in Hin.
  - cbv zeta in *. rewrite !foldl_app. cbn [foldl].
    destruct (foldl _ ([], ∅) pairs) as [vals tbl]. cbn [fst snd] in *.
    destruct IH as (Hvals & Hvals' & Hsound & Hcompl).
    split; [by rewrite fmap_app, Hvals|]. split; [by rewrite Hvals'|]. split.
    + intros k r'. destruct (decide (Py.lower a = k)) as [<-|Hne].
      * rewrite lookup_insert_eq. intros [= <-]. exists a. split; [|done].
        apply elem_of_app. right. by apply list_elem_of_singleton.
      * rewrite lookup_insert_ne by done. intros Hl.
        destruct (Hsound k r' Hl) as (alias & Hin & Hlow). exists alias.
        split; [|done]. apply elem_of_app. by left.
    + intros r' alias Hin. destruct (decide (Py.lower a = Py.lower alias)) as [Heq|Hne].
      * rewrite Heq, lookup_insert_eq. done.
      * rewrite lookup_insert_ne by done.
        apply elem_of_app in Hin as [Hin|Hin]; [by eapply Hcompl|].
        apply list_elem_of_singleton in Hin. congruence.
Qed.

Lemma elem_of_alias_pairs names (al : gmap string (gset string)) r alias :
  (r, alias) ∈ flat_map (fun repo => (fun alias => (repo, alias))
                                       <$> aliases_of (Some al) repo) names
  <-> r ∈ names ∧ alias ∈ default ∅ (al !! r).
Proof.
  rewrite elem_of_flat_map. unfold aliases_of. split.
  - intros (repo & Hrepo & Hin). apply list_elem_of_fmap in Hin as (a & [= -> ->] & Hin).
    rewrite sorted_perm in Hin. apply elem_of_elements in Hin. done.
  - intros [Hr Ha]. exists r. split; [done|]. apply list_elem_of_fmap.
    exists alias. split; [done|]. rewrite sorted_perm. by apply elem_of_elements.
Qed.

Lemma alias_values_of_table names al :
  alias_values_of names al = (alias_table names al).1.
Proof.
  rewrite alias_values_of_pairs, alias_table_pairs.
  by destruct (alias_pairs_fold
                 (flat_map (fun repo => (fun alias => (repo, alias))
                                          <$> aliases_of al repo) names))
    as (_ & -> & _).
Qed.

(** X24. The alias table of a batch maps a key to a repository of the
    batch one of whose aliases lower-cases to the key, and it has an entry
    for the lower-cased form of every alias of every repository of the
    batch; the alias values are those aliases. *)
Theorem alias_table_sound names (al : gmap string (gset string)) :
  let alias_values := (alias_table names (Some al)).1 in
  let alias_to_repo := (alias_table names (Some al)).2 in
  (forall k r, alias_to_repo !! k = Some r ->
               r ∈ names ∧ exists alias, alias ∈ default ∅ (al !! r)
                                         ∧ Py.lower alias = k)
  ∧ (forall r alias, r ∈ names -> alias ∈ default ∅ (al !! r) ->
                     alias ∈ alias_values ∧ is_Some (alias_to_repo !! Py.lower alias))
  ∧ (forall alias, alias ∈ alias_values ->
                   exists r, r ∈ names ∧ alias ∈ default ∅ (al !! r)).
Proof.
  cbv zeta. rewrite alias_table_pairs.
  destruct (alias_pairs_fold
              (flat_map (fun repo => (fun alias => (repo, alias))
                                       <$> aliases_of (Some al) repo) names))
    as (Hvals & _ & Hsound & Hcompl).
  cbv zeta in *. split; [|split].
  - intros k r Hl. destruct (Hsound k r Hl) as (alias & Hin & Hlow).
    apply elem_of_alias_pairs in Hin as [Hr Ha]. split; [done|]. by exists alias.
  - intros r alias Hr Ha.
    assert (Hin : (r, alias) ∈ flat_map (fun repo => (fun alias => (repo, alias))
                                       <$> aliases_of (Some al) repo) names)
      by by apply elem_of_alias_pairs.
    split; [|by eapply Hcompl].
    rewrite Hvals. by apply (list_elem_of_fmap_2 snd _ (r, alias)).
  - intros alias Hin. rewrite Hvals in Hin.
    apply list_elem_of_fmap in Hin as ([r a] & -> & Hin).
    apply elem_of_alias_pairs in Hin. by exists r.
Qed.

Lemma alias_table_sound_witness :
  let al : gmap string (gset string) := {["transform" := {["Example.net/Transform"]}]} in
  "transform" ∈ ["tools"; "transform"]
  ∧ exists alias, alias ∈ default ∅ (al !! "transform")
                  ∧ Py.lower alias = "example.net/transform".
Proof.
  intros al.
  apply (proj1 (alias_table_sound ["tools"; "transform"] al) "example.net/transform").
  vm_compute. reflexivity.
Defined.

(** ** Patterns without their groups *)

Lemma same_end_join (x y z : option Re.mstate) :
  same_end x z -> same_end y z -> same_end x y.
Proof.
  destruct x, y, z; simpl; try done. unfold same_place. intros [? ?] [? ?].
  split; congruence.
Qed.

Section Erase.
Context (ic : bool).

Lemma star_greedy_same cs s pv cp cp' k k' :
  (forall st st', same_place st st' -> same_end (k st) (k' st')) ->
  same_end (Re.star_greedy ic cs s pv cp k) (Re.star_greedy ic cs s pv cp' k').
Proof.
  intros Hk. revert pv. induction s as [|c t IH]; intros pv; simpl.
  - by apply Hk.
  - destruct (Re.in_set ic cs c); [|by apply Hk].
    specialize (IH (Some c)).
    destruct (Re.star_greedy ic cs t (Some c) cp k),
             (Re.star_greedy ic cs t (Some c) cp' k'); simpl in IH; try done.
    by apply Hk.
Qed.

Lemma star_lazy_same cs s pv cp cp' k k' :
  (forall st st', same_place st st' -> same_end (k st) (k' st')) ->
  same_end (Re.star_lazy ic cs s pv cp k) (Re.star_lazy ic cs s pv cp' k').
Proof.
  intros Hk. revert pv. induction s as [|c t IH]; intros pv; simpl.
  - assert (H : same_end (k (Re.MState pv "" cp)) (k' (Re.MState pv "" cp')))
      by by apply Hk.
    by destruct (k _), (k' _).
  - assert (H : same_end (k (Re.MState pv (String c t) cp))
                         (k' (Re.MState pv (String c t) cp')))
      by by apply Hk.
    destruct (k _), (k' _); simpl in H; try done.
    destruct (Re.in_set ic cs c); [apply IH|done].
Qed.

Lemma run_erase r st st' k k' :
  same_place st st' ->
  (forall s s', same_place s s' -> same_end (k s) (k' s')) ->
  same_end (Re.run ic r st k) (Re.run ic (erase_groups r) st' k').
Proof.
  revert st st' k k'.
  induction r as [l|cs|r1 IH1 r2 IH2|r1 IH1 r2 IH2|r1 IH1|cs|cs|cs|name r1 IH1| | |];
    intros st st' k k' Hst Hk; pose proof Hst as [Hp Hr];
    cbn [erase_groups Re.run].
  - rewrite Hp, Hr. destruct (Re.lit ic l _ _) as [[pv s]|]; [|done]. by apply Hk.
  - rewrite Hr. destruct (Re.rest st') as [|c t]; [done|].
    destruct (Re.in_set ic cs c); [|done]. by apply Hk.
  - apply IH1; [done|]. intros s s' Hs. by apply IH2.
  - pose proof (IH1 st st' k k' Hst Hk) as H1.
    destruct (Re.run ic r1 st k), (Re.run ic (erase_groups r1) st' k');
      simpl in H1; try done. by apply IH2.
  - pose proof (IH1 st st' k k' Hst Hk) as H1.
    destruct (Re.run ic r1 st k), (Re.run ic (erase_groups r1) st' k');
      simpl in H1; try done. by apply Hk.
  - rewrite Hp, Hr. by apply star_greedy_same.
  - rewrite Hr. destruct (Re.rest st') as [|c t]; [done|].
    destruct (Re.in_set ic cs c); [|done]. by apply star_greedy_same.
  - rewrite Hr. destruct (Re.rest st') as [|c t]; [done|].
    destruct (Re.in_set ic cs c); [|done]. by apply star_lazy_same.
  - apply IH1; [done|]. intros s s' [Hp' Hr']. apply Hk. by split.
  - rewrite Hp. destruct (Re.prev st'); [done|]. by apply Hk.
  - rewrite Hr. destruct (Re.at_end _); [|done]. by apply Hk.
  - rewrite Hp, Hr. destruct (xorb _ _); [|done]. by apply Hk.
Qed.

Lemma run_same_end r1 r2 st k :
  erase_groups r1 = erase_groups r2 ->
  (forall s s', same_place s s' -> same_end (k s) (k s')) ->
  same_end (Re.run ic r1 st k) (Re.run ic r2 st k).
Proof.
  intros Heq Hk.
  pose proof (run_erase r1 st st k k (conj eq_refl eq_refl) Hk) as H1.
  pose proof (run_erase r2 st st k k (conj eq_refl eq_refl) Hk) as H2.
  rewrite Heq in H1. by eapply same_end_join.
Qed.

Lemma some_same_end s s' : same_place s s' -> same_end (Some s) (Some s').
Proof. done. Qed.

Lemma nonempty_end_same_end text s s' :
  same_place s s' -> same_end (Re.nonempty_end text s) (Re.nonempty_end text s').
Proof.
  intros [Hp Hr]. unfold Re.nonempty_end. rewrite Hr.
  by destruct (Re.consumed_len _ _).
Qed.

Lemma scan_erase r1 r2 :
  erase_groups r1 = erase_groups r2 ->
  forall s pv skip,
    Re.group0 <$> Re.scan ic r1 pv s skip = Re.group0 <$> Re.scan ic r2 pv s skip.
Proof.
  intros Heq s.
  assert (Hstep : forall s pv skip,
            (forall n, (match s with
                        | String c t => Re.group0 <$> Re.scan ic r1 (Some c) t n
                        | EmptyString => []
                        end)
                       = match s with
                         | String c t => Re.group0 <$> Re.scan ic r2 (Some c) t n
                         | EmptyString => []
                         end) ->
            Re.group0 <$> Re.scan ic r1 pv s skip = Re.group0 <$> Re.scan ic r2 pv s skip).
  { clear s. intros s pv skip Hnext.
    rewrite (scan_unfold ic r1), (scan_unfold ic r2). cbv zeta.
    assert (Hnext' : forall n,
              Re.group0 <$> (match s with
                             | String c t => Re.scan ic r1 (Some c) t n
                             | EmptyString => []
                             end)
              = Re.group0 <$> (match s with
                               | String c t => Re.scan ic r2 (Some c) t n
                               | EmptyString => []
                               end)).
    { intros n. specialize (Hnext n). by destruct s. }
    destruct skip as [|n]; [|apply Hnext'].
    pose proof (run_same_end r1 r2 (Re.MState pv s []) Some Heq some_same_end) as H1.
    pose proof (run_same_end r1 r2 (Re.MState pv s []) (Re.nonempty_end s) Heq
                  (nonempty_end_same_end s)) as H2.
    destruct (Re.run ic r1 (Re.MState pv s []) Some) as [x1|],
             (Re.run ic r2 (Re.MState pv s []) Some) as [x2|];
      simpl in H1; [|done|done|apply Hnext'].
    destruct H1 as [_ Hr1]. unfold Re.mk_match. rewrite Hr1.
    destruct (Re.consumed_len s (Re.rest x2)).
    - rewrite !fmap_cons. cbn [Re.group0]. f_equal.
      destruct (Re.run ic r1 (Re.MState pv s []) (Re.nonempty_end s)) as [y1|],
               (Re.run ic r2 (Re.MState pv s []) (Re.nonempty_end s)) as [y2|];
        simpl in H2; [|done|done|apply Hnext'].
      destruct H2 as [_ Hr2]. rewrite Hr2. rewrite !fmap_cons. cbn [Re.group0].
      f_equal. apply Hnext'.
    - rewrite !fmap_cons. cbn [Re.group0]. f_equal. apply Hnext'. }
  induction s as [|c t IH]; intros pv skip; apply Hstep; [done|].
  intros n. apply IH.
Qed.
End Erase.

Lemma finditer_erase r1 r2 line :
  erase_groups r1 = erase_groups r2 ->
  Re.group0 <$> Re.finditer (Re.compile r1 true) line
  = Re.group0 <$> Re.finditer (Re.compile r2 true) line.
Proof. intros Heq. unfold Re.compile. cbn [Re.finditer]. by apply scan_erase. Qed.

(** X25. The patterns handed to the search tool and the extractors of the
    same batch go in pairs: read by the same matcher with the same flag, a
    pattern and its extractor match the same texts of every line, the named
    groups being the only difference.  There is no pattern exactly when
    there is no extractor. *)
Theorem build_patterns_mirror_extractors names org al :
  Forall2 (fun p (e : Extractor) =>
             forall line,
               Re.group0 <$> Re.finditer (Re.compile p true) line
               = Re.group0 <$> Re.finditer e.1 line)
          (build_patterns names org al) (build_extractors names org al)
  ∧ (build_patterns names org al = [] <-> build_extractors names org al = []).
Proof.
  assert (HF : Forall2 (fun p (e : Extractor) =>
             forall line,
               Re.group0 <$> Re.finditer (Re.compile p true) line
               = Re.group0 <$> Re.finditer e.1 line)
          (build_patterns names org al) (build_extractors names org al)).
  { unfold build_patterns, build_extractors. rewrite alias_values_of_table.
    destruct (alt_is_empty _); [constructor|].
    destruct (alias_table names al) as [vals tbl]. cbn [fst].
    assert (H1 : forall line,
              Re.group0 <$> Re.finditer
                (Re.compile (github_url_pattern (Py.sorted longer_first names)) true) line
              = Re.group0 <$> Re.finditer
                (Re.compile (github_url_re (Py.sorted longer_first names)) true) line).
    { intros line. by apply finditer_erase. }
    assert (H2 : forall o line,
              Re.group0 <$> Re.finditer
                (Re.compile (org_pattern o (Py.sorted longer_first names)) true) line
              = Re.group0 <$> Re.finditer
                (Re.compile (org_re o (Py.sorted longer_first names)) true) line).
    { intros o line. by apply finditer_erase. }
    assert (H3 : forall line,
              Re.group0 <$> Re.finditer
                (Re.compile (alias_pattern (alias_alternatives vals)) true) line
              = Re.group0 <$> Re.finditer
                (Re.compile (alias_re (alias_alternatives vals)) true) line).
    { intros line. by apply finditer_erase. }
    destruct org as [o|]; [destruct (nonempty o)|]; destruct vals as [|v vals];
      cbn [app]; repeat constructor; cbn [fst]; auto. }
  split; [done|].
  apply Forall2_length in HF.
  destruct (build_patterns names org al), (build_extractors names org al);
    simpl in HF; try done.
Qed.

Lemma build_patterns_mirror_extractors_witness :
  build_patterns [""] (Some "acme") None = [].
Proof.
  apply (proj2 (proj2 (build_patterns_mirror_extractors [""] (Some "acme") None))).
  reflexivity.
Defined.

(** * Aliases are matched without regard to case *)





Section AliasCase.
Context (path : string).
Hypothesis path_starts : Re.word_opt (Re.next_char path) = true.
Hypothesis path_ends : Re.word_opt (last_char None path) = true.


End AliasCase.



(** * The URL extractor *)

Lemma in_set_true ic (cs : Re.charset) c : cs c = true -> Re.in_set ic cs c = true.
Proof. unfold Re.in_set. intros ->. by destruct ic. Qed.

Lemma all_chars_in_set ic (cs : Re.charset) s :
  all_chars cs s = true -> all_chars (Re.in_set ic cs) s = true.
Proof. apply all_chars_impl. intros c. apply in_set_true. Qed.

(** The URL pattern at the start of [github.com/<owner>/<occ><post>], where
    [occ] is the name up to case: it matches, with [occ] as the repository
    and with the owner, whatever [post] is. *)
Lemma url_run name occ owner post pv :
  lit_eq true name occ = true -> owner ≠ "" -> all_chars owner_char owner = true ->
  exists x,
    Re.run true (github_url_re [name])
      (Re.MState pv ("github.com/" +:+ owner +:+ "/" +:+ occ +:+ post) []) Some = Some x
    ∧ Re.caps x = [("repo", occ); ("owner", owner)]
    ∧ (String.length (Re.rest x) <= String.length post)%nat.
Proof.
  intros Hocc Hne Hall.
  destruct owner as [|c o]; [done|]. simpl in Hall.
  apply andb_true_iff in Hall as [Hc Ho].
  unfold github_url_re, alt_of.
  cbn [fmap list_fmap Re.alts Re.cat].
  change ("github.com/" +:+ String c o +:+ "/" +:+ occ +:+ post)
    with ("github.com" +:+ String "/" (String c (o +:+ String "/" (occ +:+ post)))).
  cbn [Re.run Re.prev Re.rest Re.caps].
  rewrite (lit_app true "github.com" "github.com") by reflexivity.
  change (Re.in_set true colon_or_slash "/") with true. cbn iota.
  rewrite (in_set_true true owner_char c Hc).
  match goal with
  | |- exists x, Re.star_greedy _ _ _ _ _ ?k = Some x ∧ _ => set (K := k)
  end.
  assert (HK : exists x,
            K (Re.MState (last_char (Some c) o) (String "/" (occ +:+ post)) []) = Some x
            ∧ Re.caps x = [("repo", occ); ("owner", String c o)]
            ∧ (String.length (Re.rest x) <= String.length post)%nat).
  { subst K. cbn [Re.prev Re.rest Re.caps].
    change (Re.lit true "/" (last_char (Some c) o) (String "/" (occ +:+ post)))
      with (Some (Some "/"%char, occ +:+ post)).
    cbn iota. rewrite (lit_app true name occ) by done.
    rewrite consumed_app, consumed_cons_app.
    destruct (Re.lit true ".git" _ post) as [[pv2 s1]|] eqn:E.
    - eexists. split; [done|]. split; [done|]. cbn [Re.rest].
      apply lit_inv in E as (a & -> & _). rewrite length_app_s. lia.
    - eexists. split; [done|]. split; [done|]. cbn [Re.rest]. lia. }
  destruct HK as (x & HK & Hcaps & Hlen). exists x. split; [|done].
  apply star_greedy_longest; [by apply all_chars_in_set|reflexivity|exact HK].
Qed.

Section ScanHead.
Context (ic : bool) (r : Re.regex).

Lemma scan_head pv s x :
  Re.run ic r (Re.MState pv s []) Some = Some x ->
  exists tl, Re.scan ic r pv s 0 = Re.mk_match s x :: tl.
Proof.
  intros Hrun. rewrite scan_unfold. cbv zeta. rewrite Hrun.
  destruct (Re.consumed_len s (Re.rest x)); eauto.
Qed.


End ScanHead.

Lemma url_extractors name org al :
  name ≠ "" ->
  exists others,
    build_extractors [name] org al
    = (Re.compile (github_url_re [name]) true, None) :: others.
Proof.
  intros Hne. unfold build_extractors.
  change (Py.sorted longer_first [name]) with [name]. cbn [alt_is_empty].
  apply String.eqb_neq in Hne. rewrite Hne.
  destruct (alias_table [name] al) as [vals tbl].
  destruct org as [o|]; [destruct (nonempty o)|]; destruct vals; cbn [app]; eauto.
Qed.


Lemma url_resolved occ owner x line :
  Re.caps x = [("repo", occ); ("owner", owner)] ->
  resolve_match None (Re.mk_match line x) = (Some occ, Some owner).
Proof.
  intros Hcaps. unfold resolve_match, Re.group, Re.mk_match. cbn [Re.groups].
  rewrite Hcaps. reflexivity.
Qed.

(** X27. The URL pattern asks for no boundary after the repository name:
    a line that begins with [github.com/<owner>/<name>] resolves to the
    target [name] with that owner whatever follows the name, also when more
    name characters follow. *)
Theorem url_reference_any_continuation name owner post org al (known : gset string) :
  name ≠ "" -> name ∈ known ->
  owner ≠ "" -> all_chars owner_char owner = true ->
  (name, Some owner)
    ∈ extract_targets ("github.com/" +:+ owner +:+ "/" +:+ name +:+ post)
        (build_extractors [name] org al) known.
Proof.
  intros Hname Hknown Howner Hall.
  destruct (url_extractors name org al Hname) as [others ->].
  destruct (url_run name name owner post None (lit_eq_refl true name) Howner Hall)
    as (x & Hrun & Hcaps & _).
  destruct (scan_head true (github_url_re [name]) None _ x Hrun) as [tl Hscan].
  apply elem_of_extract_targets. rewrite owners_of_line_lookup.
  rewrite bool_decide_eq_true_2 by done.
  unfold resolved_matches. cbn [flat_map fst snd Re.compile Re.finditer].
  rewrite Hscan, fmap_cons, (url_resolved name owner x _ Hcaps).
  unfold owners_supplied. cbn [app List.filter fst].
  rewrite bool_decide_eq_true_2 by done. reflexivity.
Qed.

Lemma url_reference_any_continuation_witness :
  ("foo", Some "acme")
    ∈ extract_targets ("github.com/" +:+ "acme" +:+ "/" +:+ "foo" +:+ "bar-tools")
        (build_extractors ["foo"] None None) {["foo"]}.
Proof.
  apply (url_reference_any_continuation "foo" "acme" "bar-tools" None None {["foo"]}).
  - discriminate.
  - set_solver.
  - discriminate.
  - reflexivity.
Defined.



(** * The report as a whole *)

Lemma node_names_of_dirs origin path_str (dirs : list RepoDir) :
  node_name <$> ((fun repo_dir =>
                    make_node (dir_name repo_dir) (path_str (dir_name repo_dir))
                      (origin (dir_name repo_dir))) <$> dirs)
  = dir_name <$> dirs.
Proof. rewrite <- list_fmap_compose. by apply list_fmap_ext. Qed.

(** X29. A report has at least one node; its counts are the lengths of
    its lists; its nodes are repository directories of the root, in the
    order of their lower-cased names; and every edge joins two different
    nodes of the report. *)
Theorem main_report_consistent rg origin path_str org cap root repo_list_file rep :
  main_report rg origin path_str org cap root repo_list_file = inr rep ->
  report_nodes rep ≠ []
  ∧ report_node_count rep = length (report_nodes rep)
  ∧ report_edge_count rep = length (report_edges rep)
  ∧ (exists entries,
       root = Some entries
       ∧ forall name, name ∈ node_name <$> report_nodes rep ->
                      exists d, (d, true) ∈ entries ∧ dir_name d = name)
  ∧ StronglySorted (fun a b => str_le (Py.lower a) (Py.lower b) = true)
      (node_name <$> report_nodes rep)
  ∧ forall e, e ∈ report_edges rep ->
      r_source e ∈ node_name <$> report_nodes rep
      ∧ r_target e ∈ node_name <$> report_nodes rep
      ∧ r_source e ≠ r_target e.
Proof.
  unfold main_report. destruct root as [entries|]; [|done].
  destruct (select_repo_dirs entries repo_list_file) as [err|dirs] eqn:Hsel; [done|].
  intros [= <-]. cbn [report_nodes report_node_count report_edge_count report_edges].
  apply select_repo_dirs_cases in Hsel as [Hne Hcases].
  assert (Hin : forall d, d ∈ dirs -> (d, true) ∈ entries).
  { intros d Hd. apply elem_of_discover.
    destruct Hcases as [[-> _]|(text & _ & _ & ->)]; [done|].
    by apply list_elem_of_In, List.filter_In in Hd as [?%list_elem_of_In _]. }
  assert (Hsorted : StronglySorted (fun a b => lower_name_le a b = true) dirs).
  { destruct Hcases as [[-> _]|(text & _ & _ & ->)];
      [apply discover_sorted|apply filter_sorted, discover_sorted]. }
  rewrite node_names_of_dirs.
  split; [by destruct dirs|]. split; [done|]. split; [done|]. split; [|split].
  - exists entries. split; [done|]. intros name Hname.
    apply list_elem_of_fmap in Hname as (d & -> & Hd). exists d. split; [by apply Hin|done].
  - apply (sorted_fmap (fun a b => lower_name_le a b = true)); [|done].
    by intros a b _ _.
  - intros re Hre. apply elem_of_edge_list in Hre as ([s t] & e & He & ->).
    rewrite scan_edges_aggregate in He.
    pose proof (aggregate_key_hit _ _ _ _ _ He) as (h & Hh & <- & <-).
    apply scan_hit_known in Hh as (Hs & Ht & _).
    apply aggregate_edge_ok in He as (Hdiff & Hsrc & Htgt & _).
    cbn [fst snd report_edge r_source r_target] in *.
    rewrite Hsrc, Htgt. done.
Qed.

Lemma main_report_consistent_witness :
  let rg := reports_line "a" ".github/workflows/ci.yml" 3 "uses: acme/b@v1" in
  let rep :=
    MkReport (Some "acme") 2 1
      [make_node "a" "/srv/a" None; make_node "b" "/srv/b" None]
      (edge_list (scan_edges rg (Some "acme") 5 [MkRepoDir "a" []; MkRepoDir "b" []])) in
  report_nodes rep ≠ [] ∧ report_node_count rep = length (report_nodes rep).
Proof.
  intros rg rep.
  assert (H : main_report rg (fun _ => None) (fun n => "/srv/" +:+ n) (Some "acme") 5
                (Some [(MkRepoDir "b" [], true); (MkRepoDir "a" [], true);
                       (MkRepoDir "notes" [], false)]) None
              = inr rep).
  { vm_compute. reflexivity. }
  pose proof (main_report_consistent _ _ _ _ _ _ _ _ H) as (H1 & H2 & _).
  split; [exact H1|exact H2].
Defined.

(** * The module line of a [go.mod] *)

Lemma stops_blank (cs : Re.charset) b :
  (forall c, Py.isspace c = true -> cs c = false) -> blank b -> stops cs b = true.
Proof.
  intros Hcs Hb. destruct b as [|c b]; [done|]. unfold blank in Hb. simpl in *.
  apply andb_true_iff in Hb as [Hc _]. by rewrite (Hcs c Hc).
Qed.

(** The pattern of the module line on [<ind>module<sp><path><trail>]. *)
Lemma module_line_match ind sp path trail :
  blank ind -> blank sp -> sp ≠ "" ->
  path ≠ "" -> all_chars not_space path = true -> blank trail ->
  exists m,
    Re.match_ false module_line_re (ind +:+ "module" +:+ sp +:+ path +:+ trail) = Some m
    ∧ group_text "1" m = path.
Proof.
  intros Hind Hsp Hspne Hpne Hpath Htrail.
  destruct sp as [|c sp]; [done|]. destruct path as [|p path]; [done|].
  unfold blank in Hsp. simpl in Hsp, Hpath.
  apply andb_true_iff in Hsp as [Hc Hsp]. apply andb_true_iff in Hpath as [Hp Hpath].
  assert (Hp' : Py.isspace p = false) by (unfold not_space in Hp; by apply negb_true_iff).
  unfold Re.match_, module_line_re. cbn [Re.cat].
  set (line := ind +:+ "module" +:+ String c sp +:+ String p path +:+ trail).
  (* the end of the line *)
  assert (H5 : forall pv cp,
            Re.run false (Re.Seq (Re.Star Py.isspace) Re.Eol) (Re.MState pv trail cp) Some
            = Some (Re.MState (last_char pv trail) "" cp)).
  { intros pv cp. cbn [Re.run Re.prev Re.rest Re.caps].
    rewrite <- (app_empty_r trail) at 1.
    apply star_greedy_longest; [exact Htrail|done|done]. }
  (* the path *)
  assert (H4 : forall pv cp,
            Re.run false (Re.Seq (Re.Group "1" (Re.Plus not_space))
                            (Re.Seq (Re.Star Py.isspace) Re.Eol))
              (Re.MState pv (String p path +:+ trail) cp) Some
            = Some (Re.MState (last_char (last_char (Some p) path) trail) ""
                      (("1", String p path) :: cp))).
  { intros pv cp. rewrite run_seq. cbn [Re.run Re.prev Re.rest Re.caps].
    rewrite app_cons. rewrite in_set_false, Hp.
    apply star_greedy_longest.
    - exact Hpath.
    - apply stops_blank; [|done]. intros x Hx.
      change (negb (Py.isspace x) = false). by rewrite Hx.
    - cbn [Re.prev Re.rest Re.caps]. rewrite consumed_cons_app.
      match goal with
      | |- Re.star_greedy _ _ _ ?pv' ?cp' _ = _ =>
          pose proof (H5 pv' cp') as H5'
      end.
      cbn [Re.run Re.prev Re.rest Re.caps] in H5'. exact H5'. }
  (* the keyword and the whitespace after it *)
  assert (H2 : forall pv cp,
            Re.run false
              (Re.Seq (Re.Lit "module")
                 (Re.Seq (Re.Plus Py.isspace)
                    (Re.Seq (Re.Group "1" (Re.Plus not_space))
                       (Re.Seq (Re.Star Py.isspace) Re.Eol))))
              (Re.MState pv ("module" +:+ String c sp +:+ String p path +:+ trail) cp) Some
            = Some (Re.MState (last_char (last_char (Some p) path) trail) ""
                      (("1", String p path) :: cp))).
  { intros pv cp. cbn [Re.run Re.prev Re.rest Re.caps].
    rewrite (lit_app false "module" "module") by reflexivity.
    rewrite app_cons, in_set_false, Hc.
    apply star_greedy_longest.
    - exact Hsp.
    - rewrite app_cons. simpl. by rewrite Hp'.
    - exact (H4 (last_char (Some c) sp) cp). }
  assert (H1 : Re.run false
              (Re.Seq Re.Bol
                 (Re.Seq (Re.Star Py.isspace)
                    (Re.Seq (Re.Lit "module")
                       (Re.Seq (Re.Plus Py.isspace)
                          (Re.Seq (Re.Group "1" (Re.Plus not_space))
                             (Re.Seq (Re.Star Py.isspace) Re.Eol))))))
              (Re.MState None line []) Some
            = Some (Re.MState (last_char (last_char (Some p) path) trail) ""
                      [("1", String p path)])).
  { cbn [Re.run Re.prev Re.rest Re.caps].
    unfold line. apply star_greedy_longest; [exact Hind|reflexivity|exact (H2 (last_char None ind) [])]. }
  rewrite H1. eexists. split; [done|]. reflexivity.
Qed.

Lemma first_module_path_skips before lines :
  Forall (fun l => Re.match_ false module_line_re l = None) before ->
  first_module_path (before ++ lines) = first_module_path lines.
Proof.
  induction 1 as [|l before Hl _ IH]; [done|]. simpl. by rewrite Hl.
Qed.

Lemma strip_plain s :
  s ≠ "" -> all_chars not_space s = true -> Py.strip s = s.
Proof.
  intros Hne Hall. unfold Py.strip.
  assert (Hl : Py.lstrip s = s).
  { destruct s as [|c s]; [done|]. simpl in *.
    apply andb_true_iff in Hall as [Hc _]. unfold not_space in Hc.
    apply negb_true_iff in Hc. by rewrite Hc. }
  rewrite Hl. clear Hl Hne. induction s as [|c s IH]; [done|]. simpl in *.
  apply andb_true_iff in Hall as [Hc Hs]. rewrite (IH Hs).
  unfold not_space in Hc. apply negb_true_iff in Hc. rewrite Hc. by destruct s.
Qed.

(** X30. The alias collector reads the module path from the first line of
    the form [module <path>], whatever the whitespace before the keyword,
    between keyword and path, and after the path; lines before it that are
    not of this form are passed over and the lines after it are not
    read. *)
Theorem first_module_path_declared before ind sp path trail after :
  Forall (fun l => Re.match_ false module_line_re l = None) before ->
  blank ind -> blank sp -> sp ≠ "" ->
  path ≠ "" -> all_chars not_space path = true -> blank trail ->
  first_module_path
    (before ++ (ind +:+ "module" +:+ sp +:+ path +:+ trail) :: after)
  = Some path.
Proof.
  intros Hbefore Hind Hsp Hspne Hpne Hpath Htrail.
  rewrite (first_module_path_skips before _ Hbefore). simpl.
  destruct (module_line_match ind sp path trail Hind Hsp Hspne Hpne Hpath Htrail)
    as (m & -> & ->).
  by rewrite strip_plain.
Qed.

Lemma first_module_path_declared_witness :
  first_module_path
    (["// tools"; ""] ++ (" " +:+ "module" +:+ String "009" " " +:+ "example.net/tools" +:+ " ")
       :: ["go 1.22"])
  = Some "example.net/tools".
Proof.
  apply (first_module_path_declared ["// tools"; ""] " " (String "009" " ")
           "example.net/tools" " " ["go 1.22"]); try reflexivity.
  - repeat constructor.
  - discriminate.
  - discriminate.
Defined.
